(** * song-notes: the format-grouping and schema-migration engine

    A shallow embedding of [src/lib/formatUtils.ts], [src/lib/fileSystem.ts],
    [src/lib/audioScanner.ts], the version-2 upgrade and the cascade hooks of
    [src/lib/db.ts], and the [useDB] commands that write to the store.

    Conventions.
    - JavaScript strings are [string]; array indices and lengths are [nat],
      numbers that the code stores and that callers may choose freely
      (ids, [selectedFormatIndex], [fileSize]) are [Z].
    - Durations are doubles, [float]: [checkDurationMismatch] subtracts,
      divides and compares them in IEEE binary64 arithmetic, where the
      result of a division is rounded and [NaN] and the infinities are
      values.  A bitrate is an exact rational [Q]: the one computation on
      it, [Math.round(bitrate / 1000)], gives in doubles the integer that
      the exact quotient gives.
    - A [string] holds a JavaScript string in its UTF-8 form.  The code
      takes strings apart at ASCII characters only (the last dot, the first
      underscore, digits), which byte positions and UTF-16 positions locate
      alike; [toLowerCase] is the one operation that can change the length
      of what precedes such a position.
    - [null] is [None].
    - A rejected promise / thrown exception is the [Err] branch of [result].
    - The store (Dexie over IndexedDB) is outside the repository.  A table
      is the list of its rows; [add] on a table with an own primary key
      rejects a key that is taken; an auto-incremented key comes from a
      generator that [clear()] leaves alone; a [deleting] hook runs for
      every row that a delete or [clear()] removes, and what it deletes from
      other tables takes effect only where the transaction under way spans
      them.
    - What the platform decides ([getFile()], [parseBlob], the values of
      [crypto.randomUUID()] and of the clock) is an explicit environment. *)

From Stdlib Require Import Floats.
From Stdlib Require Import List String Ascii ZArith QArith Qround Lia Bool Arith.
From Stdlib Require Import Permutation.
From Stdlib Require Import DecimalString DecimalZ.
Import ListNotations.

Set Implicit Arguments.

Local Open Scope string_scope.
Local Open Scope Z_scope.
Local Open Scope list_scope.

(* ================================================================== *)
(** ** JavaScript primitives used by the code *)

Module JS.

(** [s.lastIndexOf(c)] for a one-character needle: the index of the last
    occurrence, [-1] when there is none. *)
Fixpoint lastIndexOfFrom (c : ascii) (s : string) (i : Z) (found : Z) : Z :=
  match s with
  | EmptyString => found
  | String a s' =>
      lastIndexOfFrom c s' (i + 1) (if Ascii.eqb a c then i else found)
  end.

Definition lastIndexOf (s : string) (c : ascii) : Z :=
  lastIndexOfFrom c s 0 (-1).

Fixpoint take (n : nat) (s : string) : string :=
  match n, s with
  | O, _ => EmptyString
  | S _, EmptyString => EmptyString
  | S n', String a s' => String a (take n' s')
  end.

Fixpoint drop (n : nat) (s : string) : string :=
  match n, s with
  | O, _ => s
  | S _, EmptyString => EmptyString
  | S n', String _ s' => drop n' s'
  end.

(** [s.substring(0, e)]: negative [e] is clamped to [0]. *)
Definition substring0 (s : string) (e : Z) : string :=
  take (Z.to_nat e) s.

(** [s.slice(b)]: a negative [b] counts from the end. *)
Definition slice (s : string) (b : Z) : string :=
  if b <? 0
  then drop (Z.to_nat (Z.max 0 (Z.of_nat (String.length s) + b))) s
  else drop (Z.to_nat b) s.

(** [s.split(c)] for a one-character separator. *)
Fixpoint splitAcc (c : ascii) (s : string) (cur : string) : list string :=
  match s with
  | EmptyString => [cur]
  | String a s' =>
      if Ascii.eqb a c
      then cur :: splitAcc c s' EmptyString
      else splitAcc c s' (String.append cur (String a EmptyString))
  end.

Definition split (s : string) (c : ascii) : list string :=
  splitAcc c s EmptyString.

(** [String(n)] / template interpolation of an integer-valued number. *)
Definition numberToString (n : Z) : string :=
  NilEmpty.string_of_int (Z.to_int n).

Definition isDigit (a : ascii) : bool :=
  let n := nat_of_ascii a in (48 <=? n)%nat && (n <=? 57)%nat.

Fixpoint digitsPrefix (s : string) : string :=
  match s with
  | String a s' => if isDigit a then String a (digitsPrefix s') else EmptyString
  | EmptyString => EmptyString
  end.

Definition isSpace (a : ascii) : bool :=
  let n := nat_of_ascii a in
  (n =? 32)%nat || ((9 <=? n)%nat && (n <=? 13)%nat).

Fixpoint trimStart (s : string) : string :=
  match s with
  | String a s' => if isSpace a then trimStart s' else s
  | EmptyString => EmptyString
  end.

Definition digitsToZ (d : string) : option Z :=
  match NilEmpty.uint_of_string d with
  | Some u => Some (Z.of_N (N.of_uint u))
  | None => None
  end.

Definition parseDigits (r : string) : option Z :=
  match digitsPrefix r with
  | EmptyString => None
  | d => digitsToZ d
  end.

(** [parseInt(s)] in radix 10: leading white space, an optional sign, then
    the longest run of decimal digits; [None] is [NaN]. *)
Definition parseInt (s : string) : option Z :=
  match trimStart s with
  | EmptyString => None
  | String a r =>
      if Ascii.eqb a "-" then option_map Z.opp (parseDigits r)
      else if Ascii.eqb a "+" then parseDigits r
      else parseDigits (String a r)
  end.

Definition lowerAscii (a : ascii) : ascii :=
  let n := nat_of_ascii a in
  if (65 <=? n)%nat && (n <=? 90)%nat then ascii_of_nat (n + 32) else a.

(** The first and second byte of U+0130, capital I with dot above. *)
Definition isDottedCapitalI (a b : ascii) : bool :=
  (nat_of_ascii a =? 196)%nat && (nat_of_ascii b =? 176)%nat.

(** Its lower-case form: [i] followed by the combining dot U+0307. *)
Definition dottedSmallI (rest : string) : string :=
  String "i" (String (ascii_of_nat 204) (String (ascii_of_nat 135) rest)).

(** [s.toLowerCase()], as far as a caller can tell who compares the result
    with ASCII text: the ASCII letters are lowered, and U+0130 becomes two
    characters, [i] and U+0307.  That is the one lower-casing that makes a
    string longer, in UTF-16 units as in bytes.  Other letters outside ASCII
    are left as they are; none of them has an ASCII letter other than [k]
    for its lower case. *)
Fixpoint toLowerCase (s : string) : string :=
  match s with
  | EmptyString => EmptyString
  | String a s' =>
      match s' with
      | String b s'' =>
          if isDottedCapitalI a b
          then dottedSmallI (toLowerCase s'')
          else String (lowerAscii a) (toLowerCase s')
      | EmptyString => String (lowerAscii a) EmptyString
      end
  end.

(** [Math.round] on a rational: halves go towards [+Infinity]. *)
Definition Math_round (x : Q) : Z := Qfloor (x + (1 # 2))%Q.

Definition Qlt_bool (x y : Q) : bool := negb (Qle_bool y x).

(** [x || null] for a number that may be missing: [0] is falsy. *)
Definition orNull (x : option Q) : option Q :=
  match x with
  | Some q => if Qeq_bool q 0 then None else Some q
  | None => None
  end.

(** [x || null] for a double that may be missing: [0], [-0] and [NaN] are
    falsy. *)
Definition orNullDouble (x : option float) : option float :=
  match x with
  | Some d => if PrimFloat.is_nan d || PrimFloat.is_zero d then None else Some d
  | None => None
  end.

(** [+0] and [-0], which compare equal and which [Math.max] and [Math.min]
    tell apart. *)
Definition isPositiveZero (x : float) : bool :=
  match PrimFloat.classify x with
  | PZero => true
  | _ => false
  end.

Definition isNegativeZero (x : float) : bool :=
  match PrimFloat.classify x with
  | NZero => true
  | _ => false
  end.

(** One argument of [Math.max] taken into [highest]: [NaN] wins over
    everything, a greater number replaces [highest], and [+0] replaces
    [-0]. *)
Definition maxStep (highest x : float) : float :=
  if PrimFloat.is_nan highest || PrimFloat.is_nan x then PrimFloat.nan
  else if PrimFloat.ltb highest x then x
  else if isNegativeZero highest && isPositiveZero x then x
  else highest.

(** One argument of [Math.min] taken into [lowest]. *)
Definition minStep (lowest x : float) : float :=
  if PrimFloat.is_nan lowest || PrimFloat.is_nan x then PrimFloat.nan
  else if PrimFloat.ltb x lowest then x
  else if isPositiveZero lowest && isNegativeZero x then x
  else lowest.

(** [Math.max(...ds)] and [Math.min(...ds)] on a non-empty argument list. *)
Definition Math_max (d : float) (ds : list float) : float :=
  fold_left maxStep ds d.

Definition Math_min (d : float) (ds : list float) : float :=
  fold_left minStep ds d.

(** Thrown exceptions and rejected promises. *)
Inductive result (A : Type) : Type :=
| Ok : A -> result A
| Err : string -> result A.
Arguments Err {A} _.

Definition bind {A B} (m : result A) (k : A -> result B) : result B :=
  match m with
  | Ok a => k a
  | Err e => Err e
  end.

End JS.

Import JS.

Notation "'do' x <- m ; k" := (JS.bind m (fun x => k))
  (at level 10, x pattern, m at level 100, k at level 200).


(* ================================================================== *)
(** ** Data model ([src/lib/db.ts]) *)

Module VersionFormat.
Record t : Type := mk
  { fileHandle : string;
    fileName : string;
    format : string;
    bitrate : option Q;
    duration : option float;
    fileSize : Z;
    modifiedAt : string }.
End VersionFormat.

Module Version.
Record t : Type := mk
  { id : Z;
    songId : Z;
    versionName : string;
    formats : list VersionFormat.t;
    selectedFormatIndex : Z;
    hasDurationMismatch : bool;
    rating : option Z;
    createdAt : string;
    modifiedAt : string }.
End Version.

(** The version-1 row: one row per physical file. *)
Module V1Version.
Record t : Type := mk
  { id : Z;
    songId : Z;
    fileHandle : string;
    fileName : string;
    rating : option Z;
    duration : option float;
    bitrate : option Q;
    format : option string;
    createdAt : string;
    modifiedAt : string }.
End V1Version.

Module Song.
Record t : Type := mk
  { id : Z;
    name : string;
    folderHandle : string;
    createdAt : string;
    sortPreference : option string }.
End Song.

Module VersionTag.
Record t : Type := mk
  { versionId : Z;
    tagId : Z }.
End VersionTag.

Module Note.
Record t : Type := mk
  { id : Z;
    versionId : Z;
    content : string;
    timestamp : option Q;
    createdAt : string;
    updatedAt : string }.
End Note.

Module Image.
Record t : Type := mk
  { id : Z;
    versionId : Z;
    fileName : string;
    caption : option string;
    createdAt : string }.
End Image.

(** A [FileSystemHandle]: its [kind], its [name], and the directory entry it
    stands for. *)
Module FileSystemHandle.
Inductive kind_t : Type := file | directory.
Record t : Type := mk
  { kind : kind_t;
    name : string;
    entry : nat }.
End FileSystemHandle.

Module FileSystemDirectoryHandle.
Record t : Type := mk
  { name : string;
    values : list FileSystemHandle.t }.
End FileSystemDirectoryHandle.

Module File.
Record t : Type := mk
  { name : string;
    size : Z;
    lastModified : Z }.
End File.

Module FileHandleRecord.
Record t : Type := mk
  { id : string;
    handle : FileSystemHandle.t }.
End FileHandleRecord.

(** [metadata.format] as [music-metadata] returns it; every field may be
    missing. *)
Module AudioFormat.
Record t : Type := mk
  { duration : option float;
    bitrate : option Q;
    container : option string }.
End AudioFormat.

(** The tables of the store that the modelled code reads or writes.  A table
    is the list of its rows in primary-key order; [versionsNextId] is the key
    generator of the auto-incremented [versions] table. *)
Module DB.
Record t : Type := mk
  { songs : list Song.t;
    versions : list Version.t;
    versionsNextId : Z;
    versionTags : list VersionTag.t;
    notes : list Note.t;
    images : list Image.t;
    fileHandles : list FileHandleRecord.t }.

Definition with_versions (vs : list Version.t) (d : t) : t :=
  mk (songs d) vs (versionsNextId d) (versionTags d) (notes d) (images d)
     (fileHandles d).

Definition with_fileHandles (hs : list FileHandleRecord.t) (d : t) : t :=
  mk (songs d) (versions d) (versionsNextId d) (versionTags d) (notes d)
     (images d) hs.
End DB.

(** The store as schema version 1 left it. *)
Module DBv1.
Record t : Type := mk
  { songs : list Song.t;
    versions : list V1Version.t;
    versionsNextId : Z;
    versionTags : list VersionTag.t;
    notes : list Note.t;
    images : list Image.t;
    fileHandles : list FileHandleRecord.t }.
End DBv1.

(** What the platform answers: the file behind a handle (or a thrown
    permission error), the outcome of [parseBlob], the successive values of
    [crypto.randomUUID()] and of [new Date().toISOString()], the ISO
    rendering of a time stamp, and the time value that [new Date(s).getTime()]
    reads off a string ([None] is [NaN]). *)
Module Env.
Record t : Type := mk
  { getFile : FileSystemHandle.t -> result File.t;
    parseBlob : File.t -> result AudioFormat.t;
    randomUUID : nat -> string;
    dateNow : nat -> string;
    toISOString : Z -> string;
    getTime : string -> option Z }.
End Env.

(** The mutable state of a session: the store, and how many UUIDs and clock
    readings have been consumed. *)
Module World.
Record t : Type := mk
  { db : DB.t;
    uuidsDrawn : nat;
    datesRead : nat }.

Definition with_db (d : DB.t) (w : t) : t :=
  mk d (uuidsDrawn w) (datesRead w).
End World.

(* ================================================================== *)
(** ** Asynchronous code: state passing with exceptions

    An [async] function is a state transformer that either returns or throws;
    what it wrote before throwing stays written. *)

Definition M (A : Type) : Type := World.t -> result A * World.t.

Definition ret {A} (a : A) : M A := fun w => (Ok a, w).

Definition throw {A} (e : string) : M A := fun w => (Err e, w).

Definition bindM {A B} (m : M A) (k : A -> M B) : M B :=
  fun w =>
    match m w with
    | (Ok a, w') => k a w'
    | (Err e, w') => (Err e, w')
    end.

(** [try { m } catch (error) { h }] *)
Definition tryCatch {A} (m : M A) (h : M A) : M A :=
  fun w =>
    match m w with
    | (Ok a, w') => (Ok a, w')
    | (Err _, w') => h w'
    end.

Definition lift {A} (r : result A) : M A := fun w => (r, w).

Notation "x <- m ;; k" := (bindM m (fun x => k))
  (at level 61, m at next level, right associativity).


(* ================================================================== *)
(** ** [src/lib/formatUtils.ts] *)

Module FormatUtils.

(** [formats.map(f => f.duration).filter(d => d !== null)] *)
Definition knownDurations (formats : list VersionFormat.t) : list float :=
  flat_map (fun f => match VersionFormat.duration f with
                     | Some d => [d]
                     | None => []
                     end) formats.

(** The double that the literal [0.05] denotes. *)
Definition fivePercent : float := 0x1.999999999999ap-5%float.

(** [(max - min) / max > 0.05], each operation in double arithmetic. *)
Definition varianceExceeds (max min : float) : bool :=
  let variance := PrimFloat.div (PrimFloat.sub max min) max in
  PrimFloat.ltb fivePercent variance.

Definition checkDurationMismatch (formats : list VersionFormat.t) : bool :=
  if (List.length formats <? 2)%nat then false
  else
    let durations := knownDurations formats in
    if (List.length durations <? 2)%nat then false
    else
      match durations with
      | [] => false
      | d :: ds => varianceExceeds (Math_max d ds) (Math_min d ds)
      end.

(** The [for] loop of [findSmallestFormat], from index [i] on. *)
Fixpoint findSmallestLoop (rest : list VersionFormat.t) (i : nat)
         (smallestIndex : nat) (smallestSize : Z) : nat :=
  match rest with
  | [] => smallestIndex
  | f :: rest' =>
      if VersionFormat.fileSize f <? smallestSize
      then findSmallestLoop rest' (S i) i (VersionFormat.fileSize f)
      else findSmallestLoop rest' (S i) smallestIndex smallestSize
  end.

Definition findSmallestFormat (formats : list VersionFormat.t) : nat :=
  match formats with
  | [] => 0%nat
  | f0 :: rest => findSmallestLoop rest 1 0 (VersionFormat.fileSize f0)
  end.

Definition getBaseFileName (fileName : string) : string :=
  let lastDot := lastIndexOf fileName "." in
  if lastDot >? 0 then substring0 fileName lastDot else fileName.

End FormatUtils.

Import FormatUtils.


(* ================================================================== *)
(** ** [src/lib/fileSystem.ts] *)

Module FileSystem.

(** [db.fileHandles.get(id)] *)
Definition fileHandles_get (id : string) (d : DB.t) : option FileHandleRecord.t :=
  find (fun r => String.eqb (FileHandleRecord.id r) id) (DB.fileHandles d).

(** [db.fileHandles.add(record)]: the primary key [id] is unique, adding a
    taken key is rejected. *)
Definition fileHandles_add (r : FileHandleRecord.t) : M unit :=
  fun w =>
    match fileHandles_get (FileHandleRecord.id r) (World.db w) with
    | Some _ => (Err "ConstraintError", w)
    | None =>
        (Ok tt,
         World.with_db
           (DB.with_fileHandles (DB.fileHandles (World.db w) ++ [r]) (World.db w)) w)
    end.

Definition crypto_randomUUID (env : Env.t) : M string :=
  fun w =>
    (Ok (Env.randomUUID env (World.uuidsDrawn w)),
     World.mk (World.db w) (S (World.uuidsDrawn w)) (World.datesRead w)).

(** [new Date().toISOString()] *)
Definition newDateISO (env : Env.t) : M string :=
  fun w =>
    (Ok (Env.dateNow env (World.datesRead w)),
     World.mk (World.db w) (World.uuidsDrawn w) (S (World.datesRead w))).

Definition serializeHandle (env : Env.t) (handle : FileSystemHandle.t) : M string :=
  handleId <- crypto_randomUUID env ;;
  _ <- fileHandles_add (FileHandleRecord.mk handleId handle) ;;
  ret handleId.

Definition deserializeHandle (handleId : string) (w : World.t)
  : option FileSystemHandle.t :=
  match fileHandles_get handleId (World.db w) with
  | Some record => Some (FileHandleRecord.handle record)
  | None => None
  end.

Definition getFileFromHandle (env : Env.t) (fileHandle : FileSystemHandle.t)
  : M File.t :=
  lift (Env.getFile env fileHandle).

Definition getFileSize (env : Env.t) (fileHandle : FileSystemHandle.t) : M Z :=
  file <- lift (Env.getFile env fileHandle) ;;
  ret (File.size file).

Definition AUDIO_EXTENSIONS : list string :=
  [".mp3"; ".wav"; ".flac"; ".m4a"; ".aac"; ".ogg"; ".wma"].

Definition includes (l : list string) (s : string) : bool :=
  existsb (String.eqb s) l.

Definition isAudioEntry (e : FileSystemHandle.t) : bool :=
  match FileSystemHandle.kind e with
  | FileSystemHandle.file =>
      let name := FileSystemHandle.name e in
      let ext := slice (toLowerCase name) (lastIndexOf name ".") in
      includes AUDIO_EXTENSIONS ext
  | FileSystemHandle.directory => false
  end.

Definition scanDirectoryForAudioFiles (dirHandle : FileSystemDirectoryHandle.t)
  : list FileSystemHandle.t :=
  filter isAudioEntry (FileSystemDirectoryHandle.values dirHandle).

End FileSystem.

Import FileSystem.

(* ================================================================== *)
(** ** [src/lib/audioScanner.ts] *)

Module AudioScanner.

(** What [extractAudioMetadata] returns. *)
Record audioMetadata : Type := mkAudioMetadata
  { am_duration : option float;
    am_bitrate : option Q;
    am_format : string }.

(** [file.name.slice(file.name.lastIndexOf('.') + 1)] *)
Definition extensionOf (name : string) : string :=
  slice name (lastIndexOf name "." + 1).

(** [metadata.format.container || ext]: the empty string is falsy. *)
Definition orExtension (container : option string) (ext : string) : string :=
  match container with
  | Some EmptyString => ext
  | Some c => c
  | None => ext
  end.

Definition extractAudioMetadata (env : Env.t) (file : File.t) : M audioMetadata :=
  tryCatch
    (metadata <- lift (Env.parseBlob env file) ;;
     ret (mkAudioMetadata
            (orNullDouble (AudioFormat.duration metadata))
            (match orNull (AudioFormat.bitrate metadata) with
             | Some b => Some (inject_Z (Math_round (b / 1000)))
             | None => None
             end)
            (orExtension (AudioFormat.container metadata)
                         (extensionOf (File.name file)))))
    (ret (mkAudioMetadata None None (extensionOf (File.name file)))).

Definition extractFormatMetadata (env : Env.t) (fileHandle : FileSystemHandle.t)
  : M (option VersionFormat.t) :=
  tryCatch
    (file <- getFileFromHandle env fileHandle ;;
     handleId <- serializeHandle env fileHandle ;;
     fileSize <- getFileSize env fileHandle ;;
     audioMetadata <- extractAudioMetadata env file ;;
     ret (Some (VersionFormat.mk
                  handleId
                  (FileSystemHandle.name fileHandle)
                  (am_format audioMetadata)
                  (am_bitrate audioMetadata)
                  (am_duration audioMetadata)
                  fileSize
                  (Env.toISOString env (File.lastModified file)))))
    (ret None).

(** [db.versions.add(row)]: the key generator supplies the id. *)
Definition versions_add (row : Z -> Version.t) : M Z :=
  fun w =>
    let d := World.db w in
    let newId := DB.versionsNextId d in
    (Ok newId,
     World.with_db
       (DB.mk (DB.songs d) (DB.versions d ++ [row newId]) (newId + 1)
              (DB.versionTags d) (DB.notes d) (DB.images d) (DB.fileHandles d))
       w).

(** [db.versions.update(id, changes)]: the row with that key is patched; no
    such row is not an error. *)
Definition versions_update (id : Z) (changes : Version.t -> Version.t) : M unit :=
  fun w =>
    let d := World.db w in
    (Ok tt,
     World.with_db
       (DB.with_versions
          (map (fun v => if Version.id v =? id then changes v else v) (DB.versions d))
          d)
       w).

(** [db.versions.where({ songId, versionName }).first()] *)
Definition versions_first (songId : Z) (versionName : string) (w : World.t)
  : option Version.t :=
  find (fun v => (Version.songId v =? songId)
                 && String.eqb (Version.versionName v) versionName)
       (DB.versions (World.db w)).

(** The loop of [createVersionWithFormats]. *)
Fixpoint extractFormats (env : Env.t) (handles : list FileSystemHandle.t)
         (formats : list VersionFormat.t) : M (list VersionFormat.t) :=
  match handles with
  | [] => ret formats
  | fileHandle :: rest =>
      formatData <- extractFormatMetadata env fileHandle ;;
      extractFormats env rest
        (match formatData with
         | Some f => formats ++ [f]
         | None => formats
         end)
  end.

(** [formats[i].modifiedAt]; reading a property of [undefined] throws. *)
Definition modifiedAtOf (formats : list VersionFormat.t) (i : nat) : M string :=
  match nth_error formats i with
  | Some f => ret (VersionFormat.modifiedAt f)
  | None => throw "TypeError"
  end.

Definition createVersionWithFormats (env : Env.t) (songId : Z)
           (versionName : string) (handles : list FileSystemHandle.t) : M unit :=
  formats <- extractFormats env handles [] ;;
  match formats with
  | [] => ret tt
  | _ =>
      let selectedFormatIndex := findSmallestFormat formats in
      let hasDurationMismatch := checkDurationMismatch formats in
      createdAt <- newDateISO env ;;
      modifiedAt <- modifiedAtOf formats selectedFormatIndex ;;
      _ <- versions_add (fun id =>
             Version.mk id songId versionName formats
                        (Z.of_nat selectedFormatIndex) hasDurationMismatch
                        None createdAt modifiedAt) ;;
      ret tt
  end.

(** The loop of [addNewFormatsToVersion]; the state is
    [(newFormats, hasNewFormats)]. *)
Fixpoint mergeFormats (env : Env.t) (existingHandleIds : list string)
         (handles : list FileSystemHandle.t)
         (acc : list VersionFormat.t * bool) : M (list VersionFormat.t * bool) :=
  match handles with
  | [] => ret acc
  | fileHandle :: rest =>
      handleId <- serializeHandle env fileHandle ;;
      if includes existingHandleIds handleId
      then mergeFormats env existingHandleIds rest acc
      else
        formatData <- extractFormatMetadata env fileHandle ;;
        mergeFormats env existingHandleIds rest
          (match formatData with
           | Some f => (fst acc ++ [f], true)
           | None => acc
           end)
  end.

Definition addNewFormatsToVersion (env : Env.t) (version : Version.t)
           (handles : list FileSystemHandle.t) : M unit :=
  let existingHandleIds := map VersionFormat.fileHandle (Version.formats version) in
  r <- mergeFormats env existingHandleIds handles (Version.formats version, false) ;;
  let newFormats := fst r in
  if snd r
  then
    let selectedFormatIndex := findSmallestFormat newFormats in
    let hasDurationMismatch := checkDurationMismatch newFormats in
    modifiedAt <- newDateISO env ;;
    versions_update (Version.id version)
      (fun v => Version.mk (Version.id v) (Version.songId v) (Version.versionName v)
                           newFormats (Z.of_nat selectedFormatIndex)
                           hasDurationMismatch (Version.rating v)
                           (Version.createdAt v) modifiedAt)
  else ret tt.

(** A [Map<string, T[]>] in insertion order: [set] of a new key appends the
    entry, [get(key).push(x)] appends to the entry's array. *)
Fixpoint groupPush {T} (key : string) (x : T) (groups : list (string * list T))
  : list (string * list T) :=
  match groups with
  | [] => [(key, [x])]
  | (k, xs) :: groups' =>
      if String.eqb k key
      then (k, xs ++ [x]) :: groups'
      else (k, xs) :: groupPush key x groups'
  end.

Definition groupBy {T} (keyOf : T -> string) (items : list T)
  : list (string * list T) :=
  fold_left (fun groups x => groupPush (keyOf x) x groups) items [].

Definition groupFiles (audioFileHandles : list FileSystemHandle.t)
  : list (string * list FileSystemHandle.t) :=
  groupBy (fun h => getBaseFileName (FileSystemHandle.name h)) audioFileHandles.

(** The second loop of [scanAndAddAudioFiles]. *)
Fixpoint processGroups (env : Env.t) (songId : Z)
         (groups : list (string * list FileSystemHandle.t)) : M unit :=
  match groups with
  | [] => ret tt
  | (versionName, handles) :: rest =>
      _ <- (fun w =>
              match versions_first songId versionName w with
              | Some existing => addNewFormatsToVersion env existing handles w
              | None => createVersionWithFormats env songId versionName handles w
              end) ;;
      processGroups env songId rest
  end.

Definition scanAndAddAudioFiles (env : Env.t)
           (dirHandle : FileSystemDirectoryHandle.t) (songId : Z) : M unit :=
  let audioFileHandles := scanDirectoryForAudioFiles dirHandle in
  processGroups env songId (groupFiles audioFileHandles).

End AudioScanner.

Import AudioScanner.

(* ================================================================== *)
(** ** The cascade hooks of [src/lib/db.ts]

    A [deleting] hook runs for every row a delete removes, before the row
    goes.  The hooks delete from other tables and do not await the outcome.
    Dexie runs such a call in the transaction that is under way.  When that
    transaction spans the other table, the rows are deleted with it.  When
    it does not, the call is rejected, and the rejection of a promise that
    nobody awaits changes nothing.  An operation outside an explicit
    transaction runs in a transaction of its own, which spans the one table
    it is called on; the upgrade transaction spans every table. *)

Module Cascade.

Inductive table : Type :=
| songsTable
| versionsTable
| versionTagsTable
| notesTable
| imagesTable.

Definition table_eqb (a b : table) : bool :=
  match a, b with
  | songsTable, songsTable => true
  | versionsTable, versionsTable => true
  | versionTagsTable, versionTagsTable => true
  | notesTable, notesTable => true
  | imagesTable, imagesTable => true
  | _, _ => false
  end.

(** The tables a transaction spans. *)
Definition transaction : Type := list table.

Definition spans (tx : transaction) (t : table) : bool :=
  existsb (table_eqb t) tx.

(** The transaction of an operation called on [t] outside any other. *)
Definition implicit (t : table) : transaction := [t].

(** The transaction of an upgrade. *)
Definition upgradeTransaction : transaction :=
  [songsTable; versionsTable; versionTagsTable; notesTable; imagesTable].

(** The three tables whose rows name a version. *)
Record dependents : Type := mkDependents
  { dVersionTags : list VersionTag.t;
    dNotes : list Note.t;
    dImages : list Image.t }.

(** [this.versions.hook('deleting', (primKey, obj) => ...)] in the
    transaction [tx], given [obj.id]: three deletes, each on its own table. *)
Definition versions_hook_deleting (tx : transaction) (objId : Z)
           (deps : dependents) : dependents :=
  mkDependents
    (if spans tx versionTagsTable
     then filter (fun vt => negb (VersionTag.versionId vt =? objId))
                 (dVersionTags deps)
     else dVersionTags deps)
    (if spans tx notesTable
     then filter (fun n => negb (Note.versionId n =? objId)) (dNotes deps)
     else dNotes deps)
    (if spans tx imagesTable
     then filter (fun i => negb (Image.versionId i =? objId)) (dImages deps)
     else dImages deps).

(** The hook fired for each of a batch of rows, in table order. *)
Definition versions_hooks (tx : transaction) (objIds : list Z)
           (deps : dependents) : dependents :=
  fold_left (fun acc objId => versions_hook_deleting tx objId acc) objIds deps.

Definition dependentsOf (d : DB.t) : dependents :=
  mkDependents (DB.versionTags d) (DB.notes d) (DB.images d).

Definition with_dependents (deps : dependents) (d : DB.t) : DB.t :=
  DB.mk (DB.songs d) (DB.versions d) (DB.versionsNextId d)
        (dVersionTags deps) (dNotes deps) (dImages deps) (DB.fileHandles d).

(** [versions.where(...).delete()] called while [tx] is under way: rejected
    without effect when [tx] does not span [versions]; otherwise the hook
    fires for each doomed row, then the rows are removed. *)
Definition versions_deleteWhere (tx : transaction) (doomed : Version.t -> bool)
           (d : DB.t) : DB.t :=
  if spans tx versionsTable
  then
    let objIds := map Version.id (filter doomed (DB.versions d)) in
    let d' := with_dependents (versions_hooks tx objIds (dependentsOf d)) d in
    DB.with_versions (filter (fun v => negb (doomed v)) (DB.versions d')) d'
  else d.

(** [this.songs.hook('deleting', (primKey, obj) => ...)] *)
Definition songs_hook_deleting (tx : transaction) (obj : Song.t) (d : DB.t) : DB.t :=
  versions_deleteWhere tx (fun v => Version.songId v =? Song.id obj) d.

(** [songs.delete(id)] in the transaction [tx].  The hook is called with the
    stored row, which is [undefined] when no row has the key: reading
    [obj.id] then throws and the delete is rejected. *)
Definition songs_delete (tx : transaction) (id : Z) (d : DB.t) : result DB.t :=
  match find (fun s => Song.id s =? id) (DB.songs d) with
  | Some obj =>
      let d' := songs_hook_deleting tx obj d in
      Ok (DB.mk (filter (fun s => negb (Song.id s =? id)) (DB.songs d'))
                (DB.versions d') (DB.versionsNextId d') (DB.versionTags d')
                (DB.notes d') (DB.images d') (DB.fileHandles d'))
  | None => Err "TypeError"
  end.

End Cascade.

Import Cascade.

(* ================================================================== *)
(** ** The version-2 upgrade of [src/lib/db.ts] *)

Module Migration.

(** [`${oldVersion.songId}_${baseName}`] *)
Definition groupKeyOf (oldVersion : V1Version.t) : string :=
  let baseName := getBaseFileName (V1Version.fileName oldVersion) in
  String.append (numberToString (V1Version.songId oldVersion))
                (String.append "_" baseName).

Definition versionGroups (oldVersions : list V1Version.t)
  : list (string * list V1Version.t) :=
  groupBy groupKeyOf oldVersions.

(** The [try] block around the file-size lookup: a missing registry row
    leaves [0], a throwing [getFile] is caught and leaves [0]. *)
Definition legacyFileSize (env : Env.t) (registry : list FileHandleRecord.t)
           (oldVersion : V1Version.t) : Z :=
  match find (fun r => String.eqb (FileHandleRecord.id r)
                                  (V1Version.fileHandle oldVersion)) registry with
  | Some handleRecord =>
      match Env.getFile env (FileHandleRecord.handle handleRecord) with
      | Ok file => File.size file
      | Err _ => 0
      end
  | None => 0
  end.

(** [oldVersion.format || 'unknown'] *)
Definition orUnknown (format : option string) : string :=
  match format with
  | Some EmptyString => "unknown"
  | Some f => f
  | None => "unknown"
  end.

Definition toFormat (env : Env.t) (registry : list FileHandleRecord.t)
           (oldVersion : V1Version.t) : VersionFormat.t :=
  VersionFormat.mk
    (V1Version.fileHandle oldVersion)
    (V1Version.fileName oldVersion)
    (orUnknown (V1Version.format oldVersion))
    (V1Version.bitrate oldVersion)
    (V1Version.duration oldVersion)
    (legacyFileSize env registry oldVersion)
    (V1Version.modifiedAt oldVersion).

(** [Map<number, number>.set]: a present key keeps its place. *)
Fixpoint mapSet (k v : Z) (m : list (Z * Z)) : list (Z * Z) :=
  match m with
  | [] => [(k, v)]
  | (k', v') :: m' =>
      if k' =? k then (k', v) :: m' else (k', v') :: mapSet k v m'
  end.

(** The state of the loop that writes the grouped rows: the cleared and
    refilled [versions] table, its key generator (which [clear()] does not
    reset), and [newVersionIdMap]. *)
Record created : Type := mkCreated
  { newVersions : list Version.t;
    nextId : Z;
    newVersionIdMap : list (Z * Z) }.

(** One turn of [for (const [groupKey, groupVersions] of versionGroups)].
    The three error branches stand for reads that cannot happen on a key
    built by [groupKeyOf] from a non-empty group: a key without an
    underscore, [parseInt] returning [NaN], and [groupVersions[0]] or
    [formats[selectedFormatIndex]] being [undefined]. *)
Definition migrateGroup (env : Env.t) (registry : list FileHandleRecord.t)
           (st : created) (group : string * list V1Version.t) : result created :=
  let (groupKey, groupVersions) := group in
  match split groupKey "_" with
  | songId :: versionName :: _ =>
      let formats := map (toFormat env registry) groupVersions in
      let selectedFormatIndex := findSmallestFormat formats in
      let hasDurationMismatch := checkDurationMismatch formats in
      match groupVersions, nth_error formats selectedFormatIndex, parseInt songId with
      | firstVersion :: _, Some selected, Some songIdNumber =>
          let newVersionId := nextId st in
          Ok (mkCreated
                (newVersions st ++
                 [Version.mk newVersionId songIdNumber versionName formats
                             (Z.of_nat selectedFormatIndex) hasDurationMismatch
                             (V1Version.rating firstVersion)
                             (V1Version.createdAt firstVersion)
                             (VersionFormat.modifiedAt selected)])
                (newVersionId + 1)
                (fold_left (fun m oldVersion =>
                              mapSet (V1Version.id oldVersion) newVersionId m)
                           groupVersions (newVersionIdMap st)))
      | [], _, _ => Err "TypeError"
      | _, None, _ => Err "TypeError"
      | _, _, None => Err "NaN"
      end
  | _ => Err "undefined versionName"
  end.

Fixpoint migrateGroups (env : Env.t) (registry : list FileHandleRecord.t)
         (groups : list (string * list V1Version.t)) (st : created)
  : result created :=
  match groups with
  | [] => Ok st
  | g :: rest =>
      do st' <- migrateGroup env registry st g;
      migrateGroups env registry rest st'
  end.

Definition vtMatches (versionId tagId : Z) (vt : VersionTag.t) : bool :=
  (VersionTag.versionId vt =? versionId) && (VersionTag.tagId vt =? tagId).

(** [versionTags.where({ versionId: oldId, tagId }).modify({ versionId: newId })].
    The table's primary key is the pair, so a modified row is re-added under
    its new key; a key that is already taken makes the [modify] fail. *)
Definition modifyVersionTag (oldId tagId newId : Z) (rows : list VersionTag.t)
  : result (list VersionTag.t) :=
  if oldId =? newId then Ok rows
  else if existsb (vtMatches oldId tagId) rows
       then if existsb (vtMatches newId tagId) rows
            then Err "ModifyError"
            else Ok (map (fun vt => if vtMatches oldId tagId vt
                                    then VersionTag.mk newId (VersionTag.tagId vt)
                                    else vt) rows)
       else Ok rows.

(** [for (const vt of versionTags) ...] over the rows read before the loop. *)
Fixpoint remapVersionTags (oldId newId : Z) (snapshot rows : list VersionTag.t)
  : result (list VersionTag.t) :=
  match snapshot with
  | [] => Ok rows
  | vt :: rest =>
      do rows' <- modifyVersionTag oldId (VersionTag.tagId vt) newId rows;
      remapVersionTags oldId newId rest rows'
  end.

Definition remapNote (oldId newId : Z) (n : Note.t) : Note.t :=
  if Note.versionId n =? oldId
  then Note.mk (Note.id n) newId (Note.content n) (Note.timestamp n)
               (Note.createdAt n) (Note.updatedAt n)
  else n.

Definition remapImage (oldId newId : Z) (i : Image.t) : Image.t :=
  if Image.versionId i =? oldId
  then Image.mk (Image.id i) newId (Image.fileName i) (Image.caption i)
                (Image.createdAt i)
  else i.

(** One turn of [for (const [oldId, newId] of newVersionIdMap.entries())]. *)
Definition remapEntry (deps : dependents) (entry : Z * Z) : result dependents :=
  let (oldId, newId) := entry in
  let versionTags :=
    filter (fun vt => VersionTag.versionId vt =? oldId) (dVersionTags deps) in
  do vts <- remapVersionTags oldId newId versionTags (dVersionTags deps);
  Ok (mkDependents vts
        (map (remapNote oldId newId) (dNotes deps))
        (map (remapImage oldId newId) (dImages deps))).

Fixpoint remapEntries (entries : list (Z * Z)) (deps : dependents)
  : result dependents :=
  match entries with
  | [] => Ok deps
  | e :: rest =>
      do deps' <- remapEntry deps e;
      remapEntries rest deps'
  end.

(** [tx.table('versions').clear()] in the upgrade transaction: the
    [deleting] hook of [versions] fires for every legacy row, and the
    transaction spans the tables the hook deletes from. *)
Definition versions_clear (oldVersions : list V1Version.t) (deps : dependents)
  : dependents :=
  versions_hooks upgradeTransaction (map V1Version.id oldVersions) deps.

(** The upgrade callback of [version(2)]: [Err] is the rethrown error that
    aborts the upgrade transaction. *)
Definition upgradeToV2 (env : Env.t) (old : DBv1.t) : result DB.t :=
  let oldVersions := DBv1.versions old in
  let groups := versionGroups oldVersions in
  let cleared :=
    versions_clear oldVersions
      (mkDependents (DBv1.versionTags old) (DBv1.notes old) (DBv1.images old)) in
  do st <- migrateGroups env (DBv1.fileHandles old) groups
             (mkCreated [] (DBv1.versionsNextId old) []);
  do deps <- remapEntries (newVersionIdMap st) cleared;
  Ok (DB.mk (DBv1.songs old) (newVersions st) (nextId st)
            (dVersionTags deps) (dNotes deps) (dImages deps)
            (DBv1.fileHandles old)).

End Migration.

Import Migration.

(* ================================================================== *)
(** ** The [useDB] commands that write to the store *)

Module UseDB.

(** [await db.songs.delete(songId); return true]: called outside any
    transaction.  [Err] is the rejected promise, the store being as it was. *)
Definition removeSong (songId : Z) (d : DB.t) : result DB.t :=
  songs_delete (implicit songsTable) songId d.

(** [db.versions.update(versionId, { selectedFormatIndex: formatIndex })] *)
Definition updateVersionFormat (versionId : Z) (formatIndex : Z) : M unit :=
  versions_update versionId
    (fun v => Version.mk (Version.id v) (Version.songId v) (Version.versionName v)
                         (Version.formats v) formatIndex
                         (Version.hasDurationMismatch v) (Version.rating v)
                         (Version.createdAt v) (Version.modifiedAt v)).

(** [db.notes.where('versionId').equals(versionId).toArray()] and its
    siblings. *)
Definition getNotes (versionId : Z) (d : DB.t) : list Note.t :=
  filter (fun n => Note.versionId n =? versionId) (DB.notes d).

Definition getImages (versionId : Z) (d : DB.t) : list Image.t :=
  filter (fun i => Image.versionId i =? versionId) (DB.images d).

Definition getVersionTags (versionId : Z) (d : DB.t) : list VersionTag.t :=
  filter (fun vt => VersionTag.versionId vt =? versionId) (DB.versionTags d).

Definition getVersions (songId : Z) (d : DB.t) : list Version.t :=
  filter (fun v => Version.songId v =? songId) (DB.versions d).

End UseDB.

Import UseDB.

(* ================================================================== *)
(** ** The joined queries of [src/lib/db.ts] *)

Module Tag.
Record t : Type := mk
  { id : Z;
    name : string;
    color : string }.
End Tag.

(** [{ ...version, tags, noteCount }]: a [versions] row with what the queries
    join to it.  [getVersionWithTags] sets no [noteCount]. *)
Module VersionWithTags.
Record t : Type := mk
  { version : Version.t;
    tags : list Tag.t;
    noteCount : option nat }.
End VersionWithTags.

(** [{ ...song, versions }] *)
Module SongWithVersions.
Record t : Type := mk
  { song : Song.t;
    versions : list VersionWithTags.t }.
End SongWithVersions.

Module Queries.

(** [db.tags.get(tagId)] *)
Definition tags_get (tagId : Z) (tagsTable : list Tag.t) : option Tag.t :=
  find (fun t => Tag.id t =? tagId) tagsTable.

(** [tags.filter(Boolean)] on the results of [get]: [undefined] is dropped. *)
Definition filterBoolean {A} (xs : list (option A)) : list A :=
  flat_map (fun x => match x with
                     | Some a => [a]
                     | None => []
                     end) xs.

(** The tags of a version: its link rows, each looked up in [tags]. *)
Definition tagsOfVersion (tagsTable : list Tag.t) (versionId : Z) (d : DB.t)
  : list Tag.t :=
  let versionTagRecords := getVersionTags versionId d in
  filterBoolean
    (map (fun vt => tags_get (VersionTag.tagId vt) tagsTable) versionTagRecords).

Definition getSongsWithVersions (tagsTable : list Tag.t) (d : DB.t)
  : list SongWithVersions.t :=
  map (fun song =>
         let versions := getVersions (Song.id song) d in
         let versionsWithTags :=
           map (fun version =>
                  VersionWithTags.mk
                    version
                    (tagsOfVersion tagsTable (Version.id version) d)
                    (Some (List.length (getNotes (Version.id version) d))))
               versions in
         SongWithVersions.mk song versionsWithTags)
      (DB.songs d).

Definition getVersionWithTags (tagsTable : list Tag.t) (versionId : Z) (d : DB.t)
  : option VersionWithTags.t :=
  match find (fun v => Version.id v =? versionId) (DB.versions d) with
  | None => None
  | Some version =>
      Some (VersionWithTags.mk version
                               (tagsOfVersion tagsTable versionId d)
                               None)
  end.

End Queries.

(* ================================================================== *)
(** ** The application state of [src/store/appStore.ts] *)

(** [{ ...v, rating }] and [{ ...v, selectedFormatIndex }] on a version. *)
Definition withRating (rating : option Z) (v : Version.t) : Version.t :=
  Version.mk (Version.id v) (Version.songId v) (Version.versionName v)
             (Version.formats v) (Version.selectedFormatIndex v)
             (Version.hasDurationMismatch v) rating
             (Version.createdAt v) (Version.modifiedAt v).

Definition withSelectedFormatIndex (formatIndex : Z) (v : Version.t) : Version.t :=
  Version.mk (Version.id v) (Version.songId v) (Version.versionName v)
             (Version.formats v) formatIndex
             (Version.hasDurationMismatch v) (Version.rating v)
             (Version.createdAt v) (Version.modifiedAt v).

Module AppStore.

Record t : Type := mk
  { songs : list SongWithVersions.t;
    tags : list Tag.t;
    selectedSong : option SongWithVersions.t;
    selectedVersion : option VersionWithTags.t;
    notes : list Note.t;
    images : list Image.t;
    isLoading : bool;
    error : option string;
    playingVersionId : option Z;
    seekRequest : option (Z * Q) }.

Definition initial : t := mk [] [] None None [] [] false None None None.

Definition setSongs (songs' : list SongWithVersions.t) (state : t) : t :=
  mk songs' (tags state) (selectedSong state) (selectedVersion state)
     (notes state) (images state) (isLoading state) (error state)
     (playingVersionId state) (seekRequest state).

Definition setTags (tags' : list Tag.t) (state : t) : t :=
  mk (songs state) tags' (selectedSong state) (selectedVersion state)
     (notes state) (images state) (isLoading state) (error state)
     (playingVersionId state) (seekRequest state).

(** [set({ selectedSong: song, selectedVersion: null })] *)
Definition setSelectedSong (song : option SongWithVersions.t) (state : t) : t :=
  mk (songs state) (tags state) song None
     (notes state) (images state) (isLoading state) (error state)
     (playingVersionId state) (seekRequest state).

Definition setSelectedVersion (version : option VersionWithTags.t) (state : t) : t :=
  mk (songs state) (tags state) (selectedSong state) version
     (notes state) (images state) (isLoading state) (error state)
     (playingVersionId state) (seekRequest state).

Definition setNotes (notes' : list Note.t) (state : t) : t :=
  mk (songs state) (tags state) (selectedSong state) (selectedVersion state)
     notes' (images state) (isLoading state) (error state)
     (playingVersionId state) (seekRequest state).

Definition setImages (images' : list Image.t) (state : t) : t :=
  mk (songs state) (tags state) (selectedSong state) (selectedVersion state)
     (notes state) images' (isLoading state) (error state)
     (playingVersionId state) (seekRequest state).

Definition addSong (song : SongWithVersions.t) (state : t) : t :=
  setSongs (songs state ++ [song]) state.

(** [state.selectedSong?.id === songId] *)
Definition selectedSongIs (songId : Z) (state : t) : bool :=
  match selectedSong state with
  | Some s => Song.id (SongWithVersions.song s) =? songId
  | None => false
  end.

Definition removeSong (songId : Z) (state : t) : t :=
  mk (filter (fun s => negb (Song.id (SongWithVersions.song s) =? songId))
             (songs state))
     (tags state)
     (if selectedSongIs songId state then None else selectedSong state)
     (if selectedSongIs songId state then None else selectedVersion state)
     (notes state) (images state) (isLoading state) (error state)
     (playingVersionId state) (seekRequest state).

Definition addTag (tag : Tag.t) (state : t) : t :=
  setTags (tags state ++ [tag]) state.

Definition updateVersionRating (versionId : Z) (rating : option Z) (state : t) : t :=
  mk (map (fun song =>
             SongWithVersions.mk
               (SongWithVersions.song song)
               (map (fun v =>
                       if Version.id (VersionWithTags.version v) =? versionId
                       then VersionWithTags.mk
                              (withRating rating (VersionWithTags.version v))
                              (VersionWithTags.tags v) (VersionWithTags.noteCount v)
                       else v)
                    (SongWithVersions.versions song)))
          (songs state))
     (tags state)
     (selectedSong state)
     (match selectedVersion state with
      | Some v =>
          if Version.id (VersionWithTags.version v) =? versionId
          then Some (VersionWithTags.mk
                       (withRating rating (VersionWithTags.version v))
                       (VersionWithTags.tags v) (VersionWithTags.noteCount v))
          else Some v
      | None => None
      end)
     (notes state) (images state) (isLoading state) (error state)
     (playingVersionId state) (seekRequest state).

Definition updateVersionFormat (versionId : Z) (formatIndex : Z) (state : t) : t :=
  mk (map (fun song =>
             SongWithVersions.mk
               (SongWithVersions.song song)
               (map (fun v =>
                       if Version.id (VersionWithTags.version v) =? versionId
                       then VersionWithTags.mk
                              (withSelectedFormatIndex formatIndex
                                                       (VersionWithTags.version v))
                              (VersionWithTags.tags v) (VersionWithTags.noteCount v)
                       else v)
                    (SongWithVersions.versions song)))
          (songs state))
     (tags state)
     (selectedSong state)
     (match selectedVersion state with
      | Some v =>
          if Version.id (VersionWithTags.version v) =? versionId
          then Some (VersionWithTags.mk
                       (withSelectedFormatIndex formatIndex
                                                (VersionWithTags.version v))
                       (VersionWithTags.tags v) (VersionWithTags.noteCount v))
          else Some v
      | None => None
      end)
     (notes state) (images state) (isLoading state) (error state)
     (playingVersionId state) (seekRequest state).

End AppStore.

(* ================================================================== *)
(** ** The remaining [useDB] commands of [src/store/appStore.ts]

    [DB.t] holds the tables that the scanner, the upgrade and the cascade
    touch.  The commands below also need the [tags] table and the key
    generators of [songs], [notes] and [tags]; a session carries them next to
    the world. *)

Module Session.
Record t : Type := mk
  { world : World.t;
    tags : list Tag.t;
    tagsNextId : Z;
    songsNextId : Z;
    notesNextId : Z }.

Definition with_world (w : World.t) (s : t) : t :=
  mk w (tags s) (tagsNextId s) (songsNextId s) (notesNextId s).

Definition db (s : t) : DB.t := World.db (world s).
End Session.

Definition SM (A : Type) : Type := Session.t -> result A * Session.t.

Definition retS {A} (a : A) : SM A := fun s => (Ok a, s).

Definition bindS {A B} (m : SM A) (k : A -> SM B) : SM B :=
  fun s =>
    match m s with
    | (Ok a, s') => k a s'
    | (Err e, s') => (Err e, s')
    end.

(** A command that only needs the world. *)
Definition liftWorld {A} (m : M A) : SM A :=
  fun s =>
    let (r, w') := m (Session.world s) in
    (r, Session.with_world w' s).

(** A read of the store. *)
Definition readS {A} (q : DB.t -> A) : SM A :=
  fun s => (Ok (q (Session.db s)), s).

Notation "x <~ m ;; k" := (bindS m (fun x => k))
  (at level 61, m at next level, right associativity).

Module Commands.

(** [requestFolderAccess] of [src/lib/fileSystem.ts]: what
    [showDirectoryPicker] answers, an [AbortError] being a cancelled
    dialogue. *)
Definition requestFolderAccess (showDirectoryPicker : result FileSystemDirectoryHandle.t)
  : result (option FileSystemDirectoryHandle.t) :=
  match showDirectoryPicker with
  | Ok dirHandle => Ok (Some dirHandle)
  | Err name => if String.eqb name "AbortError" then Ok None else Err name
  end.

(** A directory handle as the [FileSystemHandle] that it also is; it is no
    entry of a scanned folder. *)
Definition asHandle (dirHandle : FileSystemDirectoryHandle.t) : FileSystemHandle.t :=
  FileSystemHandle.mk FileSystemHandle.directory
                      (FileSystemDirectoryHandle.name dirHandle) 0.

(** [db.songs.add(row)]: the key generator supplies the id. *)
Definition songs_add (row : Z -> Song.t) : SM Z :=
  fun s =>
    let d := Session.db s in
    let newId := Session.songsNextId s in
    (Ok newId,
     Session.mk
       (World.with_db
          (DB.mk (DB.songs d ++ [row newId]) (DB.versions d) (DB.versionsNextId d)
                 (DB.versionTags d) (DB.notes d) (DB.images d) (DB.fileHandles d))
          (Session.world s))
       (Session.tags s) (Session.tagsNextId s) (newId + 1) (Session.notesNextId s)).

(** [db.songs.get(id)] *)
Definition songs_get (id : Z) (d : DB.t) : option Song.t :=
  find (fun s => Song.id s =? id) (DB.songs d).

(** [db.songs.where('folderHandle').equals(handleId).first()] *)
Definition songs_firstByFolderHandle (handleId : string) (d : DB.t) : option Song.t :=
  find (fun s => String.eqb (Song.folderHandle s) handleId) (DB.songs d).

Definition addSongFolder (env : Env.t)
           (showDirectoryPicker : result FileSystemDirectoryHandle.t)
  : SM (option Song.t) :=
  picked <~ (fun s => (requestFolderAccess showDirectoryPicker, s)) ;;
  match picked with
  | None => retS None
  | Some dirHandle =>
      let folderName := FileSystemDirectoryHandle.name dirHandle in
      handleId <~ liftWorld (serializeHandle env (asHandle dirHandle)) ;;
      existing <~ readS (songs_firstByFolderHandle handleId) ;;
      match existing with
      | Some song => retS (Some song)
      | None =>
          createdAt <~ liftWorld (newDateISO env) ;;
          songId <~ songs_add (fun id => Song.mk id folderName handleId createdAt None) ;;
          _ <~ liftWorld (scanAndAddAudioFiles env dirHandle songId) ;;
          song <~ readS (songs_get songId) ;;
          retS song
      end
  end.

(** [db.songs.update(songId, { sortPreference })] *)
Definition updateSongSortPreference (songId : Z) (sortPreference : string) : M unit :=
  fun w =>
    let d := World.db w in
    (Ok tt,
     World.with_db
       (DB.mk (map (fun s => if Song.id s =? songId
                             then Song.mk (Song.id s) (Song.name s)
                                          (Song.folderHandle s) (Song.createdAt s)
                                          (Some sortPreference)
                             else s)
                   (DB.songs d))
              (DB.versions d) (DB.versionsNextId d) (DB.versionTags d)
              (DB.notes d) (DB.images d) (DB.fileHandles d))
       w).

(** [db.versions.update(versionId, { rating })] *)
Definition updateVersionRating (versionId : Z) (rating : option Z) : M unit :=
  versions_update versionId (withRating rating).

(** [db.tags.toArray()] *)
Definition getTags (s : Session.t) : list Tag.t := Session.tags s.

(** [db.tags.add(row)]: [name] carries a unique index, so a second tag of
    the same name is rejected; the key generator supplies the id. *)
Definition tags_add (row : Z -> Tag.t) : SM Z :=
  fun s =>
    let newId := Session.tagsNextId s in
    if existsb (fun t => String.eqb (Tag.name t) (Tag.name (row newId)))
               (Session.tags s)
    then (Err "ConstraintError", s)
    else (Ok newId,
          Session.mk (Session.world s) (Session.tags s ++ [row newId])
                     (newId + 1) (Session.songsNextId s) (Session.notesNextId s)).

Definition createTag (name color : string) : SM (option Tag.t) :=
  id <~ tags_add (fun id => Tag.mk id name color) ;;
  fun s => (Ok (Queries.tags_get id (Session.tags s)), s).

(** The order of the compound primary key [[versionId+tagId]]. *)
Definition vtBefore (a b : VersionTag.t) : bool :=
  (VersionTag.versionId a <? VersionTag.versionId b)
  || ((VersionTag.versionId a =? VersionTag.versionId b)
      && (VersionTag.tagId a <? VersionTag.tagId b)).

(** The place of a new row in a table kept in key order. *)
Fixpoint insertByKey (row : VersionTag.t) (rows : list VersionTag.t)
  : list VersionTag.t :=
  match rows with
  | [] => [row]
  | r :: rows' =>
      if vtBefore row r then row :: r :: rows' else r :: insertByKey row rows'
  end.

(** [db.versionTags.add(row)]: the pair is the primary key, a pair that is
    already linked is rejected. *)
Definition versionTags_add (row : VersionTag.t) : M unit :=
  fun w =>
    let d := World.db w in
    if existsb (vtMatches (VersionTag.versionId row) (VersionTag.tagId row))
               (DB.versionTags d)
    then (Err "ConstraintError", w)
    else (Ok tt,
          World.with_db
            (DB.mk (DB.songs d) (DB.versions d) (DB.versionsNextId d)
                   (insertByKey row (DB.versionTags d))
                   (DB.notes d) (DB.images d) (DB.fileHandles d))
            w).

Definition addTagToVersion (versionId tagId : Z) : M bool :=
  _ <- versionTags_add (VersionTag.mk versionId tagId) ;;
  ret true.

(** [db.versionTags.where({ versionId, tagId }).delete()] *)
Definition removeTagFromVersion (versionId tagId : Z) : M bool :=
  fun w =>
    let d := World.db w in
    (Ok true,
     World.with_db
       (DB.mk (DB.songs d) (DB.versions d) (DB.versionsNextId d)
              (filter (fun vt => negb (vtMatches versionId tagId vt))
                      (DB.versionTags d))
              (DB.notes d) (DB.images d) (DB.fileHandles d))
       w).

(** [db.notes.add(row)]: the key generator supplies the id. *)
Definition notes_add (row : Z -> Note.t) : SM Z :=
  fun s =>
    let d := Session.db s in
    let newId := Session.notesNextId s in
    (Ok newId,
     Session.mk
       (World.with_db
          (DB.mk (DB.songs d) (DB.versions d) (DB.versionsNextId d)
                 (DB.versionTags d) (DB.notes d ++ [row newId]) (DB.images d)
                 (DB.fileHandles d))
          (Session.world s))
       (Session.tags s) (Session.tagsNextId s) (Session.songsNextId s) (newId + 1)).

(** [db.notes.get(id)] *)
Definition notes_get (id : Z) (d : DB.t) : option Note.t :=
  find (fun n => Note.id n =? id) (DB.notes d).

(** The two dates of the row are two readings of the clock. *)
Definition createNote (env : Env.t) (versionId : Z) (content : string)
           (timestamp : option Q) : SM (option Note.t) :=
  createdAt <~ liftWorld (newDateISO env) ;;
  updatedAt <~ liftWorld (newDateISO env) ;;
  id <~ notes_add (fun id => Note.mk id versionId content timestamp
                                     createdAt updatedAt) ;;
  readS (notes_get id).

(** [db.notes.update(noteId, { content, updatedAt })] *)
Definition updateNote (env : Env.t) (noteId : Z) (content : string) : M bool :=
  updatedAt <- newDateISO env ;;
  fun w =>
    let d := World.db w in
    (Ok true,
     World.with_db
       (DB.mk (DB.songs d) (DB.versions d) (DB.versionsNextId d)
              (DB.versionTags d)
              (map (fun n => if Note.id n =? noteId
                             then Note.mk (Note.id n) (Note.versionId n) content
                                          (Note.timestamp n) (Note.createdAt n)
                                          updatedAt
                             else n)
                   (DB.notes d))
              (DB.images d) (DB.fileHandles d))
       w).

(** [db.notes.delete(noteId)] *)
Definition deleteNote (noteId : Z) : M bool :=
  fun w =>
    let d := World.db w in
    (Ok true,
     World.with_db
       (DB.mk (DB.songs d) (DB.versions d) (DB.versionsNextId d)
              (DB.versionTags d)
              (filter (fun n => negb (Note.id n =? noteId)) (DB.notes d))
              (DB.images d) (DB.fileHandles d))
       w).

End Commands.

(* ================================================================== *)
(** ** Display helpers

    [formatFileSize] of [src/lib/formatUtils.ts], and the [m:ss] rendering
    that [RichTextEditor] ([formatTimestamp]), [SongBrowser]
    ([formatDuration]) and [AudioPlayer] ([formatTime]) each define with the
    same body. *)

Module Display.

Local Open Scope Q_scope.

(** [x.toFixed(0)] and [x.toFixed(1)]: the integer [n] nearest to
    [x * 10^f], the larger one of two, printed with [f] digits after the
    point; a negative [x] prints as ["-"] followed by [-x]. *)
Definition toFixed0 (x : Q) : string :=
  if Qlt_bool x 0
  then String.append "-" (numberToString (Qfloor (- x + (1 # 2))))
  else numberToString (Qfloor (x + (1 # 2))).

Definition toFixed1 (x : Q) : string :=
  let digits (y : Q) : string :=
    let n := Qfloor (y * 10 + (1 # 2)) in
    String.append (numberToString (n / 10)%Z)
                  (String.append "." (numberToString (n mod 10)%Z)) in
  if Qlt_bool x 0 then String.append "-" (digits (- x)) else digits x.

Definition formatFileSize (bytes : Z) : string :=
  let mb := inject_Z bytes / inject_Z (1024 * 1024) in
  if Qlt_bool mb 1
  then String.append (toFixed0 (inject_Z bytes / 1024)) " KB"
  else String.append (toFixed1 mb) " MB".

(** [x % y] on numbers: the remainder has the sign of [x]. *)
Definition Qtruncate (q : Q) : Z :=
  if Qlt_bool q 0 then Qceiling q else Qfloor q.

Definition remainder (x y : Q) : Q :=
  x - y * inject_Z (Qtruncate (x / y)).

(** [s.padStart(2, '0')] *)
Definition padStart2 (s : string) : string :=
  match s with
  | EmptyString => "00"
  | String a EmptyString => String "0" (String a EmptyString)
  | _ => s
  end%string.

Definition formatTimestamp (seconds : Q) : string :=
  let mins := Qfloor (seconds / 60) in
  let secs := Qfloor (remainder seconds 60) in
  String.append (numberToString mins)
                (String.append ":" (padStart2 (numberToString secs))).

End Display.

(* ================================================================== *)
(** ** The handlers of the components

    A handler runs a [useDB] command and then an action of the store; what a
    [catch] block does is only logging, so a command that throws leaves the
    store as it was. *)

Module UI.
Record t : Type := mk
  { session : Session.t;
    store : AppStore.t }.
End UI.

(** A write that is a function of the store's tables. *)
Definition onDB (f : DB.t -> DB.t) (s : Session.t) : Session.t :=
  Session.with_world (World.with_db (f (Session.db s)) (Session.world s)) s.

(** [editor.isEmpty] and [editor.getHTML()] *)
Module Editor.
Record t : Type := mk
  { isEmpty : bool;
    getHTML : string }.
End Editor.

Module Components.

(** *** [App] *)

Definition loadData (ui : UI.t) : UI.t :=
  let s := UI.session ui in
  let loadedSongs := Queries.getSongsWithVersions (Session.tags s) (Session.db s) in
  let loadedTags := Commands.getTags s in
  UI.mk s (AppStore.setTags loadedTags (AppStore.setSongs loadedSongs (UI.store ui))).

(** *** [SongBrowser] *)

Definition handleSelectVersion (song : SongWithVersions.t)
           (version : VersionWithTags.t) (ui : UI.t) : UI.t :=
  let d := Session.db (UI.session ui) in
  let versionId := Version.id (VersionWithTags.version version) in
  UI.mk (UI.session ui)
        (AppStore.setImages (getImages versionId d)
           (AppStore.setNotes (getNotes versionId d)
              (AppStore.setSelectedVersion (Some version)
                 (AppStore.setSelectedSong (Some song) (UI.store ui))))).

(** [confirmed] is the answer to the [confirm] dialogue.  A rejected
    [removeSong] is caught and logged, before the store's action. *)
Definition handleDeleteSong (confirmed : bool) (songId : Z) (ui : UI.t) : UI.t :=
  if confirmed
  then
    match UseDB.removeSong songId (Session.db (UI.session ui)) with
    | Ok d' =>
        UI.mk (onDB (fun _ => d') (UI.session ui))
              (AppStore.removeSong songId (UI.store ui))
    | Err _ => ui
    end
  else ui.

(** *** [RatingSelector] *)

Definition handleRating (versionId : Z) (currentRating : option Z) (rating : Z)
           (ui : UI.t) : UI.t :=
  let newRating :=
    match currentRating with
    | Some current => if rating =? current then None else Some rating
    | None => Some rating
    end in
  match liftWorld (Commands.updateVersionRating versionId newRating) (UI.session ui) with
  | (Ok _, s') =>
      UI.mk s' (AppStore.updateVersionRating versionId newRating (UI.store ui))
  | (Err _, s') => UI.mk s' (UI.store ui)
  end.

(** *** [VersionView]: rendered only while a version is selected *)

Definition handleFormatChange (formatIndex : Z) (ui : UI.t) : UI.t :=
  match AppStore.selectedVersion (UI.store ui) with
  | None => ui
  | Some selectedVersion =>
      let versionId := Version.id (VersionWithTags.version selectedVersion) in
      match liftWorld (UseDB.updateVersionFormat versionId formatIndex)
                      (UI.session ui) with
      | (Ok _, s') =>
          UI.mk s' (AppStore.updateVersionFormat versionId formatIndex (UI.store ui))
      | (Err _, s') => UI.mk s' (UI.store ui)
      end
  end.

(** *** [TagManager] *)

Definition refreshSongs (s : Session.t) (state : AppStore.t) : AppStore.t :=
  AppStore.setSongs
    (Queries.getSongsWithVersions (Session.tags s) (Session.db s)) state.

Definition handleAddTag (versionId tagId : Z) (ui : UI.t) : UI.t :=
  match liftWorld (Commands.addTagToVersion versionId tagId) (UI.session ui) with
  | (Ok _, s') => UI.mk s' (refreshSongs s' (UI.store ui))
  | (Err _, s') => UI.mk s' (UI.store ui)
  end.

Definition handleRemoveTag (versionId tagId : Z) (ui : UI.t) : UI.t :=
  match liftWorld (Commands.removeTagFromVersion versionId tagId) (UI.session ui) with
  | (Ok _, s') => UI.mk s' (refreshSongs s' (UI.store ui))
  | (Err _, s') => UI.mk s' (UI.store ui)
  end.

(** *** [RichTextEditor] *)

(** What follows the longest run of digits at the head of [s]. *)
Fixpoint afterDigits (s : string) : string :=
  match s with
  | String a s' => if isDigit a then afterDigits s' else s
  | EmptyString => EmptyString
  end.

(** [(\d+):(\d+)] matched at the head of [s]: both runs of digits are
    taken as long as they are, and neither may be empty. *)
Definition matchMinutesSeconds (s : string) : option (string * string) :=
  match digitsPrefix s, afterDigits s with
  | String m ms, String ":" r =>
      match digitsPrefix r with
      | String x xs => Some (String m ms, String x xs)
      | EmptyString => None
      end
  | _, _ => None
  end.

(** [content.match(/@(\d+):(\d+)/)]: the two groups of the leftmost match. *)
Fixpoint matchTimestamp (content : string) : option (string * string) :=
  match content with
  | EmptyString => None
  | String a rest =>
      if Ascii.eqb a "@"
      then match matchMinutesSeconds rest with
           | Some groups => Some groups
           | None => matchTimestamp rest
           end
      else matchTimestamp rest
  end.

(** The [timestamp] that [handleCreateNote] reads off the content.  The
    groups are runs of digits, which [parseInt] always reads. *)
Definition contentTimestamp (content : string) : option Z :=
  match matchTimestamp content with
  | Some (m, s) =>
      match parseInt m, parseInt s with
      | Some minutes, Some seconds => Some (minutes * 60 + seconds)
      | _, _ => None
      end
  | None => None
  end.

Definition handleCreateNote (env : Env.t) (versionId : Z)
           (editor : option Editor.t) (ui : UI.t) : UI.t :=
  match editor with
  | None => ui
  | Some e =>
      if Editor.isEmpty e then ui
      else
        let content := Editor.getHTML e in
        let timestamp := option_map inject_Z (contentTimestamp content) in
        match Commands.createNote env versionId content timestamp (UI.session ui) with
        | (Ok (Some note), s') =>
            UI.mk s' (AppStore.setNotes (AppStore.notes (UI.store ui) ++ [note])
                                        (UI.store ui))
        | (Ok None, s') => UI.mk s' (UI.store ui)
        | (Err _, s') => UI.mk s' (UI.store ui)
        end
  end.

(** [notes.map(n => n.id === noteId ? { ...n, content, updatedAt: new
    Date().toISOString() } : n)]: the clock is read for each note that is
    patched. *)
Fixpoint patchNotes (env : Env.t) (noteId : Z) (content : string)
         (notes : list Note.t) : M (list Note.t) :=
  match notes with
  | [] => ret []
  | n :: rest =>
      n' <- (if Note.id n =? noteId
             then updatedAt <- newDateISO env ;;
                  ret (Note.mk (Note.id n) (Note.versionId n) content
                               (Note.timestamp n) (Note.createdAt n) updatedAt)
             else ret n) ;;
      rest' <- patchNotes env noteId content rest ;;
      ret (n' :: rest')
  end.

Definition handleUpdateNote (env : Env.t) (noteId : Z)
           (editor : option Editor.t) (ui : UI.t) : UI.t :=
  match editor with
  | None => ui
  | Some e =>
      if Editor.isEmpty e then ui
      else
        let content := Editor.getHTML e in
        match liftWorld
                (_ <- Commands.updateNote env noteId content ;;
                 patchNotes env noteId content (AppStore.notes (UI.store ui)))
                (UI.session ui) with
        | (Ok updatedNotes, s') =>
            UI.mk s' (AppStore.setNotes updatedNotes (UI.store ui))
        | (Err _, s') => UI.mk s' (UI.store ui)
        end
  end.

Definition handleDeleteNote (confirmed : bool) (noteId : Z) (ui : UI.t) : UI.t :=
  if confirmed
  then
    match liftWorld (Commands.deleteNote noteId) (UI.session ui) with
    | (Ok _, s') =>
        UI.mk s' (AppStore.setNotes
                    (filter (fun n => negb (Note.id n =? noteId))
                            (AppStore.notes (UI.store ui)))
                    (UI.store ui))
    | (Err _, s') => UI.mk s' (UI.store ui)
    end
  else ui.

(** The comparator of the list of notes:
    [new Date(b.createdAt).getTime() - new Date(a.createdAt).getTime()],
    [None] being [NaN]. *)
Definition compareNotes (env : Env.t) (a b : Note.t) : option Z :=
  match Env.getTime env (Note.createdAt b), Env.getTime env (Note.createdAt a) with
  | Some tb, Some ta => Some (tb - ta)
  | _, _ => None
  end.

(** [a] has to come before [b]: the comparator is negative.  [NaN] counts
    as [0]. *)
Definition sortsBefore (env : Env.t) (a b : Note.t) : bool :=
  match compareNotes env a b with
  | Some z => z <? 0
  | None => false
  end.

Fixpoint insertNote (env : Env.t) (x : Note.t) (sorted : list Note.t)
  : list Note.t :=
  match sorted with
  | [] => [x]
  | y :: rest =>
      if sortsBefore env x y then x :: y :: rest
      else y :: insertNote env x rest
  end.

(** [notes.sort(compare)]: a stable sort, here by insertion from the left.
    Where the comparator is not consistent (a date that does not parse
    among dates that do) the order that [sort] leaves is up to the engine;
    it is a rearrangement of the array in every case. *)
Definition sortNotes (env : Env.t) (notes : list Note.t) : list Note.t :=
  fold_left (fun sorted x => insertNote env x sorted) notes [].

(** Rendering the list: [notes.sort(...)] sorts the array of the store in
    place, newest first, before it is mapped to elements.  Every handler
    runs on what the last render left. *)
Definition render (env : Env.t) (ui : UI.t) : UI.t :=
  UI.mk (UI.session ui)
        (AppStore.setNotes (sortNotes env (AppStore.notes (UI.store ui)))
                           (UI.store ui)).

(** *** [AudioPlayer] *)

(** The guard of the seek effect: [seekRequest.time >= 0 &&
    seekRequest.time <= duration]. *)
Definition seekAccepted (time duration : Q) : bool :=
  Qle_bool 0 time && Qle_bool time duration.

End Components.

(* ================================================================== *)
(** * Properties *)

Example getBaseFileName_take1 : getBaseFileName "take1.mp3" = "take1".
Proof. reflexivity. Qed.

Example getBaseFileName_hidden : getBaseFileName ".hidden" = ".hidden".
Proof. reflexivity. Qed.

Example getBaseFileName_dots : getBaseFileName "a.b.c.wav" = "a.b.c".
Proof. reflexivity. Qed.

Example parseInt_examples :
  parseInt "12" = Some 12 /\ parseInt " -7x" = Some (-7) /\ parseInt "x1" = None.
Proof. repeat split. Qed.

Example split_key : split "1_my_song" "_" = ["1"; "my"; "song"].
Proof. reflexivity. Qed.

(* ================================================================== *)
(** ** The Format Policy Engine: smallest format *)

Section FindSmallest.

Definition sizes (formats : list VersionFormat.t) : list Z :=
  map VersionFormat.fileSize formats.

Definition sizeAt (formats : list VersionFormat.t) (j : nat) : Z :=
  nth j (sizes formats) 0.

(** What the scan has established once the entries of [pre] are behind it. *)
Definition leftmostMin (formats : list VersionFormat.t) (r : nat) : Prop :=
  (r < List.length formats)%nat /\
  (forall j, (j < List.length formats)%nat -> sizeAt formats r <= sizeAt formats j) /\
  (forall j, (j < r)%nat -> sizeAt formats r < sizeAt formats j).

Lemma sizeAt_app_l pre rest j :
  (j < List.length pre)%nat -> sizeAt (pre ++ rest) j = sizeAt pre j.
Proof.
  intros Hj. unfold sizeAt, sizes. rewrite map_app.
  apply app_nth1. now rewrite length_map.
Qed.

Lemma sizeAt_app_here pre f rest :
  sizeAt (pre ++ f :: rest) (List.length pre) = VersionFormat.fileSize f.
Proof.
  unfold sizeAt, sizes. rewrite map_app. simpl.
  rewrite app_nth2; rewrite length_map; [|lia].
  now rewrite Nat.sub_diag.
Qed.

Lemma leftmostMin_snoc_keep pre f r :
  leftmostMin pre r ->
  sizeAt pre r <= VersionFormat.fileSize f ->
  leftmostMin (pre ++ [f]) r.
Proof.
  intros (Hr & Hmin & Hlt) Hle. unfold leftmostMin.
  rewrite length_app; simpl.
  split; [lia|]. split.
  - intros j Hj. rewrite (sizeAt_app_l pre [f] Hr).
    destruct (Nat.eq_dec j (List.length pre)) as [->|Hne].
    + now rewrite sizeAt_app_here.
    + rewrite sizeAt_app_l by lia. apply Hmin; lia.
  - intros j Hj. rewrite (sizeAt_app_l pre [f] Hr).
    rewrite sizeAt_app_l by lia. now apply Hlt.
Qed.

Lemma leftmostMin_snoc_new pre f r :
  leftmostMin pre r ->
  VersionFormat.fileSize f < sizeAt pre r ->
  leftmostMin (pre ++ [f]) (List.length pre).
Proof.
  intros (Hr & Hmin & Hlt) Hnew. unfold leftmostMin.
  rewrite length_app; simpl. rewrite sizeAt_app_here.
  split; [lia|]. split.
  - intros j Hj.
    destruct (Nat.eq_dec j (List.length pre)) as [->|Hne].
    + rewrite sizeAt_app_here. lia.
    + rewrite sizeAt_app_l by lia.
      specialize (Hmin j ltac:(lia)). lia.
  - intros j Hj. rewrite sizeAt_app_l by lia.
    specialize (Hmin j Hj). lia.
Qed.

Lemma findSmallestLoop_leftmostMin rest :
  forall pre si,
    leftmostMin pre si ->
    leftmostMin (pre ++ rest)
      (findSmallestLoop rest (List.length pre) si (sizeAt pre si)).
Proof.
  induction rest as [|f rest IH]; intros pre si Hinv; simpl.
  - now rewrite app_nil_r.
  - replace (pre ++ f :: rest) with ((pre ++ [f]) ++ rest)
      by now rewrite <- app_assoc.
    destruct (Z.ltb_spec (VersionFormat.fileSize f) (sizeAt pre si)) as [Hlt|Hge].
    + pose proof (leftmostMin_snoc_new f Hinv Hlt) as Hnew.
      specialize (IH _ _ Hnew).
      rewrite length_app, sizeAt_app_here in IH. simpl in IH.
      now rewrite Nat.add_1_r in IH.
    + pose proof (leftmostMin_snoc_keep f Hinv Hge) as Hkeep.
      specialize (IH _ _ Hkeep).
      rewrite length_app in IH. simpl in IH.
      rewrite Nat.add_1_r in IH.
      destruct Hinv as (Hsi & _).
      now rewrite (sizeAt_app_l pre [f] Hsi) in IH.
Qed.

Lemma findSmallestFormat_leftmostMin formats :
  formats <> [] -> leftmostMin formats (findSmallestFormat formats).
Proof.
  destruct formats as [|f0 rest]; [congruence|intros _].
  unfold findSmallestFormat.
  assert (Hbase : leftmostMin [f0] 0).
  { unfold leftmostMin; simpl. split; [lia|]. split.
    - intros j Hj. assert (j = 0)%nat as -> by lia. lia.
    - intros j Hj; lia. }
  apply (findSmallestLoop_leftmostMin rest) in Hbase.
  exact Hbase.
Qed.

Lemma findSmallestFormat_lt_length formats :
  formats <> [] -> (findSmallestFormat formats < List.length formats)%nat.
Proof. intros H. now destruct (findSmallestFormat_leftmostMin H). Qed.

End FindSmallest.

(** C4.  For every non-empty formats list the selected index is in range,
    it holds a minimum [fileSize], and every earlier Format is strictly
    larger, so among equal minima the first one is chosen; sizes
    [500000, 300000, 300000] select index 1. *)
Theorem findSmallestFormat_first_minimum :
  forall formats : list VersionFormat.t,
    formats <> [] ->
    ((findSmallestFormat formats < List.length formats)%nat /\
     (forall j, (j < List.length formats)%nat ->
                sizeAt formats (findSmallestFormat formats) <= sizeAt formats j) /\
     (forall j, (j < findSmallestFormat formats)%nat ->
                sizeAt formats (findSmallestFormat formats) < sizeAt formats j)) /\
    (sizes formats = [500000; 300000; 300000] ->
     findSmallestFormat formats = 1%nat).
Proof.
  intros formats Hne.
  pose proof (findSmallestFormat_leftmostMin Hne) as Hmin.
  split; [exact Hmin|].
  intros Hsizes.
  destruct Hmin as (Hr & Hle & Hlt).
  assert (Hlen : List.length formats = 3%nat).
  { unfold sizes in Hsizes.
    rewrite <- (length_map VersionFormat.fileSize), Hsizes. reflexivity. }
  remember (findSmallestFormat formats) as r eqn:Er.
  unfold sizeAt in Hle, Hlt. rewrite Hsizes in Hle, Hlt.
  destruct r as [|[|[|r]]]; try lia; try reflexivity.
  - specialize (Hle 1%nat ltac:(lia)). simpl in Hle. lia.
  - specialize (Hlt 1%nat ltac:(lia)). simpl in Hlt. lia.
Qed.

Definition fmt (size : Z) (duration : option float) : VersionFormat.t :=
  VersionFormat.mk "h" "take1.mp3" "mp3" None duration size "2024-01-01T00:00:00.000Z".

Lemma findSmallestFormat_first_minimum_witness :
  findSmallestFormat [fmt 500000 None; fmt 300000 None; fmt 300000 None] = 1%nat.
Proof.
  apply (findSmallestFormat_first_minimum
           (formats := [fmt 500000 None; fmt 300000 None; fmt 300000 None])).
  - discriminate.
  - reflexivity.
Defined.

(* ================================================================== *)
(** ** The Format Policy Engine: duration mismatch *)

Section RationalOrder.

Local Open Scope Q_scope.

Lemma Qlt_bool_iff (x y : Q) : Qlt_bool x y = true <-> x < y.
Proof.
  unfold Qlt_bool. rewrite negb_true_iff.
  split.
  - intros H. apply Qnot_le_lt. intros Hle.
    apply Qle_bool_iff in Hle. congruence.
  - intros H. destruct (Qle_bool y x) eqn:E; [|reflexivity].
    apply Qle_bool_iff in E. exfalso. exact (Qlt_not_le _ _ H E).
Qed.

Lemma Qlt_bool_false_iff (x y : Q) : Qlt_bool x y = false <-> y <= x.
Proof.
  unfold Qlt_bool. rewrite negb_false_iff. apply Qle_bool_iff.
Qed.

End RationalOrder.

(** *** The order of the doubles *)

Section DoubleOrder.

(** Where a double that is not NaN stands among the doubles: its class
    (infinities outermost, zeros in the middle), then exponent and mantissa,
    mirrored for the negative ones. *)
Definition rank (f : spec_float) : Z * Z * Z :=
  match f with
  | S754_zero _ => (0, 0, 0)
  | S754_infinity true => (-2, 0, 0)
  | S754_infinity false => (2, 0, 0)
  | S754_nan => (0, 0, 0)
  | S754_finite true m e => (-1, - e, Zneg m)
  | S754_finite false m e => (1, e, Zpos m)
  end.

Definition rankCompare (a b : Z * Z * Z) : comparison :=
  match a, b with
  | (a1, a2, a3), (b1, b2, b3) =>
      match a1 ?= b1 with
      | Eq => match a2 ?= b2 with
              | Eq => a3 ?= b3
              | c => c
              end
      | c => c
      end
  end.

Definition rankLe (a b : Z * Z * Z) : Prop :=
  match a, b with
  | (a1, a2, a3), (b1, b2, b3) =>
      a1 < b1 \/ (a1 = b1 /\ (a2 < b2 \/ (a2 = b2 /\ a3 <= b3)))
  end.

Definition rankLt (a b : Z * Z * Z) : Prop :=
  match a, b with
  | (a1, a2, a3), (b1, b2, b3) =>
      a1 < b1 \/ (a1 = b1 /\ (a2 < b2 \/ (a2 = b2 /\ a3 < b3)))
  end.

Lemma rankCompare_le (a b : Z * Z * Z) :
  rankCompare a b <> Gt <-> rankLe a b.
Proof.
  destruct a as [[a1 a2] a3], b as [[b1 b2] b3]. unfold rankCompare, rankLe.
  destruct (Z.compare_spec a1 b1); [|split; [lia|congruence]|split; [congruence|lia]].
  destruct (Z.compare_spec a2 b2); [|split; [lia|congruence]|split; [congruence|lia]].
  destruct (Z.compare_spec a3 b3); split; try lia; congruence.
Qed.

Lemma rankCompare_lt (a b : Z * Z * Z) :
  rankCompare a b = Lt <-> rankLt a b.
Proof.
  destruct a as [[a1 a2] a3], b as [[b1 b2] b3]. unfold rankCompare, rankLt.
  destruct (Z.compare_spec a1 b1); [|split; [lia|congruence]|split; [congruence|lia]].
  destruct (Z.compare_spec a2 b2); [|split; [lia|congruence]|split; [congruence|lia]].
  destruct (Z.compare_spec a3 b3); split; try lia; congruence.
Qed.

Lemma SFcompare_rank (x y : spec_float) :
  x <> S754_nan -> y <> S754_nan ->
  SFcompare x y = Some (rankCompare (rank x) (rank y)).
Proof.
  intros Hx Hy.
  destruct x as [sx|sx| |sx mx ex]; [| |congruence|];
    destruct y as [sy|sy| |sy my ey]; try congruence;
    try destruct sx; try destruct sy; try reflexivity.
  cbn [SFcompare rank rankCompare].
    change (-1 ?= -1) with Eq. cbv iota.
    rewrite Z.compare_opp, (Z.compare_antisym ex ey).
    destruct (ex ?= ey); reflexivity.
Qed.

Lemma is_nan_false (x : float) :
  is_nan x = false <-> Prim2SF x <> S754_nan.
Proof.
  unfold is_nan. split.
  - intros H E. apply negb_false_iff in H. rewrite FloatAxioms.eqb_spec, E in H. discriminate.
  - intros H. apply negb_false_iff. rewrite FloatAxioms.eqb_spec. unfold SFeqb.
    rewrite (SFcompare_rank H H).
    destruct (rank (Prim2SF x)) as [[a b] c]. unfold rankCompare.
    now rewrite !Z.compare_refl.
Qed.

Lemma leb_rank (x y : float) :
  is_nan x = false -> is_nan y = false ->
  ((x <=? y)%float = true <-> rankLe (rank (Prim2SF x)) (rank (Prim2SF y))).
Proof.
  intros Hx Hy. apply is_nan_false in Hx, Hy.
  rewrite FloatAxioms.leb_spec. unfold SFleb. rewrite (SFcompare_rank Hx Hy).
  pose proof (rankCompare_le (rank (Prim2SF x)) (rank (Prim2SF y))) as H.
  destruct (rankCompare _ _); split; intros H1; try reflexivity;
    try (apply H; discriminate); try discriminate.
  exfalso. now apply (proj2 H H1).
Qed.

Lemma ltb_rank (x y : float) :
  is_nan x = false -> is_nan y = false ->
  ((x <? y)%float = true <-> rankLt (rank (Prim2SF x)) (rank (Prim2SF y))).
Proof.
  intros Hx Hy. apply is_nan_false in Hx, Hy.
  rewrite FloatAxioms.ltb_spec. unfold SFltb. rewrite (SFcompare_rank Hx Hy).
  pose proof (rankCompare_lt (rank (Prim2SF x)) (rank (Prim2SF y))) as H.
  destruct (rankCompare _ _); split; intros H1; try reflexivity;
    try (now apply H); try discriminate;
    apply (proj2 H) in H1; discriminate.
Qed.

Lemma leb_refl (x : float) : is_nan x = false -> (x <=? x)%float = true.
Proof.
  intros Hx. apply (@leb_rank _ _ Hx Hx).
  destruct (rank (Prim2SF x)) as [[a b] c]. unfold rankLe. lia.
Qed.

Lemma leb_trans (x y z : float) :
  is_nan x = false -> is_nan y = false -> is_nan z = false ->
  (x <=? y)%float = true -> (y <=? z)%float = true -> (x <=? z)%float = true.
Proof.
  intros Hx Hy Hz Hxy Hyz.
  apply (@leb_rank _ _ Hx Hy) in Hxy. apply (@leb_rank _ _ Hy Hz) in Hyz.
  apply (@leb_rank _ _ Hx Hz).
  destruct (rank (Prim2SF x)) as [[a1 a2] a3], (rank (Prim2SF y)) as [[b1 b2] b3],
           (rank (Prim2SF z)) as [[c1 c2] c3].
  unfold rankLe in *. lia.
Qed.

Lemma ltb_leb (x y : float) :
  is_nan x = false -> is_nan y = false ->
  (x <? y)%float = true -> (x <=? y)%float = true.
Proof.
  intros Hx Hy H. apply (@ltb_rank _ _ Hx Hy) in H. apply (@leb_rank _ _ Hx Hy).
  destruct (rank (Prim2SF x)) as [[a1 a2] a3], (rank (Prim2SF y)) as [[b1 b2] b3].
  unfold rankLe, rankLt in *. lia.
Qed.

Lemma not_ltb_leb (x y : float) :
  is_nan x = false -> is_nan y = false ->
  (x <? y)%float = false -> (y <=? x)%float = true.
Proof.
  intros Hx Hy H. apply (@leb_rank _ _ Hy Hx).
  assert (Hn : ~ rankLt (rank (Prim2SF x)) (rank (Prim2SF y))).
  { intros Hlt. apply (@ltb_rank _ _ Hx Hy) in Hlt. congruence. }
  destruct (rank (Prim2SF x)) as [[a1 a2] a3], (rank (Prim2SF y)) as [[b1 b2] b3].
  unfold rankLe, rankLt in *. lia.
Qed.

(** Two zeros compare equal, whatever their signs. *)
Lemma zeros_leb (x y : float) :
  is_zero x = true -> is_zero y = true -> (x <=? y)%float = true.
Proof.
  unfold is_zero. rewrite !FloatAxioms.eqb_spec, FloatAxioms.leb_spec. unfold SFeqb, SFleb.
  change (Prim2SF PrimFloat.zero) with (S754_zero false).
  destruct (Prim2SF x) as [sx|sx| |sx mx ex], (Prim2SF y) as [sy|sy| |sy my ey];
    try destruct sx; try destruct sy; simpl; congruence.
Qed.

End DoubleOrder.

(** *** [Math.max] and [Math.min] *)

Section MaxMin.

Lemma signed_zero_is_zero (x : float) :
  isPositiveZero x = true \/ isNegativeZero x = true -> is_zero x = true.
Proof.
  unfold isPositiveZero, isNegativeZero, is_zero.
  rewrite classify_spec, FloatAxioms.eqb_spec.
  unfold SF64classify, SFclassify.
  destruct (Prim2SF x) as [s|s| |s m e]; try destruct s;
    try (destruct (Z.eqb _ _)); intros [H|H]; try discriminate; reflexivity.
Qed.

Lemma maxStep_spec (h x : float) :
  is_nan h = false -> is_nan x = false ->
  (maxStep h x = h \/ maxStep h x = x) /\
  (h <=? maxStep h x)%float = true /\
  (x <=? maxStep h x)%float = true.
Proof.
  intros Hh Hx. unfold maxStep. rewrite Hh, Hx. cbn [orb].
  destruct (h <? x)%float eqn:Elt.
  - split; [now right|]. split; [now apply ltb_leb|now apply leb_refl].
  - destruct (isNegativeZero h && isPositiveZero x) eqn:Ez.
    + apply andb_true_iff in Ez. destruct Ez as (Zh & Zx).
      split; [now right|]. split; [|now apply leb_refl].
      apply zeros_leb; apply signed_zero_is_zero; auto.
    + split; [now left|]. split; [now apply leb_refl|now apply not_ltb_leb].
Qed.

Lemma minStep_spec (l x : float) :
  is_nan l = false -> is_nan x = false ->
  (minStep l x = l \/ minStep l x = x) /\
  (minStep l x <=? l)%float = true /\
  (minStep l x <=? x)%float = true.
Proof.
  intros Hl Hx. unfold minStep. rewrite Hl, Hx. cbn [orb].
  destruct (x <? l)%float eqn:Elt.
  - split; [now right|]. split; [now apply ltb_leb|now apply leb_refl].
  - destruct (isPositiveZero l && isNegativeZero x) eqn:Ez.
    + apply andb_true_iff in Ez. destruct Ez as (Zl & Zx).
      split; [now right|]. split; [|now apply leb_refl].
      apply zeros_leb; apply signed_zero_is_zero; auto.
    + split; [now left|]. split; [now apply leb_refl|now apply not_ltb_leb].
Qed.

Lemma Math_max_upper (ds : list float) :
  forall d,
    (forall x, In x (d :: ds) -> is_nan x = false) ->
    In (Math_max d ds) (d :: ds) /\
    (forall x, In x (d :: ds) -> (x <=? Math_max d ds)%float = true).
Proof.
  induction ds as [|y ds IH]; intros d Hnan; unfold Math_max; cbn [fold_left].
  - split; [now left|]. intros x [<-|[]]. apply leb_refl. apply Hnan. now left.
  - fold (Math_max (maxStep d y) ds).
    assert (Hd : is_nan d = false) by (apply Hnan; now left).
    assert (Hy : is_nan y = false) by (apply Hnan; right; now left).
    destruct (@maxStep_spec d y Hd Hy) as (Hpick & Hdm & Hym).
    assert (Hm : is_nan (maxStep d y) = false) by (destruct Hpick as [->| ->]; assumption).
    assert (Hnan' : forall x, In x (maxStep d y :: ds) -> is_nan x = false).
    { intros x [<-|Hx]; [exact Hm|]. apply Hnan. right. now right. }
    destruct (IH _ Hnan') as (Hin & Hub). split.
    + destruct Hin as [Hin|Hin]; [|right; now right].
      rewrite <- Hin. destruct Hpick as [->| ->]; [now left|right; now left].
    + assert (Hr : is_nan (Math_max (maxStep d y) ds) = false).
      { apply Hnan'. exact Hin. }
      intros x [<-|[<-|Hx]].
      * apply leb_trans with (y := maxStep d y); auto. apply Hub. now left.
      * apply leb_trans with (y := maxStep d y); auto. apply Hub. now left.
      * apply Hub. now right.
Qed.

Lemma Math_min_lower (ds : list float) :
  forall d,
    (forall x, In x (d :: ds) -> is_nan x = false) ->
    In (Math_min d ds) (d :: ds) /\
    (forall x, In x (d :: ds) -> (Math_min d ds <=? x)%float = true).
Proof.
  induction ds as [|y ds IH]; intros d Hnan; unfold Math_min; cbn [fold_left].
  - split; [now left|]. intros x [<-|[]]. apply leb_refl. apply Hnan. now left.
  - fold (Math_min (minStep d y) ds).
    assert (Hd : is_nan d = false) by (apply Hnan; now left).
    assert (Hy : is_nan y = false) by (apply Hnan; right; now left).
    destruct (@minStep_spec d y Hd Hy) as (Hpick & Hdm & Hym).
    assert (Hm : is_nan (minStep d y) = false) by (destruct Hpick as [->| ->]; assumption).
    assert (Hnan' : forall x, In x (minStep d y :: ds) -> is_nan x = false).
    { intros x [<-|Hx]; [exact Hm|]. apply Hnan. right. now right. }
    destruct (IH _ Hnan') as (Hin & Hlb). split.
    + destruct Hin as [Hin|Hin]; [|right; now right].
      rewrite <- Hin. destruct Hpick as [->| ->]; [now left|right; now left].
    + assert (Hr : is_nan (Math_min (minStep d y) ds) = false).
      { apply Hnan'. exact Hin. }
      intros x [<-|[<-|Hx]].
      * apply leb_trans with (y := minStep d y); auto. apply Hlb. now left.
      * apply leb_trans with (y := minStep d y); auto. apply Hlb. now left.
      * apply Hlb. now right.
Qed.

(** [NaN] among the arguments makes the result [NaN]. *)
Lemma Math_max_nan (ds : list float) :
  forall d, (exists x, In x (d :: ds) /\ is_nan x = true) ->
            is_nan (Math_max d ds) = true.
Proof.
  assert (Hstick : forall l, fold_left maxStep l nan = nan).
  { induction l as [|y l IHl]; [reflexivity|]. cbn [fold_left]. exact IHl. }
  assert (Hprop : forall l d, is_nan d = true -> is_nan (fold_left maxStep l d) = true).
  { induction l as [|y l IHl]; intros d Hd; cbn [fold_left]; [exact Hd|].
    apply IHl. unfold maxStep. now rewrite Hd. }
  induction ds as [|y ds IH]; intros d (x & Hin & Hx); unfold Math_max; cbn [fold_left].
  - destruct Hin as [<-|[]]. exact Hx.
  - destruct (is_nan d) eqn:Hd; [apply Hprop; unfold maxStep; now rewrite Hd|].
    destruct Hin as [<-|[<-|Hin]]; [congruence| |].
    + apply Hprop. unfold maxStep. rewrite Hx, orb_true_r. reflexivity.
    + apply (IH (maxStep d y)). exists x. split; [now right|exact Hx].
Qed.

End MaxMin.

Section DurationMismatch.

Lemma is_nan_true (x : float) : is_nan x = true -> Prim2SF x = S754_nan.
Proof.
  intros H. destruct (Prim2SF x) eqn:E; try reflexivity;
    assert (Hn : is_nan x = false) by (apply is_nan_false; rewrite E; discriminate);
    congruence.
Qed.

(** With a [NaN] for the largest duration the variance is [NaN], which is
    not greater than anything. *)
Lemma varianceExceeds_nan (mx mn : float) :
  is_nan mx = true -> varianceExceeds mx mn = false.
Proof.
  intros H. apply is_nan_true in H. unfold varianceExceeds. cbv zeta.
  rewrite FloatAxioms.ltb_spec, div_spec, sub_spec, H.
  unfold SFltb, SF64div, SF64sub, SFsub, SFdiv, SFcompare.
  now destruct (Prim2SF fivePercent).
Qed.

Lemma knownDurations_length (formats : list VersionFormat.t) :
  (List.length (knownDurations formats) <= List.length formats)%nat.
Proof.
  induction formats as [|f fs IH]; simpl; [lia|].
  rewrite length_app. destruct (VersionFormat.duration f); simpl; lia.
Qed.

End DurationMismatch.

(** C5.  [hasDurationMismatch] is false when fewer than two formats have a
    known duration.  Otherwise, with [mx] and [mn] the largest and smallest
    known durations, it is true exactly when [(mx - mn) / mx > 0.05], the
    subtraction, the division and the comparison being those of doubles;
    a [NaN] among the known durations makes it false.  Durations [100, 94]
    give true, durations [100, 96] give false. *)
Theorem checkDurationMismatch_spec :
  forall formats : list VersionFormat.t,
    ((List.length (knownDurations formats) < 2)%nat ->
     checkDurationMismatch formats = false) /\
    ((2 <= List.length (knownDurations formats))%nat ->
     ((exists d, In d (knownDurations formats) /\ is_nan d = true) ->
      checkDurationMismatch formats = false) /\
     ((forall d, In d (knownDurations formats) -> is_nan d = false) ->
      exists mx mn : float,
        In mx (knownDurations formats) /\
        In mn (knownDurations formats) /\
        (forall d, In d (knownDurations formats) ->
                   (mn <=? d)%float = true /\ (d <=? mx)%float = true) /\
        checkDurationMismatch formats
        = (0x1.999999999999ap-5 <? (mx - mn) / mx)%float)) /\
    (map VersionFormat.duration formats = [Some 100%float; Some 94%float] ->
     checkDurationMismatch formats = true) /\
    (map VersionFormat.duration formats = [Some 100%float; Some 96%float] ->
     checkDurationMismatch formats = false).
Proof.
  intros formats. split; [|split; [|split]].
  - intros Hlt. unfold checkDurationMismatch.
    destruct (List.length formats <? 2)%nat; [reflexivity|].
    apply Nat.ltb_lt in Hlt. now rewrite Hlt.
  - intros Hge.
    pose proof (knownDurations_length formats) as Hlen.
    unfold checkDurationMismatch.
    destruct (Nat.ltb_spec (List.length formats) 2) as [Hf|_]; [lia|].
    destruct (Nat.ltb_spec (List.length (knownDurations formats)) 2) as [Hd|_]; [lia|].
    destruct (knownDurations formats) as [|d ds] eqn:Eds; [simpl in Hge; lia|].
    cbv zeta. split.
    + intros Hnan. apply varianceExceeds_nan. now apply Math_max_nan.
    + intros Hnum.
      destruct (@Math_max_upper ds d Hnum) as (Hmaxin & Hmax).
      destruct (@Math_min_lower ds d Hnum) as (Hminin & Hmin).
      exists (Math_max d ds), (Math_min d ds).
      split; [exact Hmaxin|]. split; [exact Hminin|]. split.
      * intros x Hx. split; [now apply Hmin|now apply Hmax].
      * reflexivity.
  - intros Hd. destruct formats as [|f1 [|f2 [|f3 fs]]]; try discriminate.
    simpl in Hd. injection Hd as H1 H2.
    unfold checkDurationMismatch, knownDurations. simpl.
    rewrite H1, H2. reflexivity.
  - intros Hd. destruct formats as [|f1 [|f2 [|f3 fs]]]; try discriminate.
    simpl in Hd. injection Hd as H1 H2.
    unfold checkDurationMismatch, knownDurations. simpl.
    rewrite H1, H2. reflexivity.
Qed.

Example checkDurationMismatch_single :
  checkDurationMismatch [fmt 1 (Some 100%float); fmt 2 None] = false.
Proof. reflexivity. Qed.

(** Where rounding decides.  The doubles nearest to 60.013 and 57.01235
    differ by a little more than a twentieth of the larger one; the quotient
    of doubles is the double [0.05] itself, which is not greater than
    [0.05]. *)
Example checkDurationMismatch_rounding :
  let longer := 0x1.e01a9fbe76c8bp+5%float in
  let shorter := 0x1.c8194af4f0d84p+5%float in
  ((longer - shorter) / longer)%float = 0x1.999999999999ap-5%float /\
  checkDurationMismatch [fmt 1 (Some longer); fmt 2 (Some shorter)] = false.
Proof. split; reflexivity. Qed.

(* ================================================================== *)
(** ** The handle registry *)

Section Registry.

Lemma find_snoc {A} (p : A -> bool) (l : list A) (x : A) :
  find p (l ++ [x]) =
  match find p l with
  | Some y => Some y
  | None => if p x then Some x else None
  end.
Proof.
  induction l as [|a l IH]; simpl.
  - reflexivity.
  - destruct (p a); [reflexivity|exact IH].
Qed.

(** [serializeHandle] returns the next UUID and appends one registry row
    when that UUID is not a key of the registry; it throws otherwise. *)
Lemma serializeHandle_run (env : Env.t) (handle : FileSystemHandle.t) (w : World.t) :
  let u := Env.randomUUID env (World.uuidsDrawn w) in
  serializeHandle env handle w =
  match fileHandles_get u (World.db w) with
  | Some _ =>
      (Err "ConstraintError",
       World.mk (World.db w) (S (World.uuidsDrawn w)) (World.datesRead w))
  | None =>
      (Ok u,
       World.mk (DB.with_fileHandles
                   (DB.fileHandles (World.db w) ++ [FileHandleRecord.mk u handle])
                   (World.db w))
                (S (World.uuidsDrawn w)) (World.datesRead w))
  end.
Proof.
  unfold serializeHandle, bindM, crypto_randomUUID, fileHandles_add, ret. simpl.
  destruct (fileHandles_get _ _); reflexivity.
Qed.

Lemma serializeHandle_ok_inv env handle w k w1 :
  serializeHandle env handle w = (Ok k, w1) ->
  k = Env.randomUUID env (World.uuidsDrawn w) /\
  fileHandles_get k (World.db w) = None /\
  w1 = World.mk (DB.with_fileHandles
                   (DB.fileHandles (World.db w) ++ [FileHandleRecord.mk k handle])
                   (World.db w))
                (S (World.uuidsDrawn w)) (World.datesRead w).
Proof.
  rewrite serializeHandle_run. cbv zeta.
  destruct (fileHandles_get _ _) eqn:E; [discriminate|].
  intros H. injection H as <- <-. auto.
Qed.

End Registry.

(** C10.  Registration is not a function of the handle: each successful
    call consumes the next value of [crypto.randomUUID()] and appends one
    row to [fileHandles], so two calls with the same handle return two
    different keys, both of which resolve to that handle; and the calls do
    succeed whenever the two UUIDs are distinct and not yet registered. *)
Theorem serializeHandle_fresh_key_each_call :
  forall (env : Env.t) (handle : FileSystemHandle.t) (w : World.t),
    (forall k1 w1 k2 w2,
        serializeHandle env handle w = (Ok k1, w1) ->
        serializeHandle env handle w1 = (Ok k2, w2) ->
        k1 <> k2 /\
        k1 = Env.randomUUID env (World.uuidsDrawn w) /\
        k2 = Env.randomUUID env (S (World.uuidsDrawn w)) /\
        DB.fileHandles (World.db w2) =
          DB.fileHandles (World.db w) ++
          [FileHandleRecord.mk k1 handle; FileHandleRecord.mk k2 handle] /\
        deserializeHandle k1 w2 = Some handle /\
        deserializeHandle k2 w2 = Some handle) /\
    (fileHandles_get (Env.randomUUID env (World.uuidsDrawn w)) (World.db w) = None ->
     fileHandles_get (Env.randomUUID env (S (World.uuidsDrawn w))) (World.db w) = None ->
     Env.randomUUID env (World.uuidsDrawn w)
       <> Env.randomUUID env (S (World.uuidsDrawn w)) ->
     exists w1 w2,
       serializeHandle env handle w
         = (Ok (Env.randomUUID env (World.uuidsDrawn w)), w1) /\
       serializeHandle env handle w1
         = (Ok (Env.randomUUID env (S (World.uuidsDrawn w))), w2)).
Proof.
  intros env handle w. split.
  - intros k1 w1 k2 w2 H1 H2.
    apply serializeHandle_ok_inv in H1. destruct H1 as (Hk1 & Hfree1 & ->).
    apply serializeHandle_ok_inv in H2. destruct H2 as (Hk2 & Hfree2 & ->).
    simpl in Hk2, Hfree2. unfold fileHandles_get in Hfree1, Hfree2.
    simpl in Hfree2. rewrite find_snoc in Hfree2.
    destruct (find _ (DB.fileHandles (World.db w))) eqn:Efree2 in Hfree2;
      [discriminate|].
    simpl in Hfree2.
    destruct (String.eqb k1 k2) eqn:E12; [discriminate|].
    apply String.eqb_neq in E12.
    split; [exact E12|]. split; [exact Hk1|]. split; [exact Hk2|].
    split.
    + simpl. now rewrite <- app_assoc.
    + unfold deserializeHandle, fileHandles_get. simpl.
      rewrite !find_snoc, Hfree1, Efree2. simpl.
      rewrite String.eqb_refl. split; [reflexivity|].
      assert (E21 : String.eqb k1 k2 = false) by now apply String.eqb_neq.
      rewrite E21, String.eqb_refl. reflexivity.
  - intros Hfree1 Hfree2 Hneq.
    eexists. eexists. split.
    + rewrite serializeHandle_run. cbv zeta. rewrite Hfree1. reflexivity.
    + rewrite serializeHandle_run. cbv zeta. simpl.
      unfold fileHandles_get in *. simpl. rewrite find_snoc, Hfree2. simpl.
      apply String.eqb_neq in Hneq. rewrite Hneq. reflexivity.
Qed.

(* ================================================================== *)
(** ** The Format Metadata Extractor *)

Section Extractor.

Fixpoint occurs (c : ascii) (s : string) : bool :=
  match s with
  | EmptyString => false
  | String a s' => Ascii.eqb a c || occurs c s'
  end.

Lemma lastIndexOfFrom_absent c s :
  occurs c s = false -> forall i found, lastIndexOfFrom c s i found = found.
Proof.
  induction s as [|a s IH]; simpl; intros H i found; [reflexivity|].
  apply orb_false_iff in H. destruct H as (Ha & Hs).
  rewrite Ha. now apply IH.
Qed.

Lemma lastIndexOfFrom_last c s1 s2 :
  occurs c s2 = false ->
  forall i found,
    lastIndexOfFrom c (String.append s1 (String c s2)) i found
    = i + Z.of_nat (String.length s1).
Proof.
  intros Habs. induction s1 as [|a s1 IH]; simpl; intros i found.
  - rewrite Ascii.eqb_refl. rewrite lastIndexOfFrom_absent by assumption. lia.
  - rewrite IH. lia.
Qed.

Lemma lastIndexOf_last c s1 s2 :
  occurs c s2 = false ->
  lastIndexOf (String.append s1 (String c s2)) c = Z.of_nat (String.length s1).
Proof.
  intros H. unfold lastIndexOf. now rewrite lastIndexOfFrom_last.
Qed.

Lemma drop_append s1 s2 : drop (String.length s1) (String.append s1 s2) = s2.
Proof. induction s1 as [|a s1 IH]; simpl; [now destruct s2|exact IH]. Qed.

Lemma take_append s1 s2 : take (String.length s1) (String.append s1 s2) = s1.
Proof.
  induction s1 as [|a s1 IH]; simpl; [reflexivity|now rewrite IH].
Qed.

(** The fallback format is what follows the last dot of the name. *)
Lemma extensionOf_after_last_dot base ext :
  occurs "." ext = false ->
  extensionOf (String.append base (String "." ext)) = ext.
Proof.
  intros H. unfold extensionOf. rewrite lastIndexOf_last by assumption.
  unfold slice.
  destruct (Z.ltb_spec (Z.of_nat (String.length base) + 1) 0) as [Hneg|_]; [lia|].
  replace (Z.to_nat (Z.of_nat (String.length base) + 1))
    with (String.length (String.append base ".")).
  - replace (String.append base (String "." ext))
      with (String.append (String.append base ".") ext).
    + apply drop_append.
    + clear. induction base as [|a b IH]; simpl; [reflexivity|now rewrite IH].
  - clear. rewrite Z2Nat.inj_add, Nat2Z.id by lia.
    induction base as [|a b IH]; simpl; [reflexivity|].
    rewrite IH. simpl. lia.
Qed.

Lemma extensionOf_no_dot name :
  occurs "." name = false -> extensionOf name = name.
Proof.
  intros H. unfold extensionOf, lastIndexOf.
  rewrite lastIndexOfFrom_absent by assumption. reflexivity.
Qed.

(** The base name is what precedes the last dot, when something does. *)
Lemma getBaseFileName_before_last_dot base ext :
  base <> EmptyString ->
  occurs "." ext = false ->
  getBaseFileName (String.append base (String "." ext)) = base.
Proof.
  intros Hne H. unfold getBaseFileName. rewrite lastIndexOf_last by assumption.
  destruct base as [|a b]; [congruence|].
  destruct (Z.gtb_spec (Z.of_nat (String.length (String a b))) 0) as [_|Hle].
  - unfold substring0. rewrite Nat2Z.id. apply take_append.
  - simpl String.length in Hle. lia.
Qed.

Local Open Scope Q_scope.

(** [Math.round] picks an integer at distance at most one half. *)
Lemma Math_round_nearest (x : Q) :
  inject_Z (Math_round x) - (1 # 2) <= x /\ x < inject_Z (Math_round x) + (1 # 2).
Proof.
  unfold Math_round. split.
  - pose proof (Qfloor_le (x + (1 # 2))) as H.
    apply Qplus_le_l with (z := 1 # 2).
    setoid_replace (inject_Z (Qfloor (x + (1 # 2))) - (1 # 2) + (1 # 2))
      with (inject_Z (Qfloor (x + (1 # 2)))) by ring.
    exact H.
  - pose proof (Qlt_floor (x + (1 # 2))) as H.
    apply Qplus_lt_l with (z := 1 # 2).
    setoid_replace (inject_Z (Qfloor (x + (1 # 2))) + (1 # 2) + (1 # 2))
      with (inject_Z (Qfloor (x + (1 # 2)) + 1)).
    + exact H.
    + rewrite inject_Z_plus. ring.
Qed.

End Extractor.

Definition env0 : Env.t :=
  Env.mk (fun h => Ok (File.mk (FileSystemHandle.name h) 1000 0))
         (fun _ => Err "unsupported")
         (fun n => numberToString (Z.of_nat n))
         (fun n => numberToString (Z.of_nat n))
         (fun t => numberToString t)
         parseInt.

Definition emptyDB : DB.t := DB.mk [] [] 1 [] [] [] [].

Definition world0 : World.t := World.mk emptyDB 0 0.

(** C6, as stated, fails: on a parse failure the format of [SONG.MP3] is
    [MP3], which is not its lower-cased extension. *)
Lemma extractAudioMetadata_keeps_case :
  Env.parseBlob env0 (File.mk "SONG.MP3" 1000 0) = Err "unsupported" /\
  extractAudioMetadata env0 (File.mk "SONG.MP3" 1000 0) world0
    = (Ok (mkAudioMetadata None None "MP3"), world0) /\
  toLowerCase (extensionOf "SONG.MP3") = "mp3" /\
  "MP3" <> toLowerCase (extensionOf "SONG.MP3").
Proof.
  repeat split; try reflexivity. discriminate.
Qed.

(** C6, amended.  [extractAudioMetadata] always returns and changes no
    state.  When [parseBlob] throws, [duration] and [bitrate] are null and
    [format] is the part of the file name after its last dot, as written
    (no case change).  When it succeeds, [format] is the container, or that
    same part of the name when the container is missing or empty; a present
    non-zero bitrate is rounded to the nearest integer number of kbps. *)
Theorem extractAudioMetadata_total :
  forall (env : Env.t) (file : File.t) (w : World.t),
  exists am : audioMetadata,
    extractAudioMetadata env file w = (Ok am, w) /\
    (forall e, Env.parseBlob env file = Err e ->
               am = mkAudioMetadata None None (extensionOf (File.name file))) /\
    (forall md, Env.parseBlob env file = Ok md ->
       am_duration am = orNullDouble (AudioFormat.duration md) /\
       (AudioFormat.container md = None \/
        AudioFormat.container md = Some EmptyString ->
        am_format am = extensionOf (File.name file)) /\
       (forall c, AudioFormat.container md = Some c -> c <> EmptyString ->
                  am_format am = c) /\
       (orNull (AudioFormat.bitrate md) = None -> am_bitrate am = None) /\
       (forall b, orNull (AudioFormat.bitrate md) = Some b ->
          exists kbps : Z,
            am_bitrate am = Some (inject_Z kbps) /\
            (inject_Z kbps - (1 # 2) <= b / 1000 /\
             b / 1000 < inject_Z kbps + (1 # 2))%Q)).
Proof.
  intros env file w.
  unfold extractAudioMetadata, tryCatch, bindM, lift, ret.
  destruct (Env.parseBlob env file) as [md|e] eqn:Eparse.
  - eexists. split; [reflexivity|]. split; [intros e; discriminate|].
    intros md' Hmd. injection Hmd as <-. simpl.
    split; [reflexivity|]. split; [|split; [|split]].
    + intros [Hc|Hc]; rewrite Hc; reflexivity.
    + intros c Hc Hne. rewrite Hc. destruct c; [congruence|reflexivity].
    + intros Hb. now rewrite Hb.
    + intros b Hb. rewrite Hb. eexists. split; [reflexivity|].
      apply Math_round_nearest.
  - eexists. split; [reflexivity|]. split.
    + intros e' _. reflexivity.
    + intros md Hmd. discriminate.
Qed.

(* ================================================================== *)
(** ** Grouping by key *)

Section Grouping.

Context {T : Type} (keyOf : T -> string).

Definition keyIs (k : string) (x : T) : bool := String.eqb (keyOf x) k.

Lemma groupPush_keys (k : string) (x : T) (gs : list (string * list T)) :
  map fst (groupPush k x gs) =
  if existsb (fun k' => String.eqb k' k) (map fst gs)
  then map fst gs
  else map fst gs ++ [k].
Proof.
  induction gs as [|[k' xs] gs IH]; simpl; [reflexivity|].
  destruct (String.eqb k' k) eqn:E; simpl; [reflexivity|].
  rewrite IH. now destruct (existsb _ (map fst gs)).
Qed.

Lemma existsb_eqb_In (k : string) (ks : list string) :
  existsb (fun k' => String.eqb k' k) ks = true <-> In k ks.
Proof.
  rewrite existsb_exists. split.
  - intros (k' & Hin & E). apply String.eqb_eq in E. now subst.
  - intros Hin. exists k. split; [exact Hin|apply String.eqb_refl].
Qed.

Lemma filter_snoc (p : T -> bool) (l : list T) (x : T) :
  filter p (l ++ [x]) = filter p l ++ (if p x then [x] else []).
Proof. rewrite filter_app. reflexivity. Qed.

(** Every group holds, in order, the items seen so far that carry its key. *)
Definition groupsOf (items : list T) (gs : list (string * list T)) : Prop :=
  Forall (fun g => snd g = filter (keyIs (fst g)) items /\ snd g <> []) gs.

Lemma groupPush_groupsOf (items : list T) (x : T) :
  forall gs,
    NoDup (map fst gs) ->
    groupsOf items gs ->
    (~ In (keyOf x) (map fst gs) -> filter (keyIs (keyOf x)) items = []) ->
    groupsOf (items ++ [x]) (groupPush (keyOf x) x gs).
Proof.
  unfold groupsOf.
  induction gs as [|[k' xs] gs IH]; intros Hnd Hgs Hnew; simpl.
  - constructor; [|constructor]. simpl. split; [|discriminate].
    rewrite filter_snoc, Hnew by (intros []). unfold keyIs.
    now rewrite String.eqb_refl.
  - inversion Hnd as [|? ? Hk' Hnd']; subst.
    inversion Hgs as [|? ? (Hxs & Hne) Hgs']; subst. simpl in Hxs, Hne.
    destruct (String.eqb k' (keyOf x)) eqn:E.
    + apply String.eqb_eq in E. subst k'.
      constructor.
      * simpl. split.
        -- rewrite filter_snoc. unfold keyIs at 2. rewrite String.eqb_refl.
           now rewrite <- Hxs.
        -- destruct xs; discriminate.
      * rewrite Forall_forall in Hgs' |- *. intros [k'' ys] Hin.
        destruct (Hgs' _ Hin) as (Hys & Hyne). simpl in *.
        split; [|exact Hyne].
        rewrite filter_snoc. unfold keyIs at 2.
        destruct (String.eqb (keyOf x) k'') eqn:E'.
        -- apply String.eqb_eq in E'. subst k''.
           exfalso. apply Hk'. now apply (in_map fst) in Hin.
        -- now rewrite app_nil_r.
    + constructor.
      * simpl. split; [|exact Hne].
        rewrite filter_snoc. unfold keyIs at 2.
        rewrite String.eqb_sym, E. now rewrite app_nil_r.
      * apply IH; [exact Hnd'|exact Hgs'|].
        intros Hnot. apply Hnew. simpl. intros [Heq|Hin]; [|now apply Hnot].
        subst k'. now rewrite String.eqb_refl in E.
Qed.

Lemma groupBy_snoc (items : list T) (x : T) :
  groupBy keyOf (items ++ [x]) = groupPush (keyOf x) x (groupBy keyOf items).
Proof. unfold groupBy. now rewrite fold_left_app. Qed.

(** The groups of [groupBy]: distinct keys, one per key that occurs, each
    holding the items of that key in their original order. *)
Lemma groupBy_spec (items : list T) :
  NoDup (map fst (groupBy keyOf items)) /\
  groupsOf items (groupBy keyOf items) /\
  (forall x, In x items -> In (keyOf x) (map fst (groupBy keyOf items))).
Proof.
  induction items as [|x items IH] using rev_ind.
  - simpl. split; [constructor|]. split; [constructor|]. intros x [].
  - destruct IH as (Hnd & Hgs & Hcov).
    rewrite groupBy_snoc.
    assert (Hkeys := groupPush_keys (keyOf x) x (groupBy keyOf items)).
    destruct (existsb _ (map fst (groupBy keyOf items))) eqn:E.
    + apply existsb_eqb_In in E.
      split; [now rewrite Hkeys|]. split.
      * apply groupPush_groupsOf; [exact Hnd|exact Hgs|]. intros Hnot. contradiction.
      * rewrite Hkeys. intros y Hy. apply in_app_or in Hy.
        destruct Hy as [Hy|[<-|[]]]; [now apply Hcov|exact E].
    + assert (Hnot : ~ In (keyOf x) (map fst (groupBy keyOf items))).
      { intros Hin. apply existsb_eqb_In in Hin. congruence. }
      split; [|split].
      * rewrite Hkeys. apply NoDup_app; [exact Hnd|repeat constructor; intros []|].
        intros k Hk [<-|[]]. contradiction.
      * apply groupPush_groupsOf; [exact Hnd|exact Hgs|]. intros _.
        destruct (filter (keyIs (keyOf x)) items) as [|y ys] eqn:Ef; [reflexivity|].
        exfalso. assert (Hy : In y (filter (keyIs (keyOf x)) items)) by (rewrite Ef; now left).
        apply filter_In in Hy. destruct Hy as (Hy & Hk).
        unfold keyIs in Hk. apply String.eqb_eq in Hk.
        apply Hnot. rewrite <- Hk. now apply Hcov.
      * rewrite Hkeys. intros y Hy. apply in_app_or in Hy. apply in_or_app.
        destruct Hy as [Hy|[<-|[]]]; [left; now apply Hcov|right; now left].
Qed.

Lemma groupBy_group (items : list T) (k : string) (xs : list T) :
  In (k, xs) (groupBy keyOf items) ->
  xs = filter (keyIs k) items /\ xs <> [].
Proof.
  intros Hin. destruct (groupBy_spec items) as (_ & Hgs & _).
  unfold groupsOf in Hgs. rewrite Forall_forall in Hgs.
  exact (Hgs _ Hin).
Qed.

Lemma groupBy_covers (items : list T) (x : T) :
  In x items -> exists xs, In (keyOf x, xs) (groupBy keyOf items).
Proof.
  intros Hin. destruct (groupBy_spec items) as (_ & _ & Hcov).
  specialize (Hcov _ Hin). apply in_map_iff in Hcov.
  destruct Hcov as ([k xs] & Hk & Hg). simpl in Hk. subst k. now exists xs.
Qed.

Lemma groupPush_members (k : string) (x : T) (gs : list (string * list T)) :
  Permutation (List.concat (map snd (groupPush k x gs)))
              (x :: List.concat (map snd gs)).
Proof.
  induction gs as [|[k' xs] gs IH]; simpl.
  - reflexivity.
  - destruct (String.eqb k' k); simpl.
    + rewrite <- app_assoc. simpl. symmetry. apply Permutation_middle.
    + rewrite IH. symmetry. apply Permutation_middle.
Qed.

(** Taken together, the groups hold every item once. *)
Lemma groupBy_members (items : list T) :
  Permutation (List.concat (map snd (groupBy keyOf items))) items.
Proof.
  induction items as [|x items IH] using rev_ind.
  - reflexivity.
  - rewrite groupBy_snoc, groupPush_members, IH.
    apply Permutation_cons_append.
Qed.

End Grouping.

(* ================================================================== *)
(** ** The scanner: what each step does to the state *)

Section ScannerSteps.

Variable env : Env.t.

(** The [versions] table and its key generator are untouched. *)
Definition sameVersions (w w' : World.t) : Prop :=
  DB.versions (World.db w') = DB.versions (World.db w) /\
  DB.versionsNextId (World.db w') = DB.versionsNextId (World.db w).

Lemma sameVersions_refl w : sameVersions w w.
Proof. now split. Qed.

Lemma sameVersions_trans w1 w2 w3 :
  sameVersions w1 w2 -> sameVersions w2 w3 -> sameVersions w1 w3.
Proof. intros (A & B) (C & D). split; congruence. Qed.

(** [getFile()] answers for this handle. *)
Definition readable (h : FileSystemHandle.t) : bool :=
  match Env.getFile env h with
  | Ok _ => true
  | Err _ => false
  end.

(** [crypto.randomUUID()] keeps its promise from this state on: the values
    still to come are pairwise different and none is a registered key. *)
Definition UuidsFresh (w : World.t) : Prop :=
  (forall i j : nat,
      Env.randomUUID env (World.uuidsDrawn w + i)
      = Env.randomUUID env (World.uuidsDrawn w + j) -> i = j) /\
  (forall i : nat,
      fileHandles_get (Env.randomUUID env (World.uuidsDrawn w + i)) (World.db w)
      = None).

Lemma serializeHandle_frame handle w r w' :
  serializeHandle env handle w = (r, w') -> sameVersions w w'.
Proof.
  rewrite serializeHandle_run. cbv zeta.
  destruct (fileHandles_get _ _); intros H; injection H as _ <-; now split.
Qed.

Lemma serializeHandle_fresh handle w :
  UuidsFresh w ->
  exists w',
    serializeHandle env handle w
      = (Ok (Env.randomUUID env (World.uuidsDrawn w)), w') /\
    UuidsFresh w' /\ sameVersions w w' /\
    World.datesRead w' = World.datesRead w.
Proof.
  intros (Hinj & Hfree).
  rewrite serializeHandle_run. cbv zeta.
  pose proof (Hfree 0%nat) as H0. rewrite Nat.add_0_r in H0. rewrite H0.
  eexists. split; [reflexivity|]. split; [|split; [now split|reflexivity]].
  split; simpl.
  - intros i j E. rewrite <- !Nat.add_succ_r in E. apply Hinj in E. lia.
  - intros i. unfold fileHandles_get in *. simpl.
    rewrite find_snoc. rewrite <- Nat.add_succ_r. rewrite Hfree. simpl.
    destruct (String.eqb _ _) eqn:E; [|reflexivity].
    apply String.eqb_eq in E.
    replace (World.uuidsDrawn w) with (World.uuidsDrawn w + 0)%nat in E at 1 by lia.
    apply Hinj in E. discriminate.
Qed.

Lemma extractAudioMetadata_returns file w :
  exists am, extractAudioMetadata env file w = (Ok am, w).
Proof.
  unfold extractAudioMetadata, tryCatch, bindM, lift, ret.
  destruct (Env.parseBlob env file); eexists; reflexivity.
Qed.

(** [extractFormatMetadata] never throws and never touches [versions]; a
    Format it returns carries the handle's name. *)
Lemma extractFormatMetadata_frame fileHandle w r w' :
  extractFormatMetadata env fileHandle w = (r, w') ->
  sameVersions w w' /\
  exists o, r = Ok o /\
            (forall f, o = Some f ->
                       VersionFormat.fileName f = FileSystemHandle.name fileHandle).
Proof.
  unfold extractFormatMetadata, tryCatch, bindM, getFileFromHandle, getFileSize,
    lift, ret.
  destruct (Env.getFile env fileHandle) as [file|e] eqn:Efile.
  - pose proof (serializeHandle_frame fileHandle w) as Hframe.
    destruct (serializeHandle env fileHandle w) as [[k|e] w1].
    + specialize (Hframe _ _ eq_refl). unfold bindM. cbv beta iota.
      destruct (extractAudioMetadata_returns file w1) as (am & Ham).
      rewrite Ham. intros H. injection H as <- <-.
      split; [exact Hframe|]. eexists. split; [reflexivity|].
      intros f Hf. injection Hf as <-. reflexivity.
    + specialize (Hframe _ _ eq_refl).
      intros H. injection H as <- <-.
      split; [exact Hframe|]. exists None. split; [reflexivity|discriminate].
  - intros H. injection H as <- <-.
    split; [apply sameVersions_refl|].
    exists None. split; [reflexivity|discriminate].
Qed.

Lemma extractFormatMetadata_fresh fileHandle w :
  UuidsFresh w ->
  match Env.getFile env fileHandle with
  | Ok file =>
      exists f w',
        extractFormatMetadata env fileHandle w = (Ok (Some f), w') /\
        UuidsFresh w' /\ sameVersions w w' /\
        World.datesRead w' = World.datesRead w /\
        VersionFormat.fileName f = FileSystemHandle.name fileHandle /\
        VersionFormat.fileSize f = File.size file /\
        VersionFormat.fileHandle f = Env.randomUUID env (World.uuidsDrawn w)
  | Err _ => extractFormatMetadata env fileHandle w = (Ok None, w)
  end.
Proof.
  intros Hfresh.
  unfold extractFormatMetadata, tryCatch, bindM, getFileFromHandle, getFileSize,
    lift, ret.
  destruct (Env.getFile env fileHandle) as [file|e] eqn:Efile; [|reflexivity].
  destruct (serializeHandle_fresh fileHandle Hfresh) as (w1 & Hser & Hf1 & Hsame & Hdates).
  rewrite Hser. unfold bindM. cbv beta iota.
  destruct (extractAudioMetadata_returns file w1) as (am & Ham). rewrite Ham.
  eexists. eexists. split; [reflexivity|].
  split; [exact Hf1|]. split; [exact Hsame|]. split; [exact Hdates|].
  simpl. auto.
Qed.

Lemma extractFormats_frame handles :
  forall formats w r w',
    extractFormats env handles formats w = (r, w') ->
    sameVersions w w' /\ exists fs, r = Ok (formats ++ fs).
Proof.
  induction handles as [|h hs IH]; intros formats w r w' H; simpl in H.
  - unfold ret in H. injection H as <- <-.
    split; [apply sameVersions_refl|]. exists []. now rewrite app_nil_r.
  - unfold bindM in H.
    destruct (extractFormatMetadata env h w) as [r1 w1] eqn:E1.
    apply extractFormatMetadata_frame in E1.
    destruct E1 as (Hs1 & o & -> & _).
    apply IH in H. destruct H as (Hs2 & fs & ->).
    split; [eapply sameVersions_trans; eassumption|].
    destruct o as [f|].
    + exists (f :: fs). now rewrite <- app_assoc.
    + now exists fs.
Qed.

Lemma extractFormats_fresh handles :
  forall formats w,
    UuidsFresh w ->
    exists fs w',
      extractFormats env handles formats w = (Ok (formats ++ fs), w') /\
      UuidsFresh w' /\ sameVersions w w' /\
      World.datesRead w' = World.datesRead w /\
      map VersionFormat.fileName fs
      = map FileSystemHandle.name (filter readable handles).
Proof.
  induction handles as [|h hs IH]; intros formats w Hfresh; simpl.
  - exists [], w. rewrite app_nil_r. unfold ret.
    split; [reflexivity|]. split; [exact Hfresh|].
    split; [apply sameVersions_refl|]. auto.
  - pose proof (extractFormatMetadata_fresh h Hfresh) as Hstep.
    unfold bindM, readable at 1.
    destruct (Env.getFile env h) as [file|e] eqn:Efile.
    + destruct Hstep as (f & w1 & Hrun & Hf1 & Hs1 & Hd1 & Hname & _).
      rewrite Hrun.
      destruct (IH (formats ++ [f]) w1 Hf1) as (fs & w2 & Hrun2 & Hf2 & Hs2 & Hd2 & Hnames).
      exists (f :: fs), w2. rewrite Hrun2, <- app_assoc. simpl.
      split; [reflexivity|]. split; [exact Hf2|].
      split; [eapply sameVersions_trans; eassumption|].
      split; [congruence|]. now rewrite Hname, Hnames.
    + rewrite Hstep.
      destruct (IH formats w Hfresh) as (fs & w2 & Hrun2 & Hrest).
      exists fs, w2. now rewrite Hrun2.
Qed.

End ScannerSteps.

(* ================================================================== *)
(** ** The scanner: creating and merging Versions *)

Section ScannerWrites.

Variable env : Env.t.


(** Both policy outputs are those of the row's own formats list. *)
Definition policyFresh (v : Version.t) : Prop :=
  Version.formats v <> [] /\
  Version.selectedFormatIndex v
  = Z.of_nat (findSmallestFormat (Version.formats v)) /\
  Version.hasDurationMismatch v = checkDurationMismatch (Version.formats v).






(** The row that [createVersionWithFormats] adds. *)
Definition createdRow (songId : Z) (versionName : string)
           (formats : list VersionFormat.t) (v : Version.t) : Prop :=
  Version.songId v = songId /\
  Version.versionName v = versionName /\
  Version.formats v = formats /\
  Version.rating v = None /\
  policyFresh v.

Lemma createVersionWithFormats_step songId versionName handles w r w' :
  createVersionWithFormats env songId versionName handles w = (r, w') ->
  sameVersions w w' \/
  exists v formats,
    DB.versions (World.db w') = DB.versions (World.db w) ++ [v] /\
    createdRow songId versionName formats v.
Proof.
  unfold createVersionWithFormats, bindM.
  destruct (extractFormats env handles [] w) as [r1 w1] eqn:E1.
  apply extractFormats_frame in E1. destruct E1 as (Hs1 & fs & ->).
  rewrite !app_nil_l.
  destruct fs as [|f fs].
  - unfold ret. intros H. injection H as <- <-. now left.
  - unfold newDateISO at 1. cbv beta iota.
    unfold modifiedAtOf.
    pose proof (@findSmallestFormat_lt_length (f :: fs) ltac:(discriminate)) as Hlt.
    destruct (nth_error (f :: fs) (findSmallestFormat (f :: fs))) as [sel|] eqn:Enth.
    + unfold ret at 1. cbv beta iota. unfold versions_add at 1.
      cbv beta iota zeta. unfold ret.
      intros H. injection H as <- <-. right.
      eexists. exists (f :: fs). simpl. split.
      * destruct Hs1 as (Hv & _). rewrite Hv. reflexivity.
      * unfold createdRow, policyFresh. simpl.
        repeat split; try reflexivity. discriminate.
    + apply nth_error_None in Enth. lia.
Qed.

Lemma createVersionWithFormats_fresh songId versionName handles w :
  UuidsFresh env w ->
  exists w',
    createVersionWithFormats env songId versionName handles w = (Ok tt, w') /\
    UuidsFresh env w' /\
    match filter (readable env) handles with
    | [] => sameVersions w w'
    | _ :: _ =>
        exists v,
          DB.versions (World.db w') = DB.versions (World.db w) ++ [v] /\
          createdRow songId versionName (Version.formats v) v /\
          map VersionFormat.fileName (Version.formats v)
          = map FileSystemHandle.name (filter (readable env) handles)
    end.
Proof.
  intros Hfresh.
  unfold createVersionWithFormats, bindM.
  destruct (@extractFormats_fresh env handles [] w Hfresh)
    as (fs & w1 & Hrun & Hf1 & Hs1 & Hd1 & Hnames).
  rewrite Hrun. rewrite !app_nil_l.
  destruct fs as [|f fs].
  - exists w1. unfold ret. split; [reflexivity|]. split; [exact Hf1|].
    destruct (filter (readable env) handles); [exact Hs1|discriminate].
  - unfold newDateISO at 1. cbv beta iota.
    unfold modifiedAtOf.
    pose proof (@findSmallestFormat_lt_length (f :: fs) ltac:(discriminate)) as Hlt.
    destruct (nth_error (f :: fs) (findSmallestFormat (f :: fs))) as [sel|] eqn:Enth.
    + unfold ret at 1. cbv beta iota. unfold versions_add at 1.
      cbv beta iota zeta. unfold ret.
      eexists. split; [reflexivity|]. split.
      * destruct Hf1 as (Hinj & Hfree). split; [exact Hinj|exact Hfree].
      * destruct (filter (readable env) handles) as [|h0 hs0]; [discriminate|].
        eexists. simpl. split; [|split].
        -- destruct Hs1 as (Hv & _). rewrite Hv. reflexivity.
        -- unfold createdRow, policyFresh. simpl.
           repeat split; try reflexivity. discriminate.
        -- simpl. exact Hnames.
    + apply nth_error_None in Enth. lia.
Qed.

(** The loop of the merger only ever appends, and reports having appended
    exactly when it did. *)
Lemma mergeFormats_frame existing handles :
  forall acc w r w',
    mergeFormats env existing handles acc w = (r, w') ->
    sameVersions w w' /\
    (forall newFormats hasNewFormats,
        r = Ok (newFormats, hasNewFormats) ->
        exists fs,
          newFormats = fst acc ++ fs /\
          hasNewFormats = (snd acc || negb (Nat.eqb (List.length fs) 0))%bool).
Proof.
  induction handles as [|h hs IH]; intros acc w r w' H; simpl in H.
  - unfold ret in H. injection H as <- <-.
    split; [apply sameVersions_refl|].
    intros nf b E. injection E as E. subst acc. exists []. simpl.
    now rewrite app_nil_r, orb_false_r.
  - unfold bindM in H.
    destruct (serializeHandle env h w) as [[k|e] w1] eqn:Eser;
      apply serializeHandle_frame in Eser.
    + destruct (includes existing k).
      * apply IH in H. destruct H as (Hs & Hres).
        split; [eapply sameVersions_trans; eassumption|exact Hres].
      * destruct (extractFormatMetadata env h w1) as [r2 w2] eqn:Eext.
        apply extractFormatMetadata_frame in Eext.
        destruct Eext as (Hs2 & o & -> & _).
        apply IH in H. destruct H as (Hs3 & Hres).
        split; [eapply sameVersions_trans; [|eassumption];
                eapply sameVersions_trans; eassumption|].
        intros nf b E. destruct (Hres nf b E) as (fs & Hnf & Hb).
        destruct o as [f|]; simpl in Hnf, Hb.
        -- exists (f :: fs). rewrite <- app_assoc in Hnf. simpl in Hnf.
           split; [exact Hnf|]. simpl. now rewrite orb_true_r.
        -- now exists fs.
    + injection H as <- <-. split; [exact Eser|]. intros ? ? E. discriminate.
Qed.

(** The patch that [addNewFormatsToVersion] writes in one [update]. *)
Definition mergedRow (newFormats : list VersionFormat.t) (modifiedAt : string)
           (v : Version.t) : Version.t :=
  Version.mk (Version.id v) (Version.songId v) (Version.versionName v)
             newFormats (Z.of_nat (findSmallestFormat newFormats))
             (checkDurationMismatch newFormats) (Version.rating v)
             (Version.createdAt v) modifiedAt.

Lemma addNewFormatsToVersion_step version handles w r w' :
  addNewFormatsToVersion env version handles w = (r, w') ->
  sameVersions w w' \/
  exists fs modifiedAt,
    fs <> [] /\
    DB.versionsNextId (World.db w') = DB.versionsNextId (World.db w) /\
    DB.versions (World.db w')
    = map (fun v => if Version.id v =? Version.id version
                    then mergedRow (Version.formats version ++ fs) modifiedAt v
                    else v)
          (DB.versions (World.db w)).
Proof.
  unfold addNewFormatsToVersion, bindM.
  destruct (mergeFormats env _ handles (Version.formats version, false) w)
    as [r1 w1] eqn:E1.
  apply mergeFormats_frame in E1. destruct E1 as (Hs1 & Hres).
  destruct r1 as [[nf b]|e].
  - destruct (Hres nf b eq_refl) as (fs & Hnf & Hb). simpl in Hnf, Hb.
    simpl fst. simpl snd. destruct b.
    + unfold newDateISO, versions_update. cbv beta iota zeta.
      intros H. injection H as <- <-. right.
      exists fs. eexists. split; [|split].
      * intros ->. discriminate.
      * simpl. apply Hs1.
      * simpl. destruct Hs1 as (Hv & _). rewrite Hv, Hnf. reflexivity.
    + unfold ret. intros H. injection H as <- <-. now left.
  - intros H. injection H as <- <-. now left.
Qed.




End ScannerWrites.

(* ================================================================== *)
(** ** The Version Grouper *)

Section Grouper.

Variable env : Env.t.

Lemma find_all_false {A} (p : A -> bool) (l : list A) :
  (forall x, In x l -> p x = false) -> find p l = None.
Proof.
  induction l as [|a l IH]; intros H; simpl; [reflexivity|].
  rewrite (H a (or_introl eq_refl)). apply IH. intros x Hx. apply H. now right.
Qed.

Lemma Forall2_in_l {A B} (R : A -> B -> Prop) l1 l2 x :
  Forall2 R l1 l2 -> In x l1 -> exists y, In y l2 /\ R x y.
Proof.
  induction 1 as [|a b l1 l2 Hab _ IH]; intros Hin; [destruct Hin|].
  destruct Hin as [<-|Hin].
  - exists b. split; [now left|exact Hab].
  - destruct (IH Hin) as (y & Hy & Hr). exists y. split; [now right|exact Hr].
Qed.

Lemma Forall2_in_r {A B} (R : A -> B -> Prop) l1 l2 y :
  Forall2 R l1 l2 -> In y l2 -> exists x, In x l1 /\ R x y.
Proof.
  induction 1 as [|a b l1 l2 Hab _ IH]; intros Hin; [destruct Hin|].
  destruct Hin as [<-|Hin].
  - exists a. split; [now left|exact Hab].
  - destruct (IH Hin) as (x & Hx & Hr). exists x. split; [now right|exact Hr].
Qed.

Lemma Forall2_map_eq {A B C} (R : A -> B -> Prop) (f : A -> C) (g : B -> C) l1 l2 :
  (forall a b, R a b -> g b = f a) ->
  Forall2 R l1 l2 -> map g l2 = map f l1.
Proof.
  intros Hfg. induction 1 as [|a b l1 l2 Hab _ IH]; simpl; [reflexivity|].
  now rewrite (Hfg _ _ Hab), IH.
Qed.

(** Dropping groups keeps the keys distinct. *)
Lemma kept_keys_NoDup {G} (keep : string * G -> bool) :
  forall gs : list (string * G),
    NoDup (map fst gs) -> NoDup (map fst (filter keep gs)).
Proof.
  intros gs. induction gs as [|g gs IH]; simpl; intros Hnd; [constructor|].
  inversion Hnd as [|? ? Hfirst Hrest]; subst.
  destruct (keep g); simpl; [|now apply IH].
  constructor; [|now apply IH].
  intros Hin. apply Hfirst. apply in_map_iff in Hin.
  destruct Hin as (g' & Hk & Hg'). apply filter_In in Hg'.
  apply in_map_iff. exists g'. split; [exact Hk|apply Hg'].
Qed.

(** The files of a group that [getFile()] can open, in scan order. *)
Definition extractable (handles : list FileSystemHandle.t)
  : list FileSystemHandle.t :=
  filter (readable env) handles.

Definition survives (g : string * list FileSystemHandle.t) : bool :=
  match extractable (snd g) with
  | [] => false
  | _ :: _ => true
  end.

(** The Version the Grouper writes for a group. *)
Definition groupVersion (songId : Z) (g : string * list FileSystemHandle.t)
           (v : Version.t) : Prop :=
  createdRow songId (fst g) (Version.formats v) v /\
  map VersionFormat.fileName (Version.formats v)
  = map FileSystemHandle.name (extractable (snd g)).

Lemma versions_first_none songId versionName w :
  (forall v, In v (DB.versions (World.db w)) ->
             Version.songId v = songId -> Version.versionName v <> versionName) ->
  versions_first songId versionName w = None.
Proof.
  intros H. unfold versions_first. apply find_all_false. intros v Hv.
  destruct (Z.eqb_spec (Version.songId v) songId) as [Hs|Hs]; [|reflexivity].
  simpl. apply String.eqb_neq. now apply H.
Qed.

Lemma processGroups_fresh songId groups :
  forall w,
    UuidsFresh env w ->
    NoDup (map fst groups) ->
    (forall v, In v (DB.versions (World.db w)) ->
               Version.songId v = songId ->
               ~ In (Version.versionName v) (map fst groups)) ->
    exists w' vs,
      processGroups env songId groups w = (Ok tt, w') /\
      UuidsFresh env w' /\
      DB.versions (World.db w') = DB.versions (World.db w) ++ vs /\
      Forall2 (groupVersion songId) (filter survives groups) vs.
Proof.
  induction groups as [|[b hs] groups IH]; intros w Hfresh Hnd Hnew; simpl.
  - exists w, []. unfold ret. rewrite app_nil_r.
    split; [reflexivity|]. split; [exact Hfresh|]. split; [reflexivity|constructor].
  - inversion Hnd as [|? ? Hb Hnd']; subst.
    unfold bindM.
    rewrite versions_first_none.
    2:{ intros v Hv Hs E. apply (Hnew v Hv Hs). simpl. now left. }
    destruct (@createVersionWithFormats_fresh env songId b hs w Hfresh)
      as (w1 & Hrun & Hf1 & Hcase).
    rewrite Hrun.
    unfold survives at 1, extractable. simpl snd.
    destruct (filter (readable env) hs) as [|h0 hs0] eqn:Eok.
    + destruct Hcase as (Hv1 & _).
      destruct (IH w1 Hf1 Hnd') as (w' & vs & Hrun' & Hf' & Hvs & Hall).
      { rewrite Hv1. intros v Hv Hs Hin. apply (Hnew v Hv Hs). simpl. now right. }
      exists w', vs. rewrite Hv1 in Hvs. auto.
    + destruct Hcase as (v & Hv1 & Hrow & Hnames).
      destruct (IH w1 Hf1 Hnd') as (w' & vs & Hrun' & Hf' & Hvs & Hall).
      { rewrite Hv1. intros v' Hv' Hs Hin. apply in_app_or in Hv'.
        destruct Hv' as [Hv'|[<-|[]]].
        - apply (Hnew v' Hv' Hs). simpl. now right.
        - destruct Hrow as (_ & Hname & _). simpl in Hname.
          rewrite Hname in Hin. contradiction. }
      exists w', (v :: vs).
      split; [exact Hrun'|]. split; [exact Hf'|]. split.
      * rewrite Hvs, Hv1, <- app_assoc. reflexivity.
      * constructor; [|exact Hall].
        split; [exact Hrow|]. unfold extractable. simpl snd. now rewrite Eok.
Qed.

End Grouper.

(** A file name belongs to base name [b]. *)
Definition baseIs (b : string) (h : FileSystemHandle.t) : bool :=
  String.eqb (getBaseFileName (FileSystemHandle.name h)) b.

(** C7.  In a first scan of a Song's folder (no Version of the Song exists
    yet, UUIDs are fresh), the scan returns and the rows it adds are these:
    for every base name, when at least one file of that base name can be
    extracted there is exactly one new Version of that name, and its formats
    are the extractable files of that base name, one Format per file, in
    scan order (files whose extraction throws are left out); when none can
    be extracted there is no Version of that name. *)
Theorem scan_creates_one_version_per_group :
  forall (env : Env.t) (dirHandle : FileSystemDirectoryHandle.t)
         (songId : Z) (w : World.t),
    UuidsFresh env w ->
    (forall v, In v (DB.versions (World.db w)) -> Version.songId v <> songId) ->
    exists w' vs,
      scanAndAddAudioFiles env dirHandle songId w = (Ok tt, w') /\
      DB.versions (World.db w') = DB.versions (World.db w) ++ vs /\
      NoDup (map Version.versionName vs) /\
      (forall v, In v vs -> Version.songId v = songId) /\
      forall b ok,
        ok = extractable env
               (filter (baseIs b) (scanDirectoryForAudioFiles dirHandle)) ->
        (ok = [] -> forall v, In v vs -> Version.versionName v <> b) /\
        (ok <> [] ->
         exists v, In v vs /\ Version.versionName v = b /\
                   List.length (Version.formats v) = List.length ok /\
                   map VersionFormat.fileName (Version.formats v)
                   = map FileSystemHandle.name ok).
Proof.
  intros env dirHandle songId w Hfresh Hnone.
  unfold scanAndAddAudioFiles, groupFiles.
  set (handles := scanDirectoryForAudioFiles dirHandle).
  set (keyOf := fun h => getBaseFileName (FileSystemHandle.name h)).
  destruct (groupBy_spec keyOf handles) as (Hnd & _ & _).
  destruct (@processGroups_fresh env songId (groupBy keyOf handles) w Hfresh Hnd)
    as (w' & vs & Hrun & _ & Hvs & Hall).
  { intros v Hv Hs. exfalso. exact (Hnone v Hv Hs). }
  exists w', vs. split; [exact Hrun|]. split; [exact Hvs|].
  assert (Hnames : map Version.versionName vs
                   = map fst (filter (survives env) (groupBy keyOf handles))).
  { apply (Forall2_map_eq (R := groupVersion env songId)); [|exact Hall].
    intros g v ((_ & Hn & _) & _). exact Hn. }
  split; [rewrite Hnames; now apply kept_keys_NoDup|].
  split.
  { intros v Hv. destruct (Forall2_in_r _ Hall Hv) as (g & _ & (Hs & _) & _).
    exact Hs. }
  intros b ok ->. split.
  - intros Hempty v Hv Hb.
    destruct (Forall2_in_r _ Hall Hv) as ([k xs] & Hg & (_ & Hn & _) & _).
    simpl in Hn. apply filter_In in Hg. destruct Hg as (Hg & Hsurv).
    destruct (groupBy_group keyOf handles k xs Hg) as (Hxs & _).
    unfold survives in Hsurv. simpl in Hsurv.
    assert (Hk : k = b) by congruence.
    rewrite Hk in Hxs.
    change (keyIs keyOf b) with (baseIs b) in Hxs.
    rewrite Hxs, Hempty in Hsurv. discriminate.
  - intros Hne.
    destruct (extractable env (filter (baseIs b) handles)) as [|h0 hs0] eqn:Eok;
      [congruence|].
    assert (Hh0 : In h0 (filter (baseIs b) handles)).
    { assert (Hin : In h0 (extractable env (filter (baseIs b) handles)))
        by (rewrite Eok; now left).
      apply filter_In in Hin. apply Hin. }
    apply filter_In in Hh0. destruct Hh0 as (Hh0 & Hkey).
    unfold baseIs in Hkey. apply String.eqb_eq in Hkey.
    destruct (groupBy_covers keyOf handles h0 Hh0) as (xs & Hg).
    unfold keyOf at 1 in Hg. rewrite Hkey in Hg.
    destruct (groupBy_group keyOf handles b xs Hg) as (Hxs & _).
    change (keyIs keyOf b) with (baseIs b) in Hxs.
    assert (Hsurv : In (b, xs) (filter (survives env) (groupBy keyOf handles))).
    { apply filter_In. split; [exact Hg|].
      unfold survives. simpl. now rewrite Hxs, Eok. }
    destruct (Forall2_in_l _ Hall Hsurv) as (v & Hv & (_ & Hn & _) & Hfiles).
    simpl in Hn, Hfiles. rewrite Hxs, Eok in Hfiles.
    exists v. split; [exact Hv|]. split; [exact Hn|]. split; [|exact Hfiles].
    rewrite <- (length_map VersionFormat.fileName), Hfiles, length_map.
    reflexivity.
Qed.

Lemma numberToString_inj (a b : Z) : numberToString a = numberToString b -> a = b.
Proof.
  unfold numberToString. intros H.
  apply (f_equal NilEmpty.int_of_string) in H.
  rewrite !NilEmpty.isi in H. injection H as H.
  apply (f_equal Z.of_int) in H. now rewrite !DecimalZ.of_to in H.
Qed.

Lemma env0_UuidsFresh : UuidsFresh env0 world0.
Proof.
  split.
  - intros i j H. simpl in H. apply numberToString_inj in H. lia.
  - intros i. reflexivity.
Qed.

Definition audioFile (name : string) (entry : nat) : FileSystemHandle.t :=
  FileSystemHandle.mk FileSystemHandle.file name entry.

(** A folder with two takes; [getFile()] throws for [take1.wav]. *)
Definition folder0 : FileSystemDirectoryHandle.t :=
  FileSystemDirectoryHandle.mk "song"
    [audioFile "take1.mp3" 1; audioFile "take2.mp3" 2;
     audioFile "take1.flac" 3; audioFile "lyrics.txt" 4;
     audioFile "take1.wav" 5].

Definition env1 : Env.t :=
  Env.mk (fun h => if (FileSystemHandle.entry h =? 5)%nat
                   then Err "NotAllowedError"
                   else Ok (File.mk (FileSystemHandle.name h) 1000 0))
         (Env.parseBlob env0) (Env.randomUUID env0) (Env.dateNow env0)
         (Env.toISOString env0) (Env.getTime env0).

Lemma scan_creates_one_version_per_group_witness :
  exists w' vs,
    scanAndAddAudioFiles env1 folder0 1 world0 = (Ok tt, w') /\
    DB.versions (World.db w') = vs /\
    NoDup (map Version.versionName vs).
Proof.
  destruct (@scan_creates_one_version_per_group env1 folder0 1 world0)
    as (w' & vs & Hrun & Hvs & Hnd & _).
  - exact env0_UuidsFresh.
  - intros v [].
  - exists w', vs. simpl in Hvs. auto.
Defined.

Example scan_folder0 :
  map (fun v => (Version.versionName v,
                 map VersionFormat.fileName (Version.formats v)))
      (DB.versions (World.db (snd (scanAndAddAudioFiles env1 folder0 1 world0))))
  = [("take1", ["take1.mp3"; "take1.flac"]); ("take2", ["take2.mp3"])].
Proof. vm_compute. reflexivity. Qed.

(* ================================================================== *)
(** ** The invariant on [selectedFormatIndex] *)

Definition version0 : Version.t :=
  Version.mk 1 1 "take1" [fmt 1000 None] 0 false None "t0" "t0".

Definition worldV : World.t :=
  World.mk (DB.mk [] [version0] 2 [] [] [] []) 0 0.





(* ================================================================== *)
(** ** The Incremental Scan Merger *)

Section Merger.

Variable env : Env.t.

(** Every key in [ks] has a row in the registry. *)
Definition registered (ks : list string) (w : World.t) : Prop :=
  forall k, In k ks -> fileHandles_get k (World.db w) <> None.

(** A key that has a registry row is never what [serializeHandle]
    returns. *)
Lemma serializeHandle_never_returns_registered handle w k w1 ks :
  serializeHandle env handle w = (Ok k, w1) ->
  registered ks w ->
  includes ks k = false /\ registered ks w1.
Proof.
  intros Hser Hreg. apply serializeHandle_ok_inv in Hser.
  destruct Hser as (_ & Hnone & ->). split.
  - unfold includes. destruct (existsb (String.eqb k) ks) eqn:E; [|reflexivity].
    apply existsb_exists in E. destruct E as (k' & Hin & Heq).
    apply String.eqb_eq in Heq. subst k'. exfalso. exact (Hreg k Hin Hnone).
  - intros k' Hin. specialize (Hreg k' Hin). clear Hnone.
    unfold fileHandles_get in *. simpl. rewrite find_snoc.
    destruct (find _ (DB.fileHandles (World.db w))) eqn:Efind; [discriminate|].
    exfalso. now apply Hreg.
Qed.

Lemma extractFormatMetadata_registered fileHandle w r w' ks :
  extractFormatMetadata env fileHandle w = (r, w') ->
  registered ks w -> registered ks w'.
Proof.
  unfold extractFormatMetadata, tryCatch, bindM, getFileFromHandle, getFileSize,
    lift, ret.
  destruct (Env.getFile env fileHandle) as [file|e] eqn:Efile.
  - destruct (serializeHandle env fileHandle w) as [[k|e] w1] eqn:Eser.
    + unfold bindM. cbv beta iota.
      destruct (extractAudioMetadata_returns env file w1) as (am & Ham).
      rewrite Ham. intros H Hreg. injection H as _ <-.
      eapply serializeHandle_never_returns_registered; eassumption.
    + intros H Hreg. injection H as _ <-.
      rewrite serializeHandle_run in Eser. cbv zeta in Eser.
      destruct (fileHandles_get _ _); [|discriminate].
      injection Eser as _ <-. exact Hreg.
  - intros H Hreg. injection H as _ <-. exact Hreg.
Qed.

(** The one way a candidate is skipped: the key just generated for it is
    among the Version's keys. *)
Lemma mergeFormats_skips_known_key existing h hs acc w k w1 :
  serializeHandle env h w = (Ok k, w1) ->
  includes existing k = true ->
  mergeFormats env existing (h :: hs) acc w
  = mergeFormats env existing hs acc w1.
Proof.
  intros Hser Hknown. simpl. unfold bindM. now rewrite Hser, Hknown.
Qed.

(** With fresh UUIDs and a registry that holds the Version's keys, the loop
    of the merger skips nothing: every file that can be opened is appended
    again. *)
Lemma mergeFormats_fresh existing handles :
  forall acc w,
    UuidsFresh env w ->
    registered existing w ->
    exists fs w',
      mergeFormats env existing handles acc w
      = (Ok (fst acc ++ fs,
             (snd acc || negb (Nat.eqb (List.length fs) 0))%bool), w') /\
      sameVersions w w' /\
      map VersionFormat.fileName fs
      = map FileSystemHandle.name (filter (readable env) handles).
Proof.
  induction handles as [|h hs IH]; intros acc w Hfresh Hreg; simpl.
  - exists [], w. unfold ret. rewrite app_nil_r, orb_false_r.
    destruct acc. split; [reflexivity|]. split; [apply sameVersions_refl|reflexivity].
  - unfold bindM.
    destruct (@serializeHandle_fresh env h w Hfresh) as (w1 & Hser & Hf1 & Hs1 & _).
    rewrite Hser.
    destruct (@serializeHandle_never_returns_registered h w _ w1 existing Hser Hreg)
      as (Hskip & Hreg1).
    rewrite Hskip.
    pose proof (@extractFormatMetadata_fresh env h w1 Hf1) as Hstep.
    unfold readable at 1.
    destruct (Env.getFile env h) as [file|e] eqn:Efile.
    + destruct Hstep as (f & w2 & Hrun & Hf2 & Hs2 & _ & Hname & _).
      rewrite Hrun.
      pose proof (@extractFormatMetadata_registered h w1 _ w2 existing Hrun Hreg1) as Hreg2.
      destruct (IH (fst acc ++ [f], true) w2 Hf2 Hreg2) as (fs & w3 & Hrun3 & Hs3 & Hnames).
      exists (f :: fs), w3. rewrite Hrun3. simpl fst. simpl snd.
      rewrite <- app_assoc. simpl. rewrite orb_true_r.
      split; [reflexivity|]. split.
      * eapply sameVersions_trans; [|exact Hs3].
        eapply sameVersions_trans; eassumption.
      * now rewrite Hname, Hnames.
    + rewrite Hstep.
      destruct (IH acc w1 Hf1 Hreg1) as (fs & w3 & Hrun3 & Hs3 & Hnames).
      exists fs, w3. rewrite Hrun3.
      split; [reflexivity|]. split; [|exact Hnames].
      eapply sameVersions_trans; eassumption.
Qed.

(** So a rescan writes to an existing Version whenever the folder still
    holds a file of the group that can be opened, new or not. *)
Lemma addNewFormatsToVersion_fresh version handles w :
  UuidsFresh env w ->
  registered (map VersionFormat.fileHandle (Version.formats version)) w ->
  filter (readable env) handles <> [] ->
  exists w' fs modifiedAt,
    addNewFormatsToVersion env version handles w = (Ok tt, w') /\
    map VersionFormat.fileName fs
    = map FileSystemHandle.name (filter (readable env) handles) /\
    DB.versions (World.db w')
    = map (fun v => if Version.id v =? Version.id version
                    then mergedRow (Version.formats version ++ fs) modifiedAt v
                    else v)
          (DB.versions (World.db w)).
Proof.
  intros Hfresh Hreg Hne.
  unfold addNewFormatsToVersion, bindM.
  destruct (@mergeFormats_fresh _ handles (Version.formats version, false) w
              Hfresh Hreg) as (fs & w1 & Hrun & Hs1 & Hnames).
  rewrite Hrun. simpl fst. simpl snd.
  destruct fs as [|f fs].
  - simpl in Hnames. destruct (filter (readable env) handles); [congruence|discriminate].
  - simpl negb. unfold newDateISO, versions_update. cbv beta iota zeta.
    eexists. exists (f :: fs). eexists.
    split; [reflexivity|]. split; [exact Hnames|].
    simpl. destruct Hs1 as (Hv & _). now rewrite Hv.
Qed.

End Merger.

(** C1 at a concrete input: [folder0] is scanned twice in a row.  Nothing
    was added to the folder in between, yet the second scan appends
    [take1.mp3] and [take1.flac] to the Version [take1] a second time (and
    [take2.mp3] to [take2]) and stamps a new [modifiedAt]. *)
Theorem rescan_unchanged_folder_writes :
  exists w1 w2,
    scanAndAddAudioFiles env1 folder0 1 world0 = (Ok tt, w1) /\
    scanAndAddAudioFiles env1 folder0 1 w1 = (Ok tt, w2) /\
    map (fun v => (Version.versionName v,
                   map VersionFormat.fileName (Version.formats v),
                   Version.modifiedAt v))
        (DB.versions (World.db w1))
    = [("take1", ["take1.mp3"; "take1.flac"], "0");
       ("take2", ["take2.mp3"], "0")] /\
    map (fun v => (Version.versionName v,
                   map VersionFormat.fileName (Version.formats v),
                   Version.modifiedAt v))
        (DB.versions (World.db w2))
    = [("take1", ["take1.mp3"; "take1.flac"; "take1.mp3"; "take1.flac"], "2");
       ("take2", ["take2.mp3"; "take2.mp3"], "3")].
Proof.
  eexists. eexists. split; [vm_compute; reflexivity|].
  split; [vm_compute; reflexivity|].
  split; vm_compute; reflexivity.
Qed.

(* ================================================================== *)
(** ** Cascade deletion *)

Section CascadeRules.

Lemma filter_twice {A} (p q : A -> bool) (l : list A) :
  filter p (filter q l) = filter (fun x => q x && p x) l.
Proof.
  induction l as [|a l IH]; simpl; [reflexivity|].
  destruct (q a); simpl; [|exact IH].
  destruct (p a); now rewrite IH.
Qed.

Lemma filter_none {A} (p : A -> bool) (l : list A) :
  (forall x, In x l -> p x = false) -> filter p l = [].
Proof.
  induction l as [|a l IH]; intros H; simpl; [reflexivity|].
  rewrite (H a (or_introl eq_refl)). apply IH. intros x Hx. apply H. now right.
Qed.

Lemma filter_all {A} (p : A -> bool) (l : list A) :
  (forall x, In x l -> p x = true) -> filter p l = l.
Proof.
  induction l as [|a l IH]; intros H; simpl; [reflexivity|].
  rewrite (H a (or_introl eq_refl)). f_equal. apply IH.
  intros x Hx. apply H. now right.
Qed.

(** [x] is none of the ids the hook was fired for. *)
Definition spared (objIds : list Z) (x : Z) : bool :=
  forallb (fun objId => negb (x =? objId)) objIds.

(** What the [deleting] hooks of a batch of Versions leave behind, in a
    transaction that spans the three dependent tables. *)
Lemma hooks_fold (tx : transaction) (objIds : list Z) :
  spans tx versionTagsTable = true ->
  spans tx notesTable = true ->
  spans tx imagesTable = true ->
  forall deps,
    versions_hooks tx objIds deps
    = mkDependents
        (filter (fun vt => spared objIds (VersionTag.versionId vt))
                (dVersionTags deps))
        (filter (fun n => spared objIds (Note.versionId n)) (dNotes deps))
        (filter (fun i => spared objIds (Image.versionId i)) (dImages deps)).
Proof.
  intros Ht Hn Hi. unfold versions_hooks.
  induction objIds as [|objId objIds IH]; intros deps; simpl.
  - unfold spared. simpl.
    rewrite !filter_all by reflexivity. now destruct deps.
  - rewrite IH. unfold versions_hook_deleting. rewrite Ht, Hn, Hi. simpl.
    rewrite !filter_twice. reflexivity.
Qed.

Lemma spared_false (objIds : list Z) (x : Z) :
  In x objIds -> spared objIds x = false.
Proof.
  intros Hin. unfold spared.
  destruct (forallb _ objIds) eqn:E; [|reflexivity].
  rewrite forallb_forall in E. specialize (E x Hin).
  now rewrite Z.eqb_refl in E.
Qed.


(** Inside a transaction that spans every table, a delete on [versions]
    removes the doomed rows and every dependent row that names one of
    them. *)
Lemma versions_deleteWhere_spec (doomed : Version.t -> bool) (d : DB.t) :
  let d' := versions_deleteWhere upgradeTransaction doomed d in
  DB.versions d' = filter (fun v => negb (doomed v)) (DB.versions d) /\
  DB.songs d' = DB.songs d /\
  (forall v, In v (DB.versions d) -> doomed v = true ->
     getVersionTags (Version.id v) d' = [] /\
     getNotes (Version.id v) d' = [] /\
     getImages (Version.id v) d' = []).
Proof.
  cbv zeta. unfold versions_deleteWhere.
  change (spans upgradeTransaction versionsTable) with true. cbv iota zeta.
  rewrite hooks_fold by reflexivity. simpl.
  split; [reflexivity|]. split; [reflexivity|].
  intros v Hv Hd.
  assert (Hin : In (Version.id v) (map Version.id (filter doomed (DB.versions d))))
    by (apply in_map, filter_In; now split).
  pose proof (spared_false _ _ Hin) as Hsp.
  unfold getVersionTags, getNotes, getImages. simpl.
  rewrite !filter_twice.
  split; [|split]; apply filter_none; intros r _; apply andb_false_iff.
  - destruct (Z.eqb_spec (VersionTag.versionId r) (Version.id v)) as [->|];
      [now left|now right].
  - destruct (Z.eqb_spec (Note.versionId r) (Version.id v)) as [->|];
      [now left|now right].
  - destruct (Z.eqb_spec (Image.versionId r) (Version.id v)) as [->|];
      [now left|now right].
Qed.

(** What the hooks are written for: inside a transaction that spans every
    table, deleting a Song takes its Versions and their dependent rows with
    it. *)
Lemma songs_delete_in_spanning_transaction (d : DB.t) (song : Song.t) :
  In song (DB.songs d) ->
  exists d',
    songs_delete upgradeTransaction (Song.id song) d = Ok d' /\
    (forall s, In s (DB.songs d') -> Song.id s <> Song.id song) /\
    getVersions (Song.id song) d' = [] /\
    (forall v, In v (DB.versions d) -> Version.songId v = Song.id song ->
       ~ In v (DB.versions d') /\
       getVersionTags (Version.id v) d' = [] /\
       getNotes (Version.id v) d' = [] /\
       getImages (Version.id v) d' = []).
Proof.
  intros Hsong. unfold songs_delete.
  destruct (find (fun s => Song.id s =? Song.id song) (DB.songs d))
    as [obj|] eqn:Efind.
  - apply find_some in Efind. destruct Efind as (_ & Hobj).
    apply Z.eqb_eq in Hobj.
    unfold songs_hook_deleting. rewrite Hobj.
    destruct (versions_deleteWhere_spec
                (fun v => Version.songId v =? Song.id song) d)
      as (Hvs & Hsongs & Hgone).
    set (d1 := versions_deleteWhere _ _ d) in *. clearbody d1.
    eexists. split; [reflexivity|]. split; [|split].
    + simpl. intros s Hs. apply filter_In in Hs. destruct Hs as (_ & Hne).
      apply negb_true_iff in Hne. now apply Z.eqb_neq.
    + unfold getVersions. simpl. rewrite Hvs, filter_twice.
      apply filter_none. intros v _.
      now destruct (Version.songId v =? Song.id song).
    + intros v Hv Hs. split.
      * simpl. rewrite Hvs. intros Hin. apply filter_In in Hin.
        destruct Hin as (_ & Hne). apply negb_true_iff, Z.eqb_neq in Hne.
        contradiction.
      * apply (Hgone v Hv). now apply Z.eqb_eq.
  - exfalso. apply (find_none _ _ Efind) in Hsong.
    now rewrite Z.eqb_refl in Hsong.
Qed.

(** [removeSong] runs outside any transaction: the Song row goes and
    nothing else does; a key that no Song has makes the hook throw. *)
Lemma removeSong_run (songId : Z) (d : DB.t) :
  removeSong songId d
  = match find (fun s => Song.id s =? songId) (DB.songs d) with
    | Some _ =>
        Ok (DB.mk (filter (fun s => negb (Song.id s =? songId)) (DB.songs d))
                  (DB.versions d) (DB.versionsNextId d) (DB.versionTags d)
                  (DB.notes d) (DB.images d) (DB.fileHandles d))
    | None => Err "TypeError"
    end.
Proof.
  unfold removeSong, songs_delete.
  destruct (find (fun s => Song.id s =? songId) (DB.songs d)); reflexivity.
Qed.

End CascadeRules.

Definition note (id versionId : Z) : Note.t :=
  Note.mk id versionId "<p>note</p>" None "t" "t".

Definition plainVersion (id songId : Z) (name : string) : Version.t :=
  Version.mk id songId name [fmt 1000 None] 0 false None "t" "t".

(** One Song with two Versions, each with one tag link, two notes and one
    image, next to a second Song with one Version and one note. *)
Definition library : DB.t :=
  DB.mk [Song.mk 1 "demo" "h1" "t" None; Song.mk 2 "other" "h2" "t" None]
        [plainVersion 10 1 "take1"; plainVersion 11 1 "take2";
         plainVersion 12 2 "intro"]
        13
        [VersionTag.mk 10 7; VersionTag.mk 11 7]
        [note 1 10; note 2 10; note 3 11; note 4 11; note 5 12]
        [Image.mk 1 10 "a.png" None "t"; Image.mk 2 11 "b.png" None "t"]
        [].

(** C8 at a concrete input.  [removeSong 1] on a store where Song 1 has two
    Versions, each with one tag link, two notes and one image: the Song row
    goes, and both Versions, both tag links, the four notes and the two
    images stay, so the queries for them still answer.  The hooks that
    were to cascade delete from tables that the transaction of
    [db.songs.delete] does not span. *)
Theorem removeSong_leaves_versions_and_dependents :
  exists d',
    removeSong 1 library = Ok d' /\
    map Song.id (DB.songs d') = [2] /\
    getVersions 1 d' = [plainVersion 10 1 "take1"; plainVersion 11 1 "take2"] /\
    getVersionTags 10 d' = [VersionTag.mk 10 7] /\
    getVersionTags 11 d' = [VersionTag.mk 11 7] /\
    getNotes 10 d' = [note 1 10; note 2 10] /\
    getNotes 11 d' = [note 3 11; note 4 11] /\
    getImages 10 d' = [Image.mk 1 10 "a.png" None "t"] /\
    getImages 11 d' = [Image.mk 2 11 "b.png" None "t"].
Proof. eexists. repeat split; reflexivity. Qed.

Example removeSong_missing :
  removeSong 3 library = Err "TypeError".
Proof. reflexivity. Qed.

Example songs_delete_library_in_transaction :
  songs_delete upgradeTransaction 1 library
  = Ok (DB.mk [Song.mk 2 "other" "h2" "t" None] [plainVersion 12 2 "intro"] 13
              [] [note 5 12] [] []).
Proof. reflexivity. Qed.

(* ================================================================== *)
(** ** The group key of the upgrade and what [split] and [parseInt] read
       back from it *)

Section GroupKey.

Lemma digitsPrefix_uint (d : Decimal.uint) :
  digitsPrefix (NilEmpty.string_of_uint d) = NilEmpty.string_of_uint d.
Proof.
  induction d; simpl; try reflexivity;
    try match goal with
        | |- (if isDigit ?a then _ else _) = _ =>
            replace (isDigit a) with true by reflexivity
        end; now rewrite IHd.
Qed.

Lemma occurs_underscore_uint (d : Decimal.uint) :
  occurs "_" (NilEmpty.string_of_uint d) = false.
Proof. induction d; simpl; try reflexivity; exact IHd. Qed.

Lemma uint_first_char (d : Decimal.uint) :
  d <> Decimal.Nil ->
  exists a r,
    NilEmpty.string_of_uint d = String a r /\
    isSpace a = false /\ Ascii.eqb a "-" = false /\ Ascii.eqb a "+" = false.
Proof.
  intros Hne. destruct d; [congruence| | | | | | | | | |];
    simpl; eexists; eexists; repeat split; reflexivity.
Qed.

Lemma parseDigits_uint (d : Decimal.uint) :
  d <> Decimal.Nil ->
  parseDigits (NilEmpty.string_of_uint d) = Some (Z.of_N (N.of_uint d)).
Proof.
  intros Hne. unfold parseDigits. rewrite digitsPrefix_uint.
  destruct (NilEmpty.string_of_uint d) as [|a r] eqn:E.
  - destruct d; simpl in E; congruence.
  - rewrite <- E. unfold digitsToZ. now rewrite NilEmpty.usu.
Qed.

Lemma parseInt_uint (d : Decimal.uint) :
  d <> Decimal.Nil ->
  parseInt (NilEmpty.string_of_uint d) = Some (Z.of_N (N.of_uint d)).
Proof.
  intros Hne. pose proof (parseDigits_uint Hne) as Hdigits.
  destruct (uint_first_char Hne) as (a & r & E & Hsp & Hminus & Hplus).
  rewrite E in *. unfold parseInt. simpl. rewrite Hsp, Hminus, Hplus.
  exact Hdigits.
Qed.

(** [parseInt(String(n))] is [n]. *)
Lemma parseInt_numberToString (z : Z) : parseInt (numberToString z) = Some z.
Proof.
  unfold numberToString. destruct z as [|p|p]; simpl Z.to_int.
  - reflexivity.
  - simpl NilEmpty.string_of_int.
    rewrite parseInt_uint by apply DecimalPos.Unsigned.to_uint_nonnil.
    unfold N.of_uint. now rewrite DecimalPos.Unsigned.of_to.
  - simpl NilEmpty.string_of_int. unfold parseInt.
    change (trimStart (String "-" (NilEmpty.string_of_uint (Pos.to_uint p))))
      with (String "-" (NilEmpty.string_of_uint (Pos.to_uint p))).
    change (Ascii.eqb "-" "-") with true. cbv iota.
    rewrite parseDigits_uint by apply DecimalPos.Unsigned.to_uint_nonnil.
    unfold N.of_uint. now rewrite DecimalPos.Unsigned.of_to.
Qed.

Lemma occurs_underscore_number (z : Z) : occurs "_" (numberToString z) = false.
Proof.
  unfold numberToString. destruct z as [|p|p]; simpl Z.to_int;
    simpl NilEmpty.string_of_int; [reflexivity| |]; simpl;
    apply occurs_underscore_uint.
Qed.

Lemma append_snoc (s : string) (a : ascii) (t : string) :
  String.append (String.append s (String a EmptyString)) t
  = String.append s (String a t).
Proof. induction s as [|b s IH]; simpl; [reflexivity|now rewrite IH]. Qed.

Lemma append_empty_r (s : string) : String.append s EmptyString = s.
Proof. induction s as [|b s IH]; simpl; [reflexivity|now rewrite IH]. Qed.

Lemma splitAcc_no_separator (c : ascii) (s : string) :
  occurs c s = false ->
  forall cur, splitAcc c s cur = [String.append cur s].
Proof.
  induction s as [|a s IH]; simpl; intros H cur.
  - now rewrite append_empty_r.
  - apply orb_false_iff in H. destruct H as (Ha & Hs).
    rewrite Ha, IH by assumption. now rewrite append_snoc.
Qed.

Lemma splitAcc_first_separator (c : ascii) (s1 s2 : string) :
  occurs c s1 = false ->
  forall cur,
    splitAcc c (String.append s1 (String c s2)) cur
    = String.append cur s1 :: splitAcc c s2 EmptyString.
Proof.
  induction s1 as [|a s1 IH]; simpl; intros H cur.
  - rewrite Ascii.eqb_refl. now rewrite append_empty_r.
  - apply orb_false_iff in H. destruct H as (Ha & Hs).
    rewrite Ha, IH by assumption. now rewrite append_snoc.
Qed.

Lemma splitAcc_nonempty (c : ascii) (s : string) :
  forall cur, exists p ps, splitAcc c s cur = p :: ps.
Proof.
  induction s as [|a s IH]; simpl; intros cur.
  - now exists cur, [].
  - destruct (Ascii.eqb a c); [now exists cur, (splitAcc c s EmptyString)|apply IH].
Qed.

(** The pieces of a group key: the printed song id, then the pieces of the
    base name. *)
Lemma split_groupKey (v : V1Version.t) :
  split (groupKeyOf v) "_"
  = numberToString (V1Version.songId v)
    :: split (getBaseFileName (V1Version.fileName v)) "_".
Proof.
  unfold groupKeyOf, split. simpl String.append.
  rewrite splitAcc_first_separator by apply occurs_underscore_number.
  reflexivity.
Qed.

(** What [groupKey.split('_')] leaves of the base name in [versionName]:
    the part before its first underscore. *)
Definition firstPiece (baseName : string) : string :=
  hd EmptyString (split baseName "_").

Lemma firstPiece_no_underscore (baseName : string) :
  occurs "_" baseName = false -> firstPiece baseName = baseName.
Proof.
  intros H. unfold firstPiece, split.
  now rewrite splitAcc_no_separator.
Qed.

(** The group key determines the pair it was built from. *)
Lemma groupKeyOf_inj (v1 v2 : V1Version.t) :
  groupKeyOf v1 = groupKeyOf v2 ->
  V1Version.songId v1 = V1Version.songId v2 /\
  getBaseFileName (V1Version.fileName v1) = getBaseFileName (V1Version.fileName v2).
Proof.
  intros H.
  assert (Hs : split (groupKeyOf v1) "_" = split (groupKeyOf v2) "_") by now rewrite H.
  rewrite !split_groupKey in Hs. injection Hs as Hn _.
  apply numberToString_inj in Hn. split; [exact Hn|].
  unfold groupKeyOf in H. rewrite Hn in H.
  revert H. generalize (numberToString (V1Version.songId v2)).
  intros n. induction n as [|a n IH]; simpl; intros H.
  - now injection H.
  - injection H as H. now apply IH.
Qed.

Variable env : Env.t.
Variable registry : list FileHandleRecord.t.

(** The row the upgrade writes for a group. *)
Definition groupedRow (newId : Z) (members : list V1Version.t)
           (nv : Version.t) : Prop :=
  Version.id nv = newId /\
  Version.formats nv = map (toFormat env registry) members /\
  policyFresh nv /\
  (forall first, hd_error members = Some first ->
     Version.songId nv = V1Version.songId first /\
     Version.versionName nv
     = firstPiece (getBaseFileName (V1Version.fileName first)) /\
     Version.rating nv = V1Version.rating first /\
     Version.createdAt nv = V1Version.createdAt first).

(** A turn of the loop over the groups cannot fail on a group that
    [versionGroups] built. *)
Lemma migrateGroup_ok (st : created) (first : V1Version.t)
      (rest : list V1Version.t) :
  exists nv,
    migrateGroup env registry st (groupKeyOf first, first :: rest)
    = Ok (mkCreated (newVersions st ++ [nv]) (nextId st + 1)
            (fold_left (fun m oldVersion =>
                          mapSet (V1Version.id oldVersion) (nextId st) m)
                       (first :: rest) (newVersionIdMap st))) /\
    groupedRow (nextId st) (first :: rest) nv.
Proof.
  unfold migrateGroup. rewrite split_groupKey.
  destruct (splitAcc_nonempty "_" (getBaseFileName (V1Version.fileName first))
                              EmptyString) as (p & ps & Hsplit).
  unfold split at 1. rewrite Hsplit.
  rewrite parseInt_numberToString.
  set (formats := map (toFormat env registry) (first :: rest)).
  assert (Hne : formats <> []) by discriminate.
  pose proof (findSmallestFormat_lt_length Hne) as Hlt.
  destruct (nth_error formats (findSmallestFormat formats)) as [selected|] eqn:Enth.
  - eexists. split; [reflexivity|].
    unfold groupedRow, policyFresh. simpl.
    split; [reflexivity|]. split; [reflexivity|]. split; [auto|].
    intros first' E. injection E as <-.
    unfold firstPiece, split. rewrite Hsplit. simpl. auto.
  - apply nth_error_None in Enth. lia.
Qed.

End GroupKey.

(* ================================================================== *)
(** ** The upgrade: [newVersionIdMap] *)

Section IdMap.

Lemma mapSet_in_same (k v : Z) (m : list (Z * Z)) : In (k, v) (mapSet k v m).
Proof.
  induction m as [|[k' v'] m IH]; simpl; [now left|].
  destruct (Z.eqb_spec k' k) as [->|]; [now left|now right].
Qed.

Lemma mapSet_in_other (k v : Z) (m : list (Z * Z)) (k' v' : Z) :
  k' <> k -> In (k', v') m -> In (k', v') (mapSet k v m).
Proof.
  intros Hne. induction m as [|[k0 v0] m IH]; simpl; [intros []|].
  intros [E|Hin].
  - injection E as -> ->.
    destruct (Z.eqb_spec k' k); [contradiction|now left].
  - destruct (Z.eqb_spec k0 k); right; [exact Hin|now apply IH].
Qed.

Lemma mapSet_in_inv (k v : Z) (m : list (Z * Z)) (k' v' : Z) :
  In (k', v') (mapSet k v m) -> (k' = k /\ v' = v) \/ In (k', v') m.
Proof.
  induction m as [|[k0 v0] m IH]; simpl.
  - intros [E|[]]. injection E as <- <-. now left.
  - destruct (Z.eqb_spec k0 k) as [->|Hne]; intros [E|Hin].
    + injection E as <- <-. now left.
    + right. now right.
    + right. now left.
    + destruct (IH Hin) as [H|H]; [now left|right; now right].
Qed.

Lemma mapSet_keys (k v : Z) (m : list (Z * Z)) (k' : Z) :
  In k' (map fst (mapSet k v m)) -> k' = k \/ In k' (map fst m).
Proof.
  intros Hin. apply in_map_iff in Hin. destruct Hin as ([a b] & <- & Hin).
  simpl. destruct (mapSet_in_inv _ _ _ _ _ Hin) as [(-> & _)|H]; [now left|].
  right. now apply (in_map fst) in H.
Qed.

Lemma mapSet_NoDup (k v : Z) (m : list (Z * Z)) :
  NoDup (map fst m) -> NoDup (map fst (mapSet k v m)).
Proof.
  induction m as [|[k0 v0] m IH]; simpl; intros Hnd.
  - repeat constructor. intros [].
  - inversion Hnd as [|? ? Hnotin Hnd']; subst.
    destruct (Z.eqb_spec k0 k) as [->|Hne]; simpl.
    + now constructor.
    + constructor; [|now apply IH].
      intros Hin. apply mapSet_keys in Hin. destruct Hin; [congruence|contradiction].
Qed.

(** [for (const oldVersion of groupVersions) newVersionIdMap.set(...)] *)
Definition setAll (members : list V1Version.t) (newId : Z) (m : list (Z * Z))
  : list (Z * Z) :=
  fold_left (fun m oldVersion => mapSet (V1Version.id oldVersion) newId m)
            members m.

Lemma setAll_keeps_value members newId :
  forall m k, In (k, newId) m -> In (k, newId) (setAll members newId m).
Proof.
  induction members as [|v vs IH]; intros m k Hin; simpl; [exact Hin|].
  apply IH. destruct (Z.eq_dec k (V1Version.id v)) as [->|Hne].
  - apply mapSet_in_same.
  - now apply mapSet_in_other.
Qed.

Lemma setAll_member members newId :
  forall m v, In v members -> In (V1Version.id v, newId) (setAll members newId m).
Proof.
  induction members as [|v0 vs IH]; intros m v Hin; simpl; [destruct Hin|].
  destruct Hin as [->|Hin].
  - apply setAll_keeps_value. apply mapSet_in_same.
  - now apply IH.
Qed.

Lemma setAll_other members newId :
  forall m k x,
    (forall v, In v members -> V1Version.id v <> k) ->
    In (k, x) m -> In (k, x) (setAll members newId m).
Proof.
  induction members as [|v0 vs IH]; intros m k x Hne Hin; simpl; [exact Hin|].
  apply IH.
  - intros v Hv. apply Hne. now right.
  - apply mapSet_in_other; [|exact Hin].
    intros E. apply (Hne v0); [now left|now symmetry].
Qed.

Lemma setAll_inv members newId :
  forall m k x,
    In (k, x) (setAll members newId m) ->
    (x = newId /\ exists v, In v members /\ V1Version.id v = k) \/ In (k, x) m.
Proof.
  induction members as [|v0 vs IH]; intros m k x Hin; simpl in Hin; [now right|].
  destruct (IH _ _ _ Hin) as [(-> & v & Hv & Hk)|H].
  - left. split; [reflexivity|]. exists v. split; [now right|exact Hk].
  - destruct (mapSet_in_inv _ _ _ _ _ H) as [(-> & ->)|H'].
    + left. split; [reflexivity|]. exists v0. split; [now left|reflexivity].
    + now right.
Qed.

Lemma setAll_NoDup members newId :
  forall m, NoDup (map fst m) -> NoDup (map fst (setAll members newId m)).
Proof.
  induction members as [|v0 vs IH]; intros m Hnd; simpl; [exact Hnd|].
  apply IH. now apply mapSet_NoDup.
Qed.

End IdMap.

(* ================================================================== *)
(** ** The upgrade: the dependent tables *)

Section RemapTables.

(** An entry whose old id no dependent row names changes nothing. *)
Lemma remapEntry_untouched (deps : dependents) (oldId newId : Z) :
  (forall vt, In vt (dVersionTags deps) -> VersionTag.versionId vt <> oldId) ->
  (forall n, In n (dNotes deps) -> Note.versionId n <> oldId) ->
  (forall i, In i (dImages deps) -> Image.versionId i <> oldId) ->
  remapEntry deps (oldId, newId) = Ok deps.
Proof.
  intros Ht Hn Hi. unfold remapEntry.
  rewrite (@filter_none _ (fun vt => VersionTag.versionId vt =? oldId)).
  2:{ intros vt Hvt. apply Z.eqb_neq. now apply Ht. }
  cbn [remapVersionTags JS.bind].
  assert (En : map (remapNote oldId newId) (dNotes deps) = dNotes deps).
  { rewrite <- (map_id (dNotes deps)) at 2. apply map_ext_in. intros n Hin.
    unfold remapNote. destruct (Z.eqb_spec (Note.versionId n) oldId) as [E|_];
      [|reflexivity].
    now contradiction (Hn n Hin). }
  assert (Ei : map (remapImage oldId newId) (dImages deps) = dImages deps).
  { rewrite <- (map_id (dImages deps)) at 2. apply map_ext_in. intros i Hin.
    unfold remapImage. destruct (Z.eqb_spec (Image.versionId i) oldId) as [E|_];
      [|reflexivity].
    now contradiction (Hi i Hin). }
  rewrite En, Ei. now destruct deps.
Qed.

(** The loop over [newVersionIdMap] finds nothing to do when no dependent
    row names a key of the map. *)
Lemma remapEntries_untouched (m : list (Z * Z)) (deps : dependents) :
  (forall vt, In vt (dVersionTags deps) ->
              ~ In (VersionTag.versionId vt) (map fst m)) ->
  (forall n, In n (dNotes deps) -> ~ In (Note.versionId n) (map fst m)) ->
  (forall i, In i (dImages deps) -> ~ In (Image.versionId i) (map fst m)) ->
  remapEntries m deps = Ok deps.
Proof.
  induction m as [|[o n] m IH]; intros Ht Hn Hi; cbn [remapEntries];
    [reflexivity|].
  rewrite remapEntry_untouched.
  - cbn [JS.bind]. apply IH.
    + intros vt Hvt Hk. apply (Ht vt Hvt). now right.
    + intros x Hx Hk. apply (Hn x Hx). now right.
    + intros x Hx Hk. apply (Hi x Hx). now right.
  - intros vt Hvt E. apply (Ht vt Hvt). now left.
  - intros x Hx E. apply (Hn x Hx). now left.
  - intros x Hx E. apply (Hi x Hx). now left.
Qed.

(** What [clear()] leaves of the dependent tables: the rows that name no
    legacy version. *)
Definition orphans (old : DBv1.t) : dependents :=
  let ids := map V1Version.id (DBv1.versions old) in
  mkDependents
    (filter (fun vt => spared ids (VersionTag.versionId vt)) (DBv1.versionTags old))
    (filter (fun n => spared ids (Note.versionId n)) (DBv1.notes old))
    (filter (fun i => spared ids (Image.versionId i)) (DBv1.images old)).

Lemma versions_clear_orphans (old : DBv1.t) :
  versions_clear (DBv1.versions old)
    (mkDependents (DBv1.versionTags old) (DBv1.notes old) (DBv1.images old))
  = orphans old.
Proof. unfold versions_clear. now rewrite hooks_fold. Qed.

Lemma spared_not_in (objIds : list Z) (x : Z) :
  spared objIds x = true -> ~ In x objIds.
Proof.
  intros Hsp Hin. rewrite (spared_false _ _ Hin) in Hsp. discriminate.
Qed.

End RemapTables.

(* ================================================================== *)
(** ** The upgrade: from legacy rows to grouped rows *)

Section Upgrade.

Variable env : Env.t.
Variable registry : list FileHandleRecord.t.

(** The groups that [versionGroups] builds: non-empty, keyed by the key of
    their first member. *)
Definition wfGroups (gs : list (string * list V1Version.t)) : Prop :=
  Forall (fun g => exists first rest,
              snd g = first :: rest /\ fst g = groupKeyOf first) gs.

Lemma versionGroups_wf (oldVersions : list V1Version.t) :
  wfGroups (versionGroups oldVersions).
Proof.
  unfold wfGroups, versionGroups. apply Forall_forall. intros [k xs] Hin.
  destruct (groupBy_group groupKeyOf oldVersions k xs Hin) as (Hxs & Hne).
  destruct xs as [|first rest]; [congruence|].
  exists first, rest. split; [reflexivity|]. simpl.
  assert (Hf : In first (filter (keyIs groupKeyOf k) oldVersions))
    by (rewrite <- Hxs; now left).
  apply filter_In in Hf. destruct Hf as (_ & Hk).
  unfold keyIs in Hk. apply String.eqb_eq in Hk. now symmetry.
Qed.

Lemma migrateGroups_ok (gs : list (string * list V1Version.t)) :
  wfGroups gs ->
  forall st, exists st', migrateGroups env registry gs st = Ok st'.
Proof.
  induction gs as [|[k members] gs IH]; intros Hwf st; cbn [migrateGroups].
  - now exists st.
  - inversion Hwf as [|? ? (first & rest & Hm & Hk) Hwf']; subst.
    simpl in Hm, Hk. subst members k.
    destruct (migrateGroup_ok env registry st first rest) as (nv & Hrun & _).
    rewrite Hrun. cbn [JS.bind]. now apply IH.
Qed.

(** The keys of [newVersionIdMap] are ids of legacy rows. *)
Lemma migrateGroups_keys (gs : list (string * list V1Version.t)) :
  wfGroups gs ->
  forall st st',
    migrateGroups env registry gs st = Ok st' ->
    forall k, In k (map fst (newVersionIdMap st')) ->
      In k (map fst (newVersionIdMap st)) \/
      In k (map V1Version.id (List.concat (map snd gs))).
Proof.
  induction gs as [|[key members] gs IH]; intros Hwf st st' Hrun k Hk;
    cbn [migrateGroups] in Hrun.
  - injection Hrun as <-. now left.
  - inversion Hwf as [|? ? (first & rest & Hm & Hkey) Hwf']; subst.
    simpl in Hm, Hkey. subst members key.
    destruct (migrateGroup_ok env registry st first rest) as (nv & Hstep & _).
    rewrite Hstep in Hrun. cbn [JS.bind] in Hrun.
    change (List.concat (map snd ((groupKeyOf first, first :: rest) :: gs)))
      with ((first :: rest) ++ List.concat (map snd gs)).
    rewrite map_app, in_app_iff.
    destruct (IH Hwf' _ _ Hrun k Hk) as [Hin|Hin]; [|right; now right].
    cbn [newVersionIdMap] in Hin. apply in_map_iff in Hin.
    destruct Hin as ([o n] & <- & Hin). cbn [fst].
    change (fold_left _ (first :: rest) (newVersionIdMap st))
      with (setAll (first :: rest) (nextId st) (newVersionIdMap st)) in Hin.
    apply setAll_inv in Hin. destruct Hin as [(_ & v & Hv & <-)|Hin].
    + right. left. exact (in_map V1Version.id _ _ Hv).
    + left. exact (in_map fst _ _ Hin).
Qed.

End Upgrade.

Section UpgradeRows.

Variable env : Env.t.

(** One grouped row per group, in the order of the groups. *)
Lemma migrateGroups_rows registry (gs : list (string * list V1Version.t)) :
  wfGroups gs ->
  forall st st',
    migrateGroups env registry gs st = Ok st' ->
    exists nvs,
      newVersions st' = newVersions st ++ nvs /\
      Forall2 (fun g nv => exists newId, groupedRow env registry newId (snd g) nv)
              gs nvs.
Proof.
  induction gs as [|[k members] gs IH]; intros Hwf st st' Hrun;
    cbn [migrateGroups] in Hrun.
  - injection Hrun as <-. exists []. rewrite app_nil_r. split; [reflexivity|constructor].
  - inversion Hwf as [|? ? (first & rest & Hm & Hk) Hwf']; subst.
    simpl in Hm, Hk. subst members k.
    destruct (migrateGroup_ok env registry st first rest) as (nv & Hstep & Hrow).
    rewrite Hstep in Hrun. cbn [JS.bind] in Hrun.
    destruct (IH Hwf' _ _ Hrun) as (nvs & Hnvs & Hall).
    exists (nv :: nvs). split.
    + rewrite Hnvs. cbn [newVersions]. now rewrite <- app_assoc.
    + constructor; [|exact Hall]. now exists (nextId st).
Qed.

(** The upgrade always completes.  The rows of the dependent tables that
    named a legacy version went with [clear()], so the loop over
    [newVersionIdMap] finds none to remap; what is left of the three tables
    is what named no legacy version. *)
Lemma upgradeToV2_run (old : DBv1.t) :
  exists st,
    migrateGroups env (DBv1.fileHandles old) (versionGroups (DBv1.versions old))
                  (mkCreated [] (DBv1.versionsNextId old) []) = Ok st /\
    upgradeToV2 env old
    = Ok (DB.mk (DBv1.songs old) (newVersions st) (nextId st)
                (dVersionTags (orphans old)) (dNotes (orphans old))
                (dImages (orphans old)) (DBv1.fileHandles old)).
Proof.
  destruct (@migrateGroups_ok env (DBv1.fileHandles old) _
              (versionGroups_wf (DBv1.versions old))
              (mkCreated [] (DBv1.versionsNextId old) [])) as (st & Hst).
  exists st. split; [exact Hst|].
  unfold upgradeToV2. cbv zeta. rewrite Hst. cbn [JS.bind].
  rewrite versions_clear_orphans.
  assert (Hkeys : forall k, In k (map fst (newVersionIdMap st)) ->
                            In k (map V1Version.id (DBv1.versions old))).
  { intros k Hk.
    destruct (@migrateGroups_keys env (DBv1.fileHandles old) _
                (versionGroups_wf (DBv1.versions old)) _ _ Hst k Hk) as [[]|Hin].
    apply in_map_iff in Hin. destruct Hin as (v & <- & Hv). apply in_map.
    apply Permutation_in with (l := List.concat
                                      (map snd (versionGroups (DBv1.versions old))));
      [|exact Hv].
    apply groupBy_members. }
  rewrite remapEntries_untouched; [reflexivity| | |].
  - intros vt Hvt Hk. cbn [orphans dVersionTags] in Hvt.
    apply filter_In in Hvt. destruct Hvt as (_ & Hsp).
    exact (spared_not_in _ _ Hsp (Hkeys _ Hk)).
  - intros n Hn Hk. cbn [orphans dNotes] in Hn.
    apply filter_In in Hn. destruct Hn as (_ & Hsp).
    exact (spared_not_in _ _ Hsp (Hkeys _ Hk)).
  - intros i Hi Hk. cbn [orphans dImages] in Hi.
    apply filter_In in Hi. destruct Hi as (_ & Hsp).
    exact (spared_not_in _ _ Hsp (Hkeys _ Hk)).
Qed.

Lemma upgradeToV2_rows (old : DBv1.t) (d' : DB.t) :
  upgradeToV2 env old = Ok d' ->
  Forall2 (fun g nv => exists newId,
               groupedRow env (DBv1.fileHandles old) newId (snd g) nv)
          (versionGroups (DBv1.versions old)) (DB.versions d').
Proof.
  destruct (upgradeToV2_run old) as (st & Egroups & ->).
  intros H. injection H as <-. cbn [DB.versions].
  destruct (@migrateGroups_rows (DBv1.fileHandles old) _ (versionGroups_wf _) _ _ Egroups)
    as (nvs & Hnvs & Hall).
  cbn [newVersions] in Hnvs. simpl in Hnvs. now rewrite Hnvs.
Qed.

End UpgradeRows.

Definition legacyRow (id songId : Z) (fileName : string) : V1Version.t :=
  V1Version.mk id songId (String.append "h" (numberToString id)) fileName
               None None None (Some "mp3") "t" "t".

(** A version-1 store: [take1] in two formats and [take2] in one, with tag
    links, notes and an image on the individual files. *)
Definition legacy0 : DBv1.t :=
  DBv1.mk [Song.mk 1 "demo" "h0" "t" None]
          [legacyRow 1 1 "take1.mp3"; legacyRow 2 1 "take1.flac";
           legacyRow 3 1 "take2.mp3"]
          4
          [VersionTag.mk 1 7; VersionTag.mk 3 7]
          [note 1 1; note 2 2; note 3 3]
          [Image.mk 1 2 "a.png" None "t"]
          [].

Definition upgraded0 : DB.t :=
  Eval vm_compute in
    match upgradeToV2 env0 legacy0 with
    | Ok d => d
    | Err _ => emptyDB
    end.

(** C3 at a concrete input.  A version-1 store with three files, two tag
    links, three notes and one image, every one of them on a file of the
    store: the upgrade completes and writes the two grouped Versions, and
    the three dependent tables come out empty.  No row was remapped:
    [clear()] fired the [deleting] hook of [versions] for every legacy row,
    inside the upgrade transaction, before the loop that was to remap
    them. *)
Theorem upgradeToV2_deletes_dependents :
  upgradeToV2 env0 legacy0 = Ok upgraded0 /\
  map (fun v => (Version.id v, Version.versionName v,
                 map VersionFormat.fileName (Version.formats v)))
      (DB.versions upgraded0)
  = [(4, "take1", ["take1.mp3"; "take1.flac"]); (5, "take2", ["take2.mp3"])] /\
  DBv1.versionTags legacy0 = [VersionTag.mk 1 7; VersionTag.mk 3 7] /\
  DB.versionTags upgraded0 = [] /\
  DBv1.notes legacy0 = [note 1 1; note 2 2; note 3 3] /\
  DB.notes upgraded0 = [] /\
  DBv1.images legacy0 = [Image.mk 1 2 "a.png" None "t"] /\
  DB.images upgraded0 = [].
Proof. repeat split; vm_compute; reflexivity. Qed.

(** A tag shared by two files of one take does not stop the upgrade: both
    links are gone before the loop that would have given them one key. *)
Example upgradeToV2_shared_tag :
  exists d',
    upgradeToV2 env0
      (DBv1.mk [] [legacyRow 1 1 "take1.mp3"; legacyRow 2 1 "take1.flac"] 3
               [VersionTag.mk 1 7; VersionTag.mk 2 7] [] [] [])
    = Ok d' /\
    DB.versionTags d' = [].
Proof. eexists. split; vm_compute; reflexivity. Qed.

(** A row that names no legacy version is kept as it is. *)
Example upgradeToV2_keeps_orphans :
  exists d',
    upgradeToV2 env0
      (DBv1.mk [] [legacyRow 1 1 "take1.mp3"] 2
               [VersionTag.mk 1 7; VersionTag.mk 9 7] [note 1 1; note 2 9] [] [])
    = Ok d' /\
    DB.versionTags d' = [VersionTag.mk 9 7] /\
    DB.notes d' = [note 2 9].
Proof. eexists. repeat split; vm_compute; reflexivity. Qed.

(** Two legacy rows of Song 1 whose base names hold an underscore. *)
Definition legacyUnderscore : DBv1.t :=
  DBv1.mk [Song.mk 1 "demo" "h0" "t" None]
          [legacyRow 1 1 "my_song.mp3"; legacyRow 2 1 "my_take.mp3"]
          3 [] [] [] [].

(** C2 at a concrete input: the partitions are right, the names are not.
    [my_song.mp3] and [my_take.mp3] have the base names [my_song] and
    [my_take] and fall into two partitions, but both grouped Versions get
    the [versionName] [my]. *)
Theorem upgradeToV2_underscore_versionName :
  map fst (versionGroups (DBv1.versions legacyUnderscore))
  = ["1_my_song"; "1_my_take"] /\
  getBaseFileName "my_song.mp3" = "my_song" /\
  getBaseFileName "my_take.mp3" = "my_take" /\
  exists d',
    upgradeToV2 env0 legacyUnderscore = Ok d' /\
    map (fun v => (Version.songId v, Version.versionName v,
                   map VersionFormat.fileName (Version.formats v)))
        (DB.versions d')
    = [(1, "my", ["my_song.mp3"]); (1, "my", ["my_take.mp3"])].
Proof.
  repeat split; try reflexivity.
  eexists. split; vm_compute; reflexivity.
Qed.

(** What does hold for every partition: the songId is the partition's, and
    the [versionName] is the base name up to its first underscore, hence
    the base name itself when it has none. *)
Lemma upgradeToV2_names (env : Env.t) (old : DBv1.t) (d' : DB.t) :
  upgradeToV2 env old = Ok d' ->
  Forall2 (fun g nv =>
             forall first, hd_error (snd g) = Some first ->
               fst g = groupKeyOf first /\
               Version.songId nv = V1Version.songId first /\
               Version.versionName nv
               = firstPiece (getBaseFileName (V1Version.fileName first)) /\
               (occurs "_" (getBaseFileName (V1Version.fileName first)) = false ->
                Version.versionName nv
                = getBaseFileName (V1Version.fileName first)))
          (versionGroups (DBv1.versions old)) (DB.versions d').
Proof.
  intros Hrun. apply upgradeToV2_rows in Hrun.
  pose proof (versionGroups_wf (DBv1.versions old)) as Hwf.
  unfold wfGroups in Hwf. rewrite Forall_forall in Hwf.
  induction Hrun as [|g nv gs nvs (newId & Hrow) _ IH]; constructor.
  - intros first Hfirst.
    destruct (Hwf g (or_introl eq_refl)) as (f & rest & Hm & Hk).
    rewrite Hm in Hfirst. injection Hfirst as <-.
    destruct Hrow as (_ & _ & _ & Hfields).
    destruct (Hfields f) as (Hs & Hn & _); [now rewrite Hm|].
    split; [exact Hk|]. split; [exact Hs|]. split; [exact Hn|].
    intros Hno. now rewrite Hn, firstPiece_no_underscore.
  - apply IH. intros x Hx. apply Hwf. now right.
Qed.

(* ================================================================== *)
(** * Further properties of the library code *)

(* ================================================================== *)
(** ** The handle registry *)

Section RegistryLookup.

Lemma deserializeHandle_snoc (d : DB.t) (u : nat) (t : nat)
      (k k' : string) (handle : FileSystemHandle.t) :
  deserializeHandle k'
    (World.mk (DB.with_fileHandles
                 (DB.fileHandles d ++ [FileHandleRecord.mk k handle]) d) u t)
  = match fileHandles_get k' d with
    | Some record => Some (FileHandleRecord.handle record)
    | None => if String.eqb k k' then Some handle else None
    end.
Proof.
  unfold deserializeHandle, fileHandles_get. simpl.
  rewrite find_snoc. destruct (find _ (DB.fileHandles d)); [reflexivity|].
  simpl. now destruct (String.eqb k k').
Qed.

End RegistryLookup.

(** X1.  [deserializeHandle] inverts [serializeHandle], and registering is
    append-only: the key a successful call returns did not resolve before
    and resolves to the registered handle afterwards, while every other key
    resolves exactly as it did; a call that throws leaves the store as it
    was, and it throws only because the drawn UUID is already a key; a UUID
    that is not yet a key always registers. *)
Theorem serializeHandle_deserializeHandle_round_trip :
  forall (env : Env.t) (handle : FileSystemHandle.t) (w : World.t),
    (forall k w1,
        serializeHandle env handle w = (Ok k, w1) ->
        deserializeHandle k w = None /\
        deserializeHandle k w1 = Some handle /\
        (forall k', k' <> k -> deserializeHandle k' w1 = deserializeHandle k' w)) /\
    (forall e w1,
        serializeHandle env handle w = (Err e, w1) ->
        World.db w1 = World.db w /\
        deserializeHandle (Env.randomUUID env (World.uuidsDrawn w)) w <> None) /\
    (deserializeHandle (Env.randomUUID env (World.uuidsDrawn w)) w = None ->
     exists w1,
       serializeHandle env handle w
       = (Ok (Env.randomUUID env (World.uuidsDrawn w)), w1)).
Proof.
  intros env handle w. split; [|split].
  - intros k w1 H. apply serializeHandle_ok_inv in H.
    destruct H as (_ & Hfree & ->).
    split; [unfold deserializeHandle; now rewrite Hfree|].
    split.
    + rewrite deserializeHandle_snoc, Hfree. now rewrite String.eqb_refl.
    + intros k' Hne. rewrite deserializeHandle_snoc. unfold deserializeHandle.
      destruct (fileHandles_get k' (World.db w)); [reflexivity|].
      destruct (String.eqb_spec k k') as [->|_]; [congruence|reflexivity].
  - intros e w1. rewrite serializeHandle_run. cbv zeta. unfold deserializeHandle.
    destruct (fileHandles_get _ _) eqn:E; [|discriminate].
    intros H. injection H as _ <-. split; [reflexivity|discriminate].
  - unfold deserializeHandle. intros H.
    rewrite serializeHandle_run. cbv zeta.
    destruct (fileHandles_get _ _); [discriminate|]. eexists. reflexivity.
Qed.

(* ================================================================== *)
(** ** File names: base name and extension *)

Section FileNames.

Lemma last_occurrence (c : ascii) (s : string) :
  occurs c s = true ->
  exists s1 s2, s = String.append s1 (String c s2) /\ occurs c s2 = false.
Proof.
  induction s as [|a s IH]; simpl; [discriminate|].
  destruct (occurs c s) eqn:Es.
  - intros _. destruct (IH eq_refl) as (s1 & s2 & -> & H2).
    exists (String a s1), s2. split; [reflexivity|exact H2].
  - rewrite orb_false_r. intros Ha. apply Ascii.eqb_eq in Ha. subst a.
    exists EmptyString, s. split; [reflexivity|exact Es].
Qed.

Lemma string_pairs (P : string -> Prop) :
  P EmptyString ->
  (forall a, P (String a EmptyString)) ->
  (forall a b s, P s -> P (String b s) -> P (String a (String b s))) ->
  forall s, P s.
Proof.
  intros H0 H1 H2.
  assert (H : forall s, P s /\ forall a, P (String a s)).
  { induction s as [|b s (IHs & IHc)].
    - split; [exact H0|exact H1].
    - split; [apply IHc|]. intros a. apply H2; [exact IHs|apply IHc]. }
  intros s. apply H.
Qed.

Lemma toLowerCase_dot (ext : string) :
  toLowerCase (String "." ext) = String "." (toLowerCase ext).
Proof. destruct ext; reflexivity. Qed.

(** Lower-casing does not reach across a dot. *)
Lemma toLowerCase_around_dot (base ext : string) :
  toLowerCase (String.append base (String "." ext))
  = String.append (toLowerCase base) (String "." (toLowerCase ext)).
Proof.
  revert base. apply string_pairs.
  - apply toLowerCase_dot.
  - intros a. change (String.append (String a EmptyString) (String "." ext))
      with (String a (String "." ext)).
    change (toLowerCase (String a (String "." ext)))
      with (if isDottedCapitalI a "."
            then dottedSmallI (toLowerCase ext)
            else String (lowerAscii a) (toLowerCase (String "." ext))).
    unfold isDottedCapitalI. rewrite andb_false_r, toLowerCase_dot. reflexivity.
  - intros a b s IHs IHb.
    change (String.append (String a (String b s)) (String "." ext))
      with (String a (String b (String.append s (String "." ext)))).
    change (toLowerCase (String a (String b (String.append s (String "." ext)))))
      with (if isDottedCapitalI a b
            then dottedSmallI (toLowerCase (String.append s (String "." ext)))
            else String (lowerAscii a)
                        (toLowerCase (String b (String.append s (String "." ext))))).
    change (toLowerCase (String a (String b s)))
      with (if isDottedCapitalI a b
            then dottedSmallI (toLowerCase s)
            else String (lowerAscii a) (toLowerCase (String b s))).
    destruct (isDottedCapitalI a b).
    + rewrite IHs. reflexivity.
    + change (String b (String.append s (String "." ext)))
        with (String.append (String b s) (String "." ext)).
      rewrite IHb. reflexivity.
Qed.

(** Lower-casing never shortens, and keeps the length of ASCII text. *)
Lemma toLowerCase_length (s : string) :
  (String.length s <= String.length (toLowerCase s))%nat.
Proof.
  revert s. apply string_pairs.
  - reflexivity.
  - intros a. reflexivity.
  - intros a b s IHs IHb.
    change (toLowerCase (String a (String b s)))
      with (if isDottedCapitalI a b
            then dottedSmallI (toLowerCase s)
            else String (lowerAscii a) (toLowerCase (String b s))).
    destruct (isDottedCapitalI a b).
    + unfold dottedSmallI. cbn [String.length]. lia.
    + cbn [String.length] in *. lia.
Qed.

Definition isAscii (s : string) : Prop :=
  forall a, occurs a s = true -> (nat_of_ascii a < 128)%nat.

Lemma toLowerCase_ascii_length (s : string) :
  isAscii s -> String.length (toLowerCase s) = String.length s.
Proof.
  revert s.
  apply (string_pairs
           (fun s => isAscii s -> String.length (toLowerCase s) = String.length s)).
  - intros _. reflexivity.
  - intros a _. reflexivity.
  - intros a b s IHs IHb Hascii.
    assert (Ha : (nat_of_ascii a < 128)%nat).
    { apply Hascii. simpl. now rewrite Ascii.eqb_refl. }
    change (toLowerCase (String a (String b s)))
      with (if isDottedCapitalI a b
            then dottedSmallI (toLowerCase s)
            else String (lowerAscii a) (toLowerCase (String b s))).
    unfold isDottedCapitalI.
    destruct (Nat.eqb_spec (nat_of_ascii a) 196) as [E|_]; [lia|].
    cbn [andb String.length]. f_equal. apply IHb.
    intros c Hc. apply Hascii. cbn [occurs]. cbn [occurs] in Hc.
    rewrite Hc. apply orb_true_r.
Qed.

Lemma drop_length (n : nat) (s : string) :
  String.length (drop n s) = (String.length s - n)%nat.
Proof.
  revert s. induction n as [|n IH]; intros [|a s]; simpl; try reflexivity.
  - apply IH.
Qed.

Lemma drop_within (n : nat) (s1 s2 : string) :
  (n <= String.length s1)%nat ->
  drop n (String.append s1 s2) = String.append (drop n s1) s2.
Proof.
  revert s1. induction n as [|n IH]; intros s1 Hn; [reflexivity|].
  destruct s1 as [|a s1]; [simpl in Hn; lia|].
  simpl. apply IH. simpl in Hn. lia.
Qed.

Lemma length_zero (s : string) : String.length s = 0%nat -> s = EmptyString.
Proof. destruct s; [reflexivity|discriminate]. Qed.

(** What [scanDirectoryForAudioFiles] compares with the extensions, for a
    name with a dot: the lower-cased name from the position that the last
    dot has in the name as written.  When lower-casing has made what
    precedes the dot longer, that position lies before the dot. *)
Lemma suffix_from_last_dot (base ext : string) :
  occurs "." ext = false ->
  slice (toLowerCase (String.append base (String "." ext)))
        (lastIndexOf (String.append base (String "." ext)) ".")
  = String.append (drop (String.length base) (toLowerCase base))
                  (String "." (toLowerCase ext)).
Proof.
  intros H. rewrite lastIndexOf_last by assumption. unfold slice.
  destruct (Z.ltb_spec (Z.of_nat (String.length base)) 0) as [Hneg|_]; [lia|].
  rewrite Nat2Z.id, toLowerCase_around_dot.
  apply drop_within. apply toLowerCase_length.
Qed.

Lemma suffix_without_dot (name : string) :
  occurs "." name = false ->
  (String.length (slice (toLowerCase name) (lastIndexOf name ".")) <= 1)%nat.
Proof.
  intros H. unfold lastIndexOf. rewrite lastIndexOfFrom_absent by assumption.
  unfold slice. change (-1 <? 0) with true. cbv iota.
  rewrite drop_length. lia.
Qed.

Lemma occurs_append (c : ascii) (s1 s2 : string) :
  occurs c (String.append s1 s2) = occurs c s1 || occurs c s2.
Proof.
  induction s1 as [|a s1 IH]; simpl; [reflexivity|].
  now rewrite IH, orb_assoc.
Qed.

(** An audio extension has its one dot in front. *)
Lemma extension_one_dot (a : ascii) (rest : string) :
  In (String a rest) AUDIO_EXTENSIONS -> occurs "." rest = false.
Proof.
  unfold AUDIO_EXTENSIONS. simpl.
  intros H. repeat (destruct H as [H|H]; [injection H as _ <-; reflexivity|]).
  contradiction.
Qed.

End FileNames.

(** X2.  [getBaseFileName] and the extractor's extension cut a file name at
    its last dot and nowhere else.  A name without a dot is its own base
    name and its own fallback format.  A name with a dot is
    [base ++ "." ++ ext] with [ext] free of dots; [ext] is the fallback
    format, and the base name is [base] unless nothing precedes the dot, in
    which case the whole name, dot included, is kept. *)
Theorem fileName_cut_at_last_dot :
  forall name : string,
    (occurs "." name = false /\
     getBaseFileName name = name /\ extensionOf name = name) \/
    (exists base ext,
        name = String.append base (String "." ext) /\
        occurs "." ext = false /\
        extensionOf name = ext /\
        getBaseFileName name
        = match base with EmptyString => name | _ => base end).
Proof.
  intros name. destruct (occurs "." name) eqn:E.
  - right. destruct (last_occurrence _ _ E) as (base & ext & -> & Hext).
    exists base, ext. split; [reflexivity|]. split; [exact Hext|].
    split; [now apply extensionOf_after_last_dot|].
    destruct base as [|a b].
    + unfold getBaseFileName. rewrite lastIndexOf_last by assumption. reflexivity.
    + now apply getBaseFileName_before_last_dot.
  - left. split; [reflexivity|]. split; [|now apply extensionOf_no_dot].
    unfold getBaseFileName, lastIndexOf.
    now rewrite lastIndexOfFrom_absent by assumption.
Qed.

Lemma includes_In (l : list string) (s : string) :
  includes l s = true <-> In s l.
Proof.
  unfold includes. rewrite existsb_exists. split.
  - intros (x & Hx & E). apply String.eqb_eq in E. now subst x.
  - intros H. exists s. split; [exact H|apply String.eqb_refl].
Qed.

Lemma isAudioEntry_spec (h : FileSystemHandle.t) :
  isAudioEntry h = true <->
  FileSystemHandle.kind h = FileSystemHandle.file /\
  exists base ext,
    FileSystemHandle.name h = String.append base (String "." ext) /\
    occurs "." ext = false /\
    String.length (toLowerCase base) = String.length base /\
    In (String "." (toLowerCase ext)) AUDIO_EXTENSIONS.
Proof.
  unfold isAudioEntry. destruct (FileSystemHandle.kind h); cbv zeta.
  - rewrite includes_In. split.
    + intros Hin. split; [reflexivity|].
      destruct (occurs "." (FileSystemHandle.name h)) eqn:E.
      * destruct (last_occurrence _ _ E) as (base & ext & Hname & Hext).
        exists base, ext. split; [exact Hname|]. split; [exact Hext|].
        rewrite Hname, suffix_from_last_dot in Hin by exact Hext.
        pose proof (toLowerCase_length base) as Hlen.
        pose proof (drop_length (String.length base) (toLowerCase base)) as Hdrop.
        destruct (drop (String.length base) (toLowerCase base)) as [|c t] eqn:Ed.
        -- simpl in Hdrop. split; [lia|exact Hin].
        -- exfalso. simpl in Hin. apply extension_one_dot in Hin.
           rewrite occurs_append in Hin. simpl in Hin.
           now rewrite orb_true_r in Hin.
      * apply suffix_without_dot in E.
        unfold AUDIO_EXTENSIONS in Hin. simpl in Hin.
        repeat (destruct Hin as [Hin|Hin];
                [rewrite <- Hin in E; simpl in E; lia|]).
        contradiction.
    + intros (_ & base & ext & Hname & Hext & Hlen & Hin).
      rewrite Hname, suffix_from_last_dot by exact Hext.
      replace (drop (String.length base) (toLowerCase base)) with EmptyString;
        [exact Hin|].
      symmetry. apply length_zero. rewrite drop_length. lia.
  - split; [discriminate|]. intros (H & _). discriminate.
Qed.

(** X3.  [scanDirectoryForAudioFiles] returns exactly the entries of the
    folder that are files, whose name ends, after its last dot and
    regardless of the case of ASCII letters, in one of the seven audio
    extensions, and in whose name lower-casing does not lengthen what
    precedes that dot.  Sub-folders and names without a dot are never
    returned.  Lower-casing keeps the length of ASCII text; it lengthens a
    capital I with dot above (U+0130), so a file named with that letter
    before the dot is left out whatever its extension.  The entries come
    back in the folder's order: scanning a listing made of two parts gives
    the scan of the first part followed by the scan of the second. *)
Theorem scanDirectoryForAudioFiles_spec :
  forall (name : string) (entries more : list FileSystemHandle.t),
    (forall h,
        In h (scanDirectoryForAudioFiles
                (FileSystemDirectoryHandle.mk name entries)) <->
        In h entries /\
        FileSystemHandle.kind h = FileSystemHandle.file /\
        exists base ext,
          FileSystemHandle.name h = String.append base (String "." ext) /\
          occurs "." ext = false /\
          String.length (toLowerCase base) = String.length base /\
          In (String "." (toLowerCase ext)) AUDIO_EXTENSIONS) /\
    (forall base, isAscii base ->
                  String.length (toLowerCase base) = String.length base) /\
    (forall base,
        String.length
          (toLowerCase (String (ascii_of_nat 196) (String (ascii_of_nat 176) base)))
        <> String.length (String (ascii_of_nat 196) (String (ascii_of_nat 176) base))) /\
    scanDirectoryForAudioFiles
      (FileSystemDirectoryHandle.mk name (entries ++ more))
    = scanDirectoryForAudioFiles (FileSystemDirectoryHandle.mk name entries)
      ++ scanDirectoryForAudioFiles (FileSystemDirectoryHandle.mk name more).
Proof.
  intros name entries more. unfold scanDirectoryForAudioFiles. simpl.
  split; [|split; [|split]].
  - intros h. rewrite filter_In, isAudioEntry_spec. reflexivity.
  - exact toLowerCase_ascii_length.
  - intros base.
    change (toLowerCase (String (ascii_of_nat 196) (String (ascii_of_nat 176) base)))
      with (dottedSmallI (toLowerCase base)).
    pose proof (toLowerCase_length base) as Hlen.
    unfold dottedSmallI. cbn [String.length]. lia.
  - apply filter_app.
Qed.

(** [SONG.MP3] is an audio file; the file whose name is U+0130 followed by
    [.mp3] is not returned. *)
Example scanDirectoryForAudioFiles_dotted_capital_I :
  let dotted := String (ascii_of_nat 196) (String (ascii_of_nat 176) ".mp3") in
  scanDirectoryForAudioFiles
    (FileSystemDirectoryHandle.mk "demo"
       [FileSystemHandle.mk FileSystemHandle.file "SONG.MP3" 0;
        FileSystemHandle.mk FileSystemHandle.file dotted 1;
        FileSystemHandle.mk FileSystemHandle.file "notes.txt" 2;
        FileSystemHandle.mk FileSystemHandle.directory "old.mp3" 3])
  = [FileSystemHandle.mk FileSystemHandle.file "SONG.MP3" 0].
Proof. reflexivity. Qed.

(* ================================================================== *)
(** ** What a scan does to the rows that are already there *)

Section ScanGrowth.

Variable env : Env.t.
Variable songId : Z.

(** The primary key of [versions] at work: ids are unique and below the key
    generator. *)
Definition keysOk (d : DB.t) : Prop :=
  NoDup (map Version.id (DB.versions d)) /\
  (forall v, In v (DB.versions d) -> Version.id v < DB.versionsNextId d).

(** [v'] is [v] after scans of the Song [songId]: formats were appended at
    most, and a row of another Song is untouched. *)
Definition grown (v v' : Version.t) : Prop :=
  Version.id v' = Version.id v /\
  Version.songId v' = Version.songId v /\
  Version.versionName v' = Version.versionName v /\
  Version.rating v' = Version.rating v /\
  Version.createdAt v' = Version.createdAt v /\
  (exists fs, Version.formats v' = Version.formats v ++ fs) /\
  (Version.songId v <> songId -> v' = v).

Lemma grown_refl v : grown v v.
Proof.
  unfold grown. repeat (split; [reflexivity|]).
  split; [exists []; now rewrite app_nil_r|reflexivity].
Qed.

Lemma grown_trans v1 v2 v3 : grown v1 v2 -> grown v2 v3 -> grown v1 v3.
Proof.
  intros (A1 & A2 & A3 & A4 & A5 & (fs & A6) & A7)
         (B1 & B2 & B3 & B4 & B5 & (gs & B6) & B7).
  unfold grown.
  split; [congruence|]. split; [congruence|]. split; [congruence|].
  split; [congruence|]. split; [congruence|]. split.
  - exists (fs ++ gs). now rewrite B6, A6, app_assoc.
  - intros Hne. rewrite B7 by congruence. now apply A7.
Qed.

(** How the [versions] table of [w'] relates to that of [w]. *)
Definition tableGrown (w w' : World.t) : Prop :=
  DB.versionsNextId (World.db w) <= DB.versionsNextId (World.db w') /\
  (forall v, In v (DB.versions (World.db w)) ->
             exists v', In v' (DB.versions (World.db w')) /\ grown v v') /\
  (forall v', In v' (DB.versions (World.db w')) ->
              (exists v, In v (DB.versions (World.db w)) /\ grown v v') \/
              (Version.songId v' = songId /\
               DB.versionsNextId (World.db w) <= Version.id v')).

Lemma tableGrown_same w w' : sameVersions w w' -> tableGrown w w'.
Proof.
  intros (Hv & Hn). unfold tableGrown. rewrite Hv, Hn.
  split; [lia|]. split.
  - intros v Hin. exists v. split; [exact Hin|apply grown_refl].
  - intros v Hin. left. exists v. split; [exact Hin|apply grown_refl].
Qed.

Lemma tableGrown_trans w1 w2 w3 :
  tableGrown w1 w2 -> tableGrown w2 w3 -> tableGrown w1 w3.
Proof.
  intros (N12 & K12 & F12) (N23 & K23 & F23). unfold tableGrown.
  split; [lia|]. split.
  - intros v Hin. destruct (K12 v Hin) as (v2 & Hin2 & G12).
    destruct (K23 v2 Hin2) as (v3 & Hin3 & G23).
    exists v3. split; [exact Hin3|]. eapply grown_trans; eassumption.
  - intros v3 Hin3. destruct (F23 v3 Hin3) as [(v2 & Hin2 & G23)|(Hs & Hid)].
    + destruct (F12 v2 Hin2) as [(v1 & Hin1 & G12)|(Hs & Hid)].
      * left. exists v1. split; [exact Hin1|]. eapply grown_trans; eassumption.
      * right. destruct G23 as (E1 & E2 & _). split; [congruence|lia].
    + right. split; [exact Hs|lia].
Qed.

Lemma id_determines_row (d : DB.t) (a b : Version.t) :
  NoDup (map Version.id (DB.versions d)) ->
  In a (DB.versions d) -> In b (DB.versions d) ->
  Version.id a = Version.id b -> a = b.
Proof.
  induction (DB.versions d) as [|x l IH]; simpl; intros Hnd Ha Hb E; [contradiction|].
  inversion Hnd as [|? ? Hnotin Hnd']; subst.
  destruct Ha as [<-|Ha], Hb as [<-|Hb].
  - reflexivity.
  - exfalso. apply Hnotin. rewrite E. now apply in_map.
  - exfalso. apply Hnotin. rewrite <- E. now apply in_map.
  - now apply IH.
Qed.

(** [createVersionWithFormats] writes nothing or appends one row of the Song
    under the next key. *)
Lemma createVersionWithFormats_appends versionName handles w r w' :
  createVersionWithFormats env songId versionName handles w = (r, w') ->
  sameVersions w w' \/
  exists v,
    DB.versions (World.db w') = DB.versions (World.db w) ++ [v] /\
    DB.versionsNextId (World.db w') = DB.versionsNextId (World.db w) + 1 /\
    Version.id v = DB.versionsNextId (World.db w) /\
    Version.songId v = songId.
Proof.
  unfold createVersionWithFormats, bindM.
  destruct (extractFormats env handles [] w) as [r1 w1] eqn:E1.
  apply extractFormats_frame in E1. destruct E1 as ((Hv & Hn) & fs & ->).
  rewrite !app_nil_l.
  destruct fs as [|f fs].
  - unfold ret. intros H. injection H as <- <-. left. now split.
  - unfold newDateISO at 1. cbv beta iota. unfold modifiedAtOf.
    destruct (nth_error (f :: fs) (findSmallestFormat (f :: fs))) as [sel|].
    + unfold ret at 1. cbv beta iota. unfold versions_add at 1.
      cbv beta iota zeta. unfold ret.
      intros H. injection H as <- <-. right.
      eexists. simpl. rewrite Hv, Hn. repeat split.
    + unfold throw. cbv beta iota. intros H. injection H as <- <-.
      left. simpl. now split.
Qed.

Lemma createVersionWithFormats_grows versionName handles w r w' :
  keysOk (World.db w) ->
  createVersionWithFormats env songId versionName handles w = (r, w') ->
  keysOk (World.db w') /\ tableGrown w w'.
Proof.
  intros (Hnd & Hlt) H. apply createVersionWithFormats_appends in H.
  destruct H as [Hs|(v & Hv & Hn & Hid & Hsong)].
  - split; [|now apply tableGrown_same].
    destruct Hs as (Hv & Hn). unfold keysOk. rewrite Hv, Hn. now split.
  - split.
    + unfold keysOk. rewrite Hv, Hn, map_app. simpl. split.
      * apply NoDup_app; [exact Hnd|repeat constructor; intros []|].
        intros x Hx [Hx'|[]]. apply in_map_iff in Hx.
        destruct Hx as (y & Ey & Hy). apply Hlt in Hy. lia.
      * intros x Hx. apply in_app_or in Hx.
        destruct Hx as [Hx|[<-|[]]]; [apply Hlt in Hx|]; lia.
    + unfold tableGrown. rewrite Hv, Hn. split; [lia|]. split.
      * intros x Hx. exists x. split; [apply in_or_app; now left|apply grown_refl].
      * intros x Hx. apply in_app_or in Hx. destruct Hx as [Hx|[<-|[]]].
        -- left. exists x. split; [exact Hx|apply grown_refl].
        -- right. split; [exact Hsong|lia].
Qed.

Lemma addNewFormatsToVersion_grows existing handles w r w' :
  keysOk (World.db w) ->
  In existing (DB.versions (World.db w)) ->
  Version.songId existing = songId ->
  addNewFormatsToVersion env existing handles w = (r, w') ->
  keysOk (World.db w') /\ tableGrown w w'.
Proof.
  intros (Hnd & Hlt) Hin Hsong H. apply addNewFormatsToVersion_step in H.
  destruct H as [Hs|(fs & m & _ & Hn & Hv)].
  - split; [|now apply tableGrown_same].
    destruct Hs as (Hv & Hn). unfold keysOk. rewrite Hv, Hn. now split.
  - set (patch := fun v : Version.t =>
                    if Version.id v =? Version.id existing
                    then mergedRow (Version.formats existing ++ fs) m v
                    else v) in Hv.
    assert (Hid : forall v, Version.id (patch v) = Version.id v).
    { intros v. unfold patch. now destruct (_ =? _). }
    assert (Hgrown : forall v, In v (DB.versions (World.db w)) -> grown v (patch v)).
    { intros v Hv0. unfold patch.
      destruct (Z.eqb_spec (Version.id v) (Version.id existing)) as [E|_];
        [|apply grown_refl].
      assert (v = existing) by (eapply id_determines_row; eassumption).
      subst v. unfold grown, mergedRow. simpl.
      repeat (split; [reflexivity|]).
      split; [now exists fs|]. intros Hne. contradiction. }
    split.
    + unfold keysOk. rewrite Hv, Hn, map_map.
      rewrite (map_ext _ Version.id Hid). split; [exact Hnd|].
      intros x Hx. apply in_map_iff in Hx. destruct Hx as (y & <- & Hy).
      rewrite Hid. now apply Hlt.
    + unfold tableGrown. rewrite Hv, Hn. split; [lia|]. split.
      * intros x Hx. exists (patch x). split; [now apply in_map|now apply Hgrown].
      * intros x Hx. apply in_map_iff in Hx. destruct Hx as (y & <- & Hy).
        left. exists y. split; [exact Hy|now apply Hgrown].
Qed.

Lemma processGroups_grows groups :
  forall w r w',
    keysOk (World.db w) ->
    processGroups env songId groups w = (r, w') ->
    keysOk (World.db w') /\ tableGrown w w'.
Proof.
  induction groups as [|[b hs] groups IH]; intros w r w' Hok H; simpl in H.
  - unfold ret in H. injection H as <- <-.
    split; [exact Hok|apply tableGrown_same, sameVersions_refl].
  - unfold bindM in H.
    destruct (versions_first songId b w) as [existing|] eqn:Efirst.
    + unfold versions_first in Efirst. apply find_some in Efirst.
      destruct Efirst as (Hin & Hmatch). apply andb_prop in Hmatch.
      destruct Hmatch as (Hsong & _). apply Z.eqb_eq in Hsong.
      destruct (addNewFormatsToVersion env existing hs w) as [r1 w1] eqn:E1.
      apply (@addNewFormatsToVersion_grows existing hs w r1 w1 Hok Hin Hsong) in E1.
      destruct E1 as (Hok1 & G1). destruct r1 as [[]|e].
      * apply (IH w1 r w' Hok1) in H. destruct H as (Hok2 & G2).
        split; [exact Hok2|]. eapply tableGrown_trans; eassumption.
      * injection H as <- <-. now split.
    + destruct (createVersionWithFormats env songId b hs w) as [r1 w1] eqn:E1.
      apply (@createVersionWithFormats_grows b hs w r1 w1 Hok) in E1.
      destruct E1 as (Hok1 & G1). destruct r1 as [[]|e].
      * apply (IH w1 r w' Hok1) in H. destruct H as (Hok2 & G2).
        split; [exact Hok2|]. eapply tableGrown_trans; eassumption.
      * injection H as <- <-. now split.
Qed.

End ScanGrowth.

(** X4.  A scan of a Song's folder only ever adds to the [versions] table,
    however it ends (also when it throws half-way).  When ids are unique and
    below the key generator before the scan, they still are afterwards, and:
    every row that was there is still there under the same id, with the same
    Song, name, rating and creation date, and with its old formats as a
    prefix of its formats; a row of another Song is unchanged; and every row
    that was not there belongs to the scanned Song and has a new id. *)
Theorem scanAndAddAudioFiles_only_grows :
  forall (env : Env.t) (dirHandle : FileSystemDirectoryHandle.t) (songId : Z)
         (w : World.t) (r : result unit) (w' : World.t),
    keysOk (World.db w) ->
    scanAndAddAudioFiles env dirHandle songId w = (r, w') ->
    keysOk (World.db w') /\
    DB.versionsNextId (World.db w) <= DB.versionsNextId (World.db w') /\
    (forall v, In v (DB.versions (World.db w)) ->
               exists v', In v' (DB.versions (World.db w')) /\ grown songId v v') /\
    (forall v', In v' (DB.versions (World.db w')) ->
                (exists v, In v (DB.versions (World.db w)) /\ grown songId v v') \/
                (Version.songId v' = songId /\
                 DB.versionsNextId (World.db w) <= Version.id v')).
Proof.
  intros env dirHandle songId w r w' Hok H.
  unfold scanAndAddAudioFiles in H.
  exact (@processGroups_grows env songId _ w r w' Hok H).
Qed.

Lemma scanAndAddAudioFiles_only_grows_witness :
  exists r w',
    scanAndAddAudioFiles env1 folder0 1 worldV = (r, w') /\
    keysOk (World.db w') /\
    (forall v, In v (DB.versions (World.db worldV)) ->
               exists v', In v' (DB.versions (World.db w')) /\ grown 1 v v').
Proof.
  destruct (scanAndAddAudioFiles env1 folder0 1 worldV) as [r w'] eqn:E.
  exists r, w'. split; [reflexivity|].
  destruct (@scanAndAddAudioFiles_only_grows env1 folder0 1 worldV r w')
    as (Hok & _ & Hkept & _).
  - split.
    + simpl. constructor; [intros []|constructor].
    + intros v [<-|[]]. simpl. lia.
  - exact E.
  - split; [exact Hok|exact Hkept].
Defined.

Example rescan_worldV :
  map (fun v => (Version.id v, Version.versionName v,
                 map VersionFormat.fileName (Version.formats v)))
      (DB.versions (World.db (snd (scanAndAddAudioFiles env1 folder0 1 worldV))))
  = [(1, "take1", ["take1.mp3"; "take1.mp3"; "take1.flac"]);
     (2, "take2", ["take2.mp3"])].
Proof. vm_compute. reflexivity. Qed.

(* ================================================================== *)
(** ** What a scan leaves alone *)

Section ScanFrame.

Variable env : Env.t.

(** Of the tables other than [versions], only the handle registry changed,
    and it was only appended to. *)
Definition registryGrown (w w' : World.t) : Prop :=
  DB.songs (World.db w') = DB.songs (World.db w) /\
  DB.versionTags (World.db w') = DB.versionTags (World.db w) /\
  DB.notes (World.db w') = DB.notes (World.db w) /\
  DB.images (World.db w') = DB.images (World.db w) /\
  exists added,
    DB.fileHandles (World.db w') = DB.fileHandles (World.db w) ++ added.

Lemma registryGrown_refl w : registryGrown w w.
Proof.
  unfold registryGrown. repeat (split; [reflexivity|]).
  exists []. now rewrite app_nil_r.
Qed.

Lemma registryGrown_trans w1 w2 w3 :
  registryGrown w1 w2 -> registryGrown w2 w3 -> registryGrown w1 w3.
Proof.
  intros (A1 & A2 & A3 & A4 & (xs & A5)) (B1 & B2 & B3 & B4 & (ys & B5)).
  unfold registryGrown.
  split; [congruence|]. split; [congruence|]. split; [congruence|].
  split; [congruence|]. exists (xs ++ ys). now rewrite B5, A5, app_assoc.
Qed.

Lemma serializeHandle_registryGrown handle w r w' :
  serializeHandle env handle w = (r, w') -> registryGrown w w'.
Proof.
  rewrite serializeHandle_run. cbv zeta.
  destruct (fileHandles_get _ _); intros H; injection H as _ <-;
    unfold registryGrown; simpl; repeat (split; [reflexivity|]).
  - exists []. now rewrite app_nil_r.
  - eexists. reflexivity.
Qed.

Lemma extractFormatMetadata_registryGrown fileHandle w r w' :
  extractFormatMetadata env fileHandle w = (r, w') -> registryGrown w w'.
Proof.
  unfold extractFormatMetadata, tryCatch, bindM, getFileFromHandle, getFileSize,
    lift, ret.
  destruct (Env.getFile env fileHandle) as [file|e].
  - pose proof (@serializeHandle_registryGrown fileHandle w) as Hser.
    destruct (serializeHandle env fileHandle w) as [[k|e] w1].
    + specialize (Hser _ _ eq_refl). unfold bindM. cbv beta iota.
      destruct (extractAudioMetadata_returns env file w1) as (am & Ham).
      rewrite Ham. intros H. injection H as _ <-. exact Hser.
    + specialize (Hser _ _ eq_refl). intros H. injection H as _ <-. exact Hser.
  - intros H. injection H as _ <-. apply registryGrown_refl.
Qed.

Lemma extractFormats_registryGrown handles :
  forall formats w r w',
    extractFormats env handles formats w = (r, w') -> registryGrown w w'.
Proof.
  induction handles as [|h hs IH]; intros formats w r w' H; simpl in H.
  - unfold ret in H. injection H as _ <-. apply registryGrown_refl.
  - unfold bindM in H.
    destruct (extractFormatMetadata env h w) as [r1 w1] eqn:E1.
    pose proof (extractFormatMetadata_registryGrown _ _ E1) as G1.
    apply extractFormatMetadata_frame in E1. destruct E1 as (_ & o & -> & _).
    apply IH in H. eapply registryGrown_trans; eassumption.
Qed.

Lemma mergeFormats_registryGrown existing handles :
  forall acc w r w',
    mergeFormats env existing handles acc w = (r, w') -> registryGrown w w'.
Proof.
  induction handles as [|h hs IH]; intros acc w r w' H; simpl in H.
  - unfold ret in H. injection H as _ <-. apply registryGrown_refl.
  - unfold bindM in H.
    destruct (serializeHandle env h w) as [[k|e] w1] eqn:Eser;
      apply serializeHandle_registryGrown in Eser.
    + destruct (includes existing k).
      * apply IH in H. eapply registryGrown_trans; eassumption.
      * destruct (extractFormatMetadata env h w1) as [r2 w2] eqn:Eext.
        pose proof (extractFormatMetadata_registryGrown _ _ Eext) as G2.
        apply extractFormatMetadata_frame in Eext.
        destruct Eext as (_ & o & -> & _).
        apply IH in H.
        eapply registryGrown_trans; [|eassumption].
        eapply registryGrown_trans; eassumption.
    + injection H as _ <-. exact Eser.
Qed.

Lemma createVersionWithFormats_registryGrown songId versionName handles w r w' :
  createVersionWithFormats env songId versionName handles w = (r, w') ->
  registryGrown w w'.
Proof.
  unfold createVersionWithFormats, bindM.
  destruct (extractFormats env handles [] w) as [r1 w1] eqn:E1.
  pose proof (extractFormats_registryGrown _ _ _ E1) as G1.
  apply extractFormats_frame in E1. destruct E1 as (_ & fs & ->).
  rewrite !app_nil_l.
  destruct fs as [|f fs].
  - unfold ret. intros H. injection H as _ <-. exact G1.
  - unfold newDateISO at 1. cbv beta iota. unfold modifiedAtOf.
    destruct (nth_error (f :: fs) (findSmallestFormat (f :: fs))) as [sel|].
    + unfold ret at 1. cbv beta iota. unfold versions_add at 1.
      cbv beta iota zeta. unfold ret.
      intros H. injection H as _ <-.
      eapply registryGrown_trans; [exact G1|].
      unfold registryGrown. simpl. repeat (split; [reflexivity|]).
      exists []. now rewrite app_nil_r.
    + unfold throw. cbv beta iota. intros H. injection H as _ <-.
      eapply registryGrown_trans; [exact G1|].
      unfold registryGrown. simpl. repeat (split; [reflexivity|]).
      exists []. now rewrite app_nil_r.
Qed.

Lemma addNewFormatsToVersion_registryGrown version handles w r w' :
  addNewFormatsToVersion env version handles w = (r, w') -> registryGrown w w'.
Proof.
  unfold addNewFormatsToVersion, bindM.
  destruct (mergeFormats env _ handles (Version.formats version, false) w)
    as [r1 w1] eqn:E1.
  apply mergeFormats_registryGrown in E1.
  destruct r1 as [[nf b]|e].
  - simpl fst. simpl snd. destruct b.
    + unfold newDateISO, versions_update. cbv beta iota zeta.
      intros H. injection H as _ <-.
      eapply registryGrown_trans; [exact E1|].
      unfold registryGrown. simpl. repeat (split; [reflexivity|]).
      exists []. now rewrite app_nil_r.
    + unfold ret. intros H. injection H as _ <-. exact E1.
  - intros H. injection H as _ <-. exact E1.
Qed.

Lemma processGroups_registryGrown songId groups :
  forall w r w',
    processGroups env songId groups w = (r, w') -> registryGrown w w'.
Proof.
  induction groups as [|[b hs] groups IH]; intros w r w' H; simpl in H.
  - unfold ret in H. injection H as _ <-. apply registryGrown_refl.
  - unfold bindM in H.
    destruct (versions_first songId b w) as [existing|].
    + destruct (addNewFormatsToVersion env existing hs w) as [r1 w1] eqn:E1.
      apply addNewFormatsToVersion_registryGrown in E1.
      destruct r1 as [[]|e].
      * apply IH in H. eapply registryGrown_trans; eassumption.
      * injection H as _ <-. exact E1.
    + destruct (createVersionWithFormats env songId b hs w) as [r1 w1] eqn:E1.
      apply createVersionWithFormats_registryGrown in E1.
      destruct r1 as [[]|e].
      * apply IH in H. eapply registryGrown_trans; eassumption.
      * injection H as _ <-. exact E1.
Qed.

End ScanFrame.

(** X5.  Whatever the folder holds and however the scan ends, it writes to
    two tables only: [songs], [versionTags], [notes] and [images] are left
    exactly as they were, and the handle registry loses no row and changes
    none, it is only appended to. *)
Theorem scanAndAddAudioFiles_leaves_other_tables :
  forall (env : Env.t) (dirHandle : FileSystemDirectoryHandle.t) (songId : Z)
         (w : World.t),
    let d := World.db w in
    let d' := World.db (snd (scanAndAddAudioFiles env dirHandle songId w)) in
    DB.songs d' = DB.songs d /\
    DB.versionTags d' = DB.versionTags d /\
    DB.notes d' = DB.notes d /\
    DB.images d' = DB.images d /\
    exists added, DB.fileHandles d' = DB.fileHandles d ++ added.
Proof.
  intros env dirHandle songId w. cbv zeta.
  destruct (scanAndAddAudioFiles env dirHandle songId w) as [r w'] eqn:E.
  unfold scanAndAddAudioFiles in E.
  exact (@processGroups_registryGrown env songId _ w r w' E).
Qed.

(* ================================================================== *)
(** ** The upgrade: what it keeps and what it numbers *)

Section UpgradeShape.

Variable env : Env.t.
Variable registry : list FileHandleRecord.t.






End UpgradeShape.




Example upgradeToV2_numbers_legacy0 :
  map Version.id (DB.versions upgraded0) = [4; 5] /\
  DB.versionsNextId upgraded0 = 6.
Proof. split; reflexivity. Qed.

(* ================================================================== *)
(** ** The upgrade and the file system *)

Section UpgradeFiles.





End UpgradeFiles.


(** The file size is the one field that does depend on the file system: a
    store upgraded while its one file cannot be read records size [0]. *)
Example upgradeToV2_unreadable_file :
  let old := DBv1.mk [] [legacyRow 1 1 "take1.mp3"] 2 [] [] []
                     [FileHandleRecord.mk "h1" (audioFile "take1.mp3" 5)] in
  match upgradeToV2 env0 old, upgradeToV2 env1 old with
  | Ok d0, Ok d1 =>
      map (fun v => map VersionFormat.fileSize (Version.formats v)) (DB.versions d0)
      = [[1000]] /\
      map (fun v => map VersionFormat.fileSize (Version.formats v)) (DB.versions d1)
      = [[0]]
  | _, _ => False
  end.
Proof. vm_compute. split; reflexivity. Qed.

(* ================================================================== *)
(** ** The store as a mirror of the database *)

Section Mirror.

(** The Songs the store shows are the joined view of the tables. *)
Definition songsMirror (ui : UI.t) : Prop :=
  AppStore.songs (UI.store ui)
  = Queries.getSongsWithVersions (Session.tags (UI.session ui))
                                 (Session.db (UI.session ui)).

(** The selected version is one of the versions the store lists. *)
Definition selectionListed (state : AppStore.t) : Prop :=
  match AppStore.selectedVersion state with
  | None => True
  | Some v => exists song, In song (AppStore.songs state) /\
                           In v (SongWithVersions.versions song)
  end.

(** [v.id === versionId ? { ...v, <patch> } : v] on a listed version. *)
Definition patchEntry (versionId : Z) (patch : Version.t -> Version.t)
           (v : VersionWithTags.t) : VersionWithTags.t :=
  if Version.id (VersionWithTags.version v) =? versionId
  then VersionWithTags.mk (patch (VersionWithTags.version v))
                          (VersionWithTags.tags v) (VersionWithTags.noteCount v)
  else v.

Definition patchSongs (versionId : Z) (patch : Version.t -> Version.t)
           (songs : list SongWithVersions.t) : list SongWithVersions.t :=
  map (fun song =>
         SongWithVersions.mk (SongWithVersions.song song)
                             (map (patchEntry versionId patch)
                                  (SongWithVersions.versions song)))
      songs.

Lemma filter_map_same {A} (f : A -> A) (p : A -> bool) (l : list A) :
  (forall x, p (f x) = p x) -> filter p (map f l) = map f (filter p l).
Proof.
  intros H. induction l as [|a l IH]; simpl; [reflexivity|].
  rewrite H. destruct (p a); simpl; now rewrite IH.
Qed.

(** The joined view after a patch of one [versions] row that keeps the
    row's id and Song. *)
Lemma view_after_patch (tagsTable : list Tag.t) (versionId : Z)
      (patch : Version.t -> Version.t) (d : DB.t) :
  (forall v, Version.id (patch v) = Version.id v) ->
  (forall v, Version.songId (patch v) = Version.songId v) ->
  Queries.getSongsWithVersions tagsTable
    (DB.with_versions
       (map (fun v => if Version.id v =? versionId then patch v else v)
            (DB.versions d)) d)
  = patchSongs versionId patch (Queries.getSongsWithVersions tagsTable d).
Proof.
  intros Hid Hsong. unfold Queries.getSongsWithVersions, patchSongs.
  rewrite map_map. apply map_ext. intros song. cbv zeta. cbn [SongWithVersions.song
    SongWithVersions.versions]. f_equal.
  unfold getVersions. cbn [DB.versions DB.with_versions].
  rewrite filter_map_same.
  - rewrite !map_map. apply map_ext. intros v.
    unfold patchEntry. cbn [VersionWithTags.version VersionWithTags.tags
      VersionWithTags.noteCount].
    destruct (Version.id v =? versionId); [rewrite Hid|]; reflexivity.
  - intros v. destruct (Version.id v =? versionId); [now rewrite Hsong|reflexivity].
Qed.

Lemma patchEntry_listed (versionId : Z) (patch : Version.t -> Version.t)
      (songs : list SongWithVersions.t) (v : VersionWithTags.t) :
  (exists song, In song songs /\ In v (SongWithVersions.versions song)) ->
  exists song, In song (patchSongs versionId patch songs) /\
               In (patchEntry versionId patch v) (SongWithVersions.versions song).
Proof.
  intros (song & Hsong & Hv).
  exists (SongWithVersions.mk (SongWithVersions.song song)
            (map (patchEntry versionId patch) (SongWithVersions.versions song))).
  split.
  - unfold patchSongs. apply in_map_iff. exists song. now split.
  - simpl. now apply in_map.
Qed.

(** The joined view after a [removeSong] that went through: the entry of
    the Song is gone, every other entry is as it was. *)
Lemma view_after_removeSong (tagsTable : list Tag.t) (songId : Z) (d d' : DB.t) :
  UseDB.removeSong songId d = Ok d' ->
  DB.versions d' = DB.versions d /\
  Queries.getSongsWithVersions tagsTable d'
  = filter (fun s => negb (Song.id (SongWithVersions.song s) =? songId))
           (Queries.getSongsWithVersions tagsTable d).
Proof.
  rewrite removeSong_run.
  destruct (find (fun s => Song.id s =? songId) (DB.songs d)) as [obj|];
    [|discriminate].
  intros H. injection H as <-. split; [reflexivity|].
  unfold Queries.getSongsWithVersions. cbn [DB.songs].
  generalize (DB.songs d). intros songs.
  induction songs as [|a songs IH]; simpl; [reflexivity|].
  destruct (Song.id a =? songId); simpl; [exact IH|].
  f_equal. exact IH.
Qed.

(** A [removeSong] that is rejected names a Song the view does not list. *)
Lemma view_without_song (tagsTable : list Tag.t) (songId : Z) (d : DB.t) (e : string) :
  UseDB.removeSong songId d = Err e ->
  forall s, In s (Queries.getSongsWithVersions tagsTable d) ->
            Song.id (SongWithVersions.song s) <> songId.
Proof.
  rewrite removeSong_run.
  destruct (find (fun s => Song.id s =? songId) (DB.songs d)) as [obj|] eqn:Efind;
    [discriminate|].
  intros _ s Hs. unfold Queries.getSongsWithVersions in Hs.
  apply in_map_iff in Hs. destruct Hs as (song & <- & Hsong). simpl.
  apply Z.eqb_neq. exact (find_none _ _ Efind song Hsong).
Qed.

End Mirror.

(** A store and tables that mirror each other: the library of two Songs
    with its one tag, loaded by [loadData], the first version selected. *)
Definition sessionLibrary : Session.t :=
  Session.mk (World.mk library 0 0) [Tag.mk 7 "live" "#ff0000"] 8 3 6.

Definition uiLibrary : UI.t :=
  let ui := Components.loadData (UI.mk sessionLibrary AppStore.initial) in
  match AppStore.songs (UI.store ui) with
  | song :: _ =>
      match SongWithVersions.versions song with
      | version :: _ => Components.handleSelectVersion song version ui
      | [] => ui
      end
  | [] => ui
  end.

(** X9.  Removing a Song through [SongBrowser] keeps the store in step with
    the database.  When version ids are unique and the store's Songs are the
    joined view of the tables, then after [handleDeleteSong] (whatever the
    answer to the confirmation) they still are: filtering the Song out of the
    store's list gives exactly what [getSongsWithVersions] would now return,
    so the versions, tags and note counts of every other Song are untouched;
    version ids stay unique, and after a confirmed removal
    the store lists no Song of that id. *)
Theorem handleDeleteSong_keeps_mirror :
  forall (confirmed : bool) (songId : Z) (ui : UI.t),
    NoDup (map Version.id (DB.versions (Session.db (UI.session ui)))) ->
    songsMirror ui ->
    let ui' := Components.handleDeleteSong confirmed songId ui in
    songsMirror ui' /\
    NoDup (map Version.id (DB.versions (Session.db (UI.session ui')))) /\
    (confirmed = true ->
     forall s, In s (AppStore.songs (UI.store ui')) ->
               Song.id (SongWithVersions.song s) <> songId).
Proof.
  intros confirmed songId ui Hnd Hmirror. cbv zeta.
  unfold Components.handleDeleteSong. destruct confirmed.
  - destruct (UseDB.removeSong songId (Session.db (UI.session ui)))
      as [d'|e] eqn:Erun.
    + destruct (@view_after_removeSong (Session.tags (UI.session ui)) songId _ _ Erun)
        as (Hvs & Hview).
      unfold songsMirror in *. cbn [UI.store UI.session].
      unfold onDB, Session.db, Session.with_world. cbn [Session.world Session.tags].
      unfold World.with_db. cbn [World.db].
      split; [|split].
      * rewrite Hview. cbn [AppStore.removeSong AppStore.songs].
        now rewrite Hmirror.
      * now rewrite Hvs.
      * intros _ s Hs. cbn [AppStore.removeSong AppStore.songs] in Hs.
        apply filter_In in Hs. destruct Hs as (_ & Hne).
        now apply negb_true_iff, Z.eqb_neq in Hne.
    + split; [exact Hmirror|]. split; [exact Hnd|].
      intros _ s Hs. unfold songsMirror in Hmirror. rewrite Hmirror in Hs.
      exact (@view_without_song _ songId _ e Erun s Hs).
  - split; [exact Hmirror|]. split; [exact Hnd|discriminate].
Qed.

Lemma handleDeleteSong_keeps_mirror_witness :
  songsMirror (Components.handleDeleteSong true 1 uiLibrary) /\
  map (fun s => Song.id (SongWithVersions.song s))
      (AppStore.songs (UI.store (Components.handleDeleteSong true 1 uiLibrary)))
  = [2].
Proof.
  destruct (@handleDeleteSong_keeps_mirror true 1 uiLibrary) as (Hmirror & _).
  - simpl. repeat constructor; simpl; intuition discriminate.
  - reflexivity.
  - split; [exact Hmirror|reflexivity].
Defined.

(** X10.  Rating a version and changing its selected format keep the store
    in step with the database, with no condition on ids: after
    [handleRating] and after [handleFormatChange] the store's Songs are
    again the joined view of the tables, and a selected version that was one
    of the listed versions still is (it was patched together with the
    list).  [handleRating] stores the clicked rating, or clears the rating
    when the clicked star is the current one. *)
Theorem handleRating_handleFormatChange_keep_mirror :
  forall ui : UI.t,
    songsMirror ui ->
    selectionListed (UI.store ui) ->
    (forall versionId currentRating rating,
        let ui' := Components.handleRating versionId currentRating rating ui in
        songsMirror ui' /\ selectionListed (UI.store ui') /\
        forall v, In v (DB.versions (Session.db (UI.session ui'))) ->
                  Version.id v = versionId ->
                  (currentRating = Some rating -> Version.rating v = None) /\
                  (currentRating <> Some rating -> Version.rating v = Some rating)) /\
    (forall formatIndex,
        let ui' := Components.handleFormatChange formatIndex ui in
        songsMirror ui' /\ selectionListed (UI.store ui')).
Proof.
  intros ui Hmirror Hlisted.
  assert (Hpatch : forall versionId patch,
             (forall v, Version.id (patch v) = Version.id v) ->
             (forall v, Version.songId (patch v) = Version.songId v) ->
             Queries.getSongsWithVersions (Session.tags (UI.session ui))
               (DB.with_versions
                  (map (fun v => if Version.id v =? versionId then patch v else v)
                       (DB.versions (Session.db (UI.session ui))))
                  (Session.db (UI.session ui)))
             = patchSongs versionId patch (AppStore.songs (UI.store ui))).
  { intros versionId patch Hid Hsong. rewrite Hmirror. now apply view_after_patch. }
  assert (Hsel : forall versionId patch,
             match AppStore.selectedVersion (UI.store ui) with
             | Some v => exists song,
                 In song (patchSongs versionId patch (AppStore.songs (UI.store ui))) /\
                 In (patchEntry versionId patch v) (SongWithVersions.versions song)
             | None => True
             end).
  { intros versionId patch. unfold selectionListed in Hlisted.
    destruct (AppStore.selectedVersion (UI.store ui)) as [v|]; [|exact I].
    now apply patchEntry_listed. }
  split.
  - intros versionId currentRating rating. cbv zeta.
    unfold Components.handleRating.
    set (newRating := match currentRating with
                      | Some current => if rating =? current then None else Some rating
                      | None => Some rating
                      end).
    unfold liftWorld, Commands.updateVersionRating, versions_update. cbv beta iota zeta.
    split; [|split].
    + unfold songsMirror. cbn [UI.store UI.session]. symmetry.
      exact (Hpatch versionId (withRating newRating)
                    (fun _ => eq_refl) (fun _ => eq_refl)).
    + unfold selectionListed. cbn [UI.store].
      specialize (Hsel versionId (withRating newRating)).
      unfold AppStore.updateVersionRating.
      cbn [AppStore.selectedVersion AppStore.songs].
      destruct (AppStore.selectedVersion (UI.store ui)) as [v|]; [|exact I].
      unfold patchEntry in Hsel.
      destruct (Version.id (VersionWithTags.version v) =? versionId); exact Hsel.
    + cbn [UI.session]. unfold Session.db, Session.with_world, World.with_db.
      cbn [Session.world World.db DB.versions DB.with_versions].
      intros v Hv Hid. apply in_map_iff in Hv. destruct Hv as (v0 & Hv0 & _).
      destruct (Z.eqb_spec (Version.id v0) versionId) as [E|E].
      * subst v. cbn [withRating Version.rating]. unfold newRating. split.
        -- intros ->. now rewrite Z.eqb_refl.
        -- destruct currentRating as [c|]; [|reflexivity].
           intros Hne. destruct (Z.eqb_spec rating c) as [E2|_]; [|reflexivity].
           exfalso. apply Hne. now rewrite E2.
      * subst v. congruence.
  - intros formatIndex. cbv zeta. unfold Components.handleFormatChange.
    destruct (AppStore.selectedVersion (UI.store ui)) as [sel|] eqn:Esel;
      [|split; [exact Hmirror|exact Hlisted]].
    unfold liftWorld, UseDB.updateVersionFormat, versions_update. cbv beta iota zeta.
    set (versionId := Version.id (VersionWithTags.version sel)).
    split.
    + unfold songsMirror. cbn [UI.store UI.session]. symmetry.
      exact (Hpatch versionId (withSelectedFormatIndex formatIndex)
                    (fun _ => eq_refl) (fun _ => eq_refl)).
    + unfold selectionListed. cbn [UI.store].
      specialize (Hsel versionId (withSelectedFormatIndex formatIndex)).
      unfold AppStore.updateVersionFormat.
      cbn [AppStore.selectedVersion AppStore.songs].
      try rewrite Esel.
      unfold patchEntry in Hsel.
      destruct (Version.id (VersionWithTags.version sel) =? versionId); exact Hsel.
Qed.

Lemma handleRating_handleFormatChange_keep_mirror_witness :
  songsMirror (Components.handleRating 10 None 4 uiLibrary) /\
  songsMirror (Components.handleFormatChange 0 uiLibrary).
Proof.
  destruct (@handleRating_handleFormatChange_keep_mirror uiLibrary)
    as (Hrating & Hformat).
  - reflexivity.
  - eexists. split; [left; reflexivity|left; reflexivity].
  - split; [apply (Hrating 10 None 4)|apply (Hformat 0)].
Defined.

(* ================================================================== *)
(** ** Timestamps: from the player into a note and back *)

From Stdlib Require Import Lqa.

Section Timestamps.

Local Open Scope Q_scope.

Lemma Qfloor_unique (y : Q) (z : Z) :
  inject_Z z <= y -> y < inject_Z (z + 1) -> Qfloor y = z.
Proof.
  intros Hle Hlt.
  pose proof (Qfloor_le y) as H1. pose proof (Qlt_floor y) as H2.
  assert (A : (Qfloor y < z + 1)%Z).
  { rewrite Zlt_Qlt. eapply Qle_lt_trans; eassumption. }
  assert (B : (z < Qfloor y + 1)%Z).
  { rewrite Zlt_Qlt. eapply Qle_lt_trans; eassumption. }
  lia.
Qed.

(** Whole minutes and the seconds that remain, of a time that is not
    negative. *)
Lemma minutes_and_seconds (x : Q) :
  0 <= x ->
  let q := Qfloor (x / 60) in
  let r := Qfloor (x - 60 * inject_Z q) in
  (0 <= q)%Z /\ (0 <= r < 60)%Z /\ (q * 60 + r = Qfloor x)%Z.
Proof.
  intros Hx.
  assert (Ey : x == 60 * (x / 60)) by field.
  revert Ey. generalize (x / 60). intros y Ey q r.
  pose proof (Qfloor_le y) as H1. pose proof (Qlt_floor y) as H2.
  fold q in H1, H2. rewrite inject_Z_plus in H2. change (inject_Z 1) with 1 in H2.
  pose proof (Qfloor_le x) as H3. pose proof (Qlt_floor x) as H4.
  rewrite inject_Z_plus in H4. change (inject_Z 1) with 1 in H4.
  assert (Hq : (0 <= q)%Z).
  { assert (H : 0 < inject_Z q + 1) by lra.
    assert ((0 < q + 1)%Z) by (rewrite Zlt_Qlt, inject_Z_plus; exact H).
    lia. }
  assert (Er : r = (Qfloor x - 60 * q)%Z).
  { apply Qfloor_unique.
    - unfold Z.sub. rewrite inject_Z_plus, inject_Z_opp, inject_Z_mult.
      change (inject_Z 60) with 60. lra.
    - unfold Z.sub. rewrite !inject_Z_plus, inject_Z_opp, inject_Z_mult.
      change (inject_Z 60) with 60. change (inject_Z 1) with 1. lra. }
  split; [exact Hq|].
  assert (A : (60 * q <= Qfloor x)%Z).
  { assert ((60 * q < Qfloor x + 1)%Z); [|lia].
    rewrite Zlt_Qlt, inject_Z_plus, inject_Z_mult. change (inject_Z 60) with 60.
    change (inject_Z 1) with 1. lra. }
  assert (B : (Qfloor x < 60 * q + 60)%Z).
  { rewrite Zlt_Qlt, inject_Z_plus, inject_Z_mult. change (inject_Z 60) with 60. lra. }
  lia.
Qed.

Lemma remainder_nonneg (x : Q) :
  0 <= x ->
  Display.remainder x 60 = x - 60 * inject_Z (Qfloor (x / 60)).
Proof.
  intros Hx. unfold Display.remainder, Display.Qtruncate.
  assert (Hy : 0 <= x / 60).
  { assert (Ey : x == 60 * (x / 60)) by field.
    revert Ey. generalize (x / 60). intros y Ey. lra. }
  destruct (Qlt_bool (x / 60) 0) eqn:E; [|reflexivity].
  apply Qlt_bool_iff in E. exfalso. apply (Qlt_not_le _ _ E). exact Hy.
Qed.

Local Close Scope Q_scope.

(** A string of decimal digits only. *)
Fixpoint allDigits (s : string) : bool :=
  match s with
  | EmptyString => true
  | String a s' => isDigit a && allDigits s'
  end.

(** [s] does not begin with a digit. *)
Definition noDigitAhead (s : string) : bool :=
  match s with
  | EmptyString => true
  | String a _ => negb (isDigit a)
  end.

Lemma digits_then_rest (ds rest : string) :
  allDigits ds = true -> noDigitAhead rest = true ->
  digitsPrefix (String.append ds rest) = ds /\
  Components.afterDigits (String.append ds rest) = rest.
Proof.
  intros Hds Hrest. induction ds as [|a ds IH]; simpl.
  - destruct rest as [|b rest]; [now split|].
    simpl in Hrest. apply negb_true_iff in Hrest. simpl. now rewrite Hrest.
  - simpl in Hds. apply andb_prop in Hds. destruct Hds as (Ha & Hds).
    rewrite Ha. destruct (IH Hds) as (H1 & H2). now rewrite H1, H2.
Qed.

Lemma allDigits_uint (d : Decimal.uint) :
  allDigits (NilEmpty.string_of_uint d) = true.
Proof. induction d; simpl; try reflexivity; exact IHd. Qed.

Lemma allDigits_number (z : Z) :
  (0 <= z)%Z ->
  allDigits (numberToString z) = true /\ numberToString z <> EmptyString.
Proof.
  intros Hz. unfold numberToString. destruct z as [|p|p]; [| |lia].
  - split; [reflexivity|discriminate].
  - simpl Z.to_int. simpl NilEmpty.string_of_int.
    split; [apply allDigits_uint|].
    pose proof (DecimalPos.Unsigned.to_uint_nonnil p) as Hne.
    destruct (Pos.to_uint p); simpl; congruence.
Qed.

Lemma allDigits_padStart2 (s : string) :
  allDigits s = true ->
  allDigits (Display.padStart2 s) = true /\ Display.padStart2 s <> EmptyString.
Proof.
  intros H. destruct s as [|a [|b s]]; simpl in *.
  - split; [reflexivity|discriminate].
  - split; [exact H|discriminate].
  - split; [exact H|discriminate].
Qed.

(** The two-digit seconds field reads back as the number it was made
    from. *)
Lemma parseInt_padStart2 (r : Z) :
  (0 <= r < 60)%Z -> parseInt (Display.padStart2 (numberToString r)) = Some r.
Proof.
  intros Hr.
  assert (Hall : forallb (fun n => match parseInt (Display.padStart2
                                                     (numberToString (Z.of_nat n))) with
                                   | Some v => (v =? Z.of_nat n)%Z
                                   | None => false
                                   end) (seq 0 60) = true)
    by (vm_compute; reflexivity).
  rewrite forallb_forall in Hall.
  specialize (Hall (Z.to_nat r)). rewrite Z2Nat.id in Hall by lia.
  assert (Hin : In (Z.to_nat r) (seq 0 60)) by (apply in_seq; lia).
  specialize (Hall Hin).
  destruct (parseInt _) as [v|]; [|discriminate].
  apply Z.eqb_eq in Hall. now subst.
Qed.

Lemma matchTimestamp_skip (before rest : string) :
  occurs "@" before = false ->
  Components.matchTimestamp (String.append before rest)
  = Components.matchTimestamp rest.
Proof.
  induction before as [|a before IH]; simpl; intros H; [reflexivity|].
  apply orb_false_iff in H. destruct H as (Ha & Hb).
  rewrite Ha. now apply IH.
Qed.

Lemma matchMinutesSeconds_digits (m s rest : string) :
  allDigits m = true -> m <> EmptyString ->
  allDigits s = true -> s <> EmptyString ->
  noDigitAhead rest = true ->
  Components.matchMinutesSeconds
    (String.append m (String ":" (String.append s rest)))
  = Some (m, s).
Proof.
  intros Hm Hmne Hs Hsne Hrest. unfold Components.matchMinutesSeconds.
  destruct (@digits_then_rest m (String ":" (String.append s rest)) Hm eq_refl)
    as (-> & ->).
  destruct (@digits_then_rest s rest Hs Hrest) as (-> & _).
  destruct m; [congruence|]. destruct s; [congruence|]. reflexivity.
Qed.

End Timestamps.

(** X11.  A timestamp inserted from the player reads back as the position
    it was taken at, in whole seconds.  For a time [seconds >= 0],
    [formatTimestamp] prints [m:ss] with [ss] in two digits below 60; when
    the content of a new note holds [@m:ss] as its first [@], followed by
    anything that is not a digit, [handleCreateNote] reads the timestamp
    [floor(seconds)] off it; and a seek to that timestamp passes the
    player's guard whenever the time was within the track. *)
Theorem timestamp_round_trip :
  forall (seconds : Q) (before after : string),
    (0 <= seconds)%Q ->
    occurs "@" before = false ->
    noDigitAhead after = true ->
    Components.contentTimestamp
      (String.append before
         (String "@" (String.append (Display.formatTimestamp seconds) after)))
    = Some (Qfloor seconds) /\
    (exists m s : Z,
        (0 <= m)%Z /\ (0 <= s < 60)%Z /\ (m * 60 + s = Qfloor seconds)%Z /\
        Display.formatTimestamp seconds
        = String.append (numberToString m)
                        (String ":" (Display.padStart2 (numberToString s))) /\
        String.length (Display.padStart2 (numberToString s)) = 2%nat) /\
    (forall duration : Q,
        (seconds <= duration)%Q ->
        Components.seekAccepted (inject_Z (Qfloor seconds)) duration = true).
Proof.
  intros seconds before after Hpos Hbefore Hafter.
  pose proof (minutes_and_seconds Hpos) as Hsplit. cbv zeta in Hsplit.
  rewrite <- (remainder_nonneg Hpos) in Hsplit.
  set (m := Qfloor (seconds / 60)) in *.
  set (s := Qfloor (Display.remainder seconds 60)) in *.
  destruct Hsplit as (Hm & Hs & Hsum).
  assert (Hfmt : Display.formatTimestamp seconds
                 = String.append (numberToString m)
                     (String ":" (Display.padStart2 (numberToString s))))
    by reflexivity.
  destruct (allDigits_number Hm) as (Dm & Nm).
  destruct (allDigits_number (proj1 Hs)) as (Ds0 & _).
  destruct (allDigits_padStart2 _ Ds0) as (Ds & Ns).
  split; [|split].
  - unfold Components.contentTimestamp.
    rewrite matchTimestamp_skip by exact Hbefore.
    cbn [Components.matchTimestamp]. change (Ascii.eqb "@" "@") with true. cbv iota.
    rewrite Hfmt.
    replace (String.append
               (String.append (numberToString m)
                  (String ":" (Display.padStart2 (numberToString s)))) after)
      with (String.append (numberToString m)
              (String ":" (String.append (Display.padStart2 (numberToString s)) after))).
    + rewrite (matchMinutesSeconds_digits _ Dm Nm Ds Ns Hafter).
      rewrite parseInt_numberToString, (parseInt_padStart2 Hs).
      now rewrite Hsum.
    + generalize (numberToString m). intros t.
      induction t as [|a t IH]; simpl; [reflexivity|now rewrite IH].
  - exists m, s. split; [exact Hm|]. split; [exact Hs|]. split; [exact Hsum|].
    split; [exact Hfmt|].
    assert (Hall : forallb (fun n => (String.length
                                        (Display.padStart2
                                           (numberToString (Z.of_nat n))) =? 2)%nat)
                           (seq 0 60) = true) by (vm_compute; reflexivity).
    rewrite forallb_forall in Hall.
    specialize (Hall (Z.to_nat s)). rewrite Z2Nat.id in Hall by lia.
    apply Nat.eqb_eq. apply Hall. apply in_seq. lia.
  - intros duration Hle. unfold Components.seekAccepted.
    apply andb_true_intro. split; apply Qle_bool_iff.
    + rewrite <- Hsum. change 0%Q with (inject_Z 0). rewrite <- Zle_Qle. lia.
    + eapply Qle_trans; [apply Qfloor_le|exact Hle].
Qed.

Lemma timestamp_round_trip_witness :
  Components.contentTimestamp
    (String.append "<p>solo "
       (String "@" (String.append (Display.formatTimestamp (131 # 2)) " is late</p>")))
  = Some 65.
Proof.
  apply (@timestamp_round_trip (131 # 2) "<p>solo " " is late</p>").
  - discriminate.
  - reflexivity.
  - reflexivity.
Defined.

(* ================================================================== *)
(** ** Notes: the commands and the handlers of [RichTextEditor] *)

Section Notes.

Variable env : Env.t.

(** The key generator of [notes] is ahead of every id in the table. *)
Definition noteKeysOk (s : Session.t) : Prop :=
  forall n, In n (DB.notes (Session.db s)) -> Note.id n < Session.notesNextId s.

(** The row that [createNote] writes in the session [s]. *)
Definition createdNote (s : Session.t) (versionId : Z) (content : string)
           (timestamp : option Q) : Note.t :=
  let w := Session.world s in
  Note.mk (Session.notesNextId s) versionId content timestamp
          (Env.dateNow env (World.datesRead w))
          (Env.dateNow env (S (World.datesRead w))).

(** The session after [createNote]. *)
Definition afterCreateNote (s : Session.t) (note : Note.t) : Session.t :=
  let w := Session.world s in
  let d := World.db w in
  Session.mk
    (World.mk (DB.mk (DB.songs d) (DB.versions d) (DB.versionsNextId d)
                     (DB.versionTags d) (DB.notes d ++ [note]) (DB.images d)
                     (DB.fileHandles d))
              (World.uuidsDrawn w) (S (S (World.datesRead w))))
    (Session.tags s) (Session.tagsNextId s) (Session.songsNextId s)
    (Session.notesNextId s + 1).

Lemma createNote_run (s : Session.t) versionId content timestamp :
  let note := createdNote s versionId content timestamp in
  Commands.createNote env versionId content timestamp s
  = (Ok (Commands.notes_get (Session.notesNextId s)
                            (Session.db (afterCreateNote s note))),
     afterCreateNote s note).
Proof. reflexivity. Qed.

Lemma notes_get_created (s : Session.t) (note : Note.t) :
  noteKeysOk s ->
  Note.id note = Session.notesNextId s ->
  Commands.notes_get (Session.notesNextId s) (Session.db (afterCreateNote s note))
  = Some note.
Proof.
  intros Hkeys Hid. unfold Commands.notes_get, afterCreateNote, Session.db.
  cbn [Session.world World.db DB.notes]. rewrite find_snoc.
  rewrite find_all_false.
  - now rewrite Hid, Z.eqb_refl.
  - intros n Hn. apply Z.eqb_neq. specialize (Hkeys n Hn). lia.
Qed.

Lemma getNotes_snoc (d : DB.t) (note : Note.t) (versionId : Z) :
  getNotes versionId
    (DB.mk (DB.songs d) (DB.versions d) (DB.versionsNextId d) (DB.versionTags d)
           (DB.notes d ++ [note]) (DB.images d) (DB.fileHandles d))
  = getNotes versionId d
    ++ (if Note.versionId note =? versionId then [note] else []).
Proof. unfold getNotes. cbn [DB.notes]. apply filter_app. Qed.

(** A note without the date of its last update. *)
Definition noteOutline (n : Note.t) : Z * Z * string * option Q * string :=
  (Note.id n, Note.versionId n, Note.content n, Note.timestamp n, Note.createdAt n).

(** The tables after [updateNote]: the rows with that id carry the new
    content and date. *)
Definition updatedNotes (noteId : Z) (content updatedAt : string)
           (notes : list Note.t) : list Note.t :=
  map (fun n => if Note.id n =? noteId
                then Note.mk (Note.id n) (Note.versionId n) content
                             (Note.timestamp n) (Note.createdAt n) updatedAt
                else n) notes.

Lemma patchNotes_run (noteId : Z) (content : string) (notes : list Note.t) :
  forall w,
  exists patched w',
    Components.patchNotes env noteId content notes w = (Ok patched, w') /\
    World.db w' = World.db w /\
    World.uuidsDrawn w' = World.uuidsDrawn w /\
    forall updatedAt,
      map noteOutline patched
      = map noteOutline (updatedNotes noteId content updatedAt notes).
Proof.
  induction notes as [|n notes IH]; intros w; cbn [Components.patchNotes].
  - exists [], w. unfold ret. repeat split; reflexivity.
  - unfold bindM at 1.
    destruct (Z.eqb_spec (Note.id n) noteId) as [E|E].
    + unfold bindM at 1. unfold newDateISO at 1. cbv beta iota. unfold ret at 1.
      cbv beta iota.
      destruct (IH (World.mk (World.db w) (World.uuidsDrawn w)
                             (S (World.datesRead w))))
        as (patched & w' & Hrun & Hdb & Hu & Hout).
      unfold bindM. rewrite Hrun. unfold ret.
      eexists. exists w'. split; [reflexivity|].
      split; [exact Hdb|]. split; [exact Hu|].
      intros updatedAt. cbn [map updatedNotes].
      apply Z.eqb_eq in E. rewrite E.
      f_equal. exact (Hout updatedAt).
    + unfold ret at 1. cbv beta iota.
      destruct (IH w) as (patched & w' & Hrun & Hdb & Hu & Hout).
      unfold bindM. rewrite Hrun. unfold ret.
      eexists. exists w'. split; [reflexivity|].
      split; [exact Hdb|]. split; [exact Hu|].
      intros updatedAt. cbn [map updatedNotes].
      apply Z.eqb_neq in E. rewrite E.
      f_equal. exact (Hout updatedAt).
Qed.

Lemma getNotes_updatedNotes (d : DB.t) noteId content updatedAt versionId :
  getNotes versionId
    (DB.mk (DB.songs d) (DB.versions d) (DB.versionsNextId d) (DB.versionTags d)
           (updatedNotes noteId content updatedAt (DB.notes d))
           (DB.images d) (DB.fileHandles d))
  = updatedNotes noteId content updatedAt (getNotes versionId d).
Proof.
  unfold getNotes, updatedNotes. cbn [DB.notes].
  apply filter_map_same. intros n. now destruct (Note.id n =? noteId).
Qed.

End Notes.

Section NoteHandlers.

Variable env : Env.t.

(** The store shows the notes of the version in the tables: the same notes,
    the date of the last update apart, in whatever order. *)
Definition notesShown (versionId : Z) (ui : UI.t) : Prop :=
  Permutation (map noteOutline (AppStore.notes (UI.store ui)))
              (map noteOutline (getNotes versionId (Session.db (UI.session ui)))).

Lemma insertNote_rearranges (x : Note.t) (sorted : list Note.t) :
  Permutation (Components.insertNote env x sorted) (x :: sorted).
Proof.
  induction sorted as [|y rest IH]; cbn [Components.insertNote]; [apply Permutation_refl|].
  destruct (Components.sortsBefore env x y); [apply Permutation_refl|].
  apply Permutation_trans with (l' := y :: x :: rest).
  - now apply perm_skip.
  - apply perm_swap.
Qed.

Lemma sortNotes_rearranges (notes : list Note.t) :
  Permutation (Components.sortNotes env notes) notes.
Proof.
  unfold Components.sortNotes.
  assert (H : forall sorted,
             Permutation (fold_left (fun acc x => Components.insertNote env x acc) notes sorted)
                         (sorted ++ notes)).
  { induction notes as [|x notes IH]; intros sorted; cbn [fold_left].
    - rewrite app_nil_r. apply Permutation_refl.
    - apply Permutation_trans with (l' := Components.insertNote env x sorted ++ notes);
        [apply IH|].
      apply Permutation_trans with (l' := (x :: sorted) ++ notes).
      + apply Permutation_app_tail. apply insertNote_rearranges.
      + apply Permutation_middle. }
  exact (H []).
Qed.

(** The outline of a note after [{ ...n, content, updatedAt }]. *)
Definition updatedOutline (noteId : Z) (content : string)
           (o : Z * Z * string * option Q * string)
  : Z * Z * string * option Q * string :=
  match o with
  | (id, versionId, c, timestamp, createdAt) =>
      if id =? noteId then (id, versionId, content, timestamp, createdAt) else o
  end.

Lemma updatedNotes_outline noteId content updatedAt (notes : list Note.t) :
  map noteOutline (updatedNotes noteId content updatedAt notes)
  = map (updatedOutline noteId content) (map noteOutline notes).
Proof.
  unfold updatedNotes. rewrite !map_map. apply map_ext. intros n.
  unfold noteOutline, updatedOutline.
  destruct (Note.id n =? noteId); reflexivity.
Qed.

Definition outlineKept (noteId : Z) (o : Z * Z * string * option Q * string) : bool :=
  negb (fst (fst (fst (fst o))) =? noteId).

Lemma deleted_outline noteId (notes : list Note.t) :
  map noteOutline (filter (fun n => negb (Note.id n =? noteId)) notes)
  = filter (outlineKept noteId) (map noteOutline notes).
Proof.
  induction notes as [|n notes IH]; [reflexivity|]. cbn [filter map].
  unfold outlineKept at 1. cbn [noteOutline fst].
  destruct (Note.id n =? noteId); cbn [negb map]; now rewrite IH.
Qed.

Lemma filter_rearranged {A} (keep : A -> bool) (l1 l2 : list A) :
  Permutation l1 l2 -> Permutation (filter keep l1) (filter keep l2).
Proof.
  intros H. induction H as [|x l1 l2 H IH|x y l|l1 l2 l3 H12 IH12 H23 IH23];
    cbn [filter].
  - apply Permutation_refl.
  - destruct (keep x); [now apply perm_skip|exact IH].
  - destruct (keep x), (keep y); try apply Permutation_refl. apply perm_swap.
  - now apply Permutation_trans with (l' := filter keep l2).
Qed.

(** [updateNote] followed by the patch of the store's list. *)
Lemma updateNote_then_patch (noteId : Z) (content : string)
      (notes : list Note.t) (s : Session.t) :
  let w := Session.world s in
  let d := World.db w in
  exists patched s',
    liftWorld (_ <- Commands.updateNote env noteId content ;;
               Components.patchNotes env noteId content notes) s
    = (Ok patched, s') /\
    Session.db s'
    = DB.mk (DB.songs d) (DB.versions d) (DB.versionsNextId d) (DB.versionTags d)
            (updatedNotes noteId content (Env.dateNow env (World.datesRead w))
                          (DB.notes d))
            (DB.images d) (DB.fileHandles d) /\
    Session.notesNextId s' = Session.notesNextId s /\
    Session.tags s' = Session.tags s /\
    forall updatedAt,
      map noteOutline patched
      = map noteOutline (updatedNotes noteId content updatedAt notes).
Proof.
  cbv zeta. unfold liftWorld, Commands.updateNote.
  unfold bindM at 1. unfold bindM at 1. unfold newDateISO at 1. cbv beta iota zeta.
  set (w1 := World.with_db _ _).
  destruct (patchNotes_run env noteId content notes w1)
    as (patched & w' & Hrun & Hdb & _ & Hout).
  rewrite Hrun. exists patched. eexists. split; [reflexivity|].
  unfold Session.db, Session.with_world. cbn [Session.world Session.notesNextId
    Session.tags].
  rewrite Hdb. unfold w1, World.with_db. cbn [World.db].
  repeat split; try reflexivity. exact Hout.
Qed.

End NoteHandlers.

(** X12.  [createNote] appends exactly one row and returns it.  In a session
    whose note ids are below the key generator, the command returns the new
    note: its id is the generator's next key, its version, content and
    timestamp are the arguments, and its two dates are two successive
    readings of the clock; [getNotes] of that version is what it was
    followed by the new note, [getNotes] of every other version is
    unchanged, no other table changes, and the ids stay below the
    generator. *)
Theorem createNote_appends_note :
  forall (env : Env.t) (s : Session.t) (versionId : Z) (content : string)
         (timestamp : option Q),
    noteKeysOk s ->
    exists note s',
      Commands.createNote env versionId content timestamp s = (Ok (Some note), s') /\
      note = Note.mk (Session.notesNextId s) versionId content timestamp
                     (Env.dateNow env (World.datesRead (Session.world s)))
                     (Env.dateNow env (S (World.datesRead (Session.world s)))) /\
      getNotes versionId (Session.db s')
      = getNotes versionId (Session.db s) ++ [note] /\
      (forall other, other <> versionId ->
                     getNotes other (Session.db s') = getNotes other (Session.db s)) /\
      noteKeysOk s' /\
      DB.songs (Session.db s') = DB.songs (Session.db s) /\
      DB.versions (Session.db s') = DB.versions (Session.db s) /\
      DB.versionTags (Session.db s') = DB.versionTags (Session.db s) /\
      DB.images (Session.db s') = DB.images (Session.db s) /\
      DB.fileHandles (Session.db s') = DB.fileHandles (Session.db s).
Proof.
  intros env s versionId content timestamp Hkeys.
  set (note := createdNote env s versionId content timestamp).
  exists note, (afterCreateNote s note).
  split.
  - rewrite createNote_run. cbv zeta. fold note.
    now rewrite (@notes_get_created s note Hkeys eq_refl).
  - split; [reflexivity|].
    unfold afterCreateNote, Session.db. cbn [Session.world World.db].
    split; [|split; [|split]].
    + rewrite getNotes_snoc. unfold note, createdNote. cbn [Note.versionId].
      now rewrite Z.eqb_refl.
    + intros other Hne. rewrite getNotes_snoc.
      unfold note, createdNote. cbn [Note.versionId].
      destruct (Z.eqb_spec versionId other) as [E|_]; [congruence|].
      now rewrite app_nil_r.
    + unfold noteKeysOk, Session.db. cbn [Session.world World.db DB.notes
        Session.notesNextId].
      intros n Hn. apply in_app_or in Hn. destruct Hn as [Hn|[<-|[]]].
      * specialize (Hkeys n Hn). unfold Session.db in Hkeys. lia.
      * unfold note, createdNote. cbn [Note.id]. lia.
    + repeat split.
Qed.

Lemma createNote_appends_note_witness :
  exists note s',
    Commands.createNote env0 12 "<p>intro is flat</p>" None sessionLibrary
    = (Ok (Some note), s') /\
    getNotes 12 (Session.db s') = [Note.mk 5 12 "<p>note</p>" None "t" "t"; note].
Proof.
  destruct (@createNote_appends_note env0 sessionLibrary 12 "<p>intro is flat</p>" None)
    as (note & s' & Hrun & _ & Hnotes & _).
  - intros n Hn. simpl in Hn.
    repeat (destruct Hn as [<-|Hn]; [reflexivity|]). contradiction.
  - exists note, s'. split; [exact Hrun|exact Hnotes].
Defined.

(** X13.  The list of notes of [RichTextEditor] shows the notes of the
    version, through every render and every handler.  When note ids are
    below the key generator and the store holds the notes that the tables
    hold for the version (the date of the last update apart, in whatever
    order), then it still does after a render, which sorts the store's
    array in place, after [handleCreateNote] for that version, after
    [handleUpdateNote] and after [handleDeleteNote], whatever the editor
    holds and whatever the answer to the confirmation; a render changes no
    table, and the ids stay below the generator.  The order is set apart
    because the render puts the newest note first while the tables keep the
    notes by id; the date of the last update is set apart because
    [handleUpdateNote] reads the clock a second time for the store's copy. *)
Theorem note_handlers_keep_notes_shown :
  forall (env : Env.t) (versionId : Z) (ui : UI.t),
    noteKeysOk (UI.session ui) ->
    notesShown versionId ui ->
    (notesShown versionId (Components.render env ui) /\
     UI.session (Components.render env ui) = UI.session ui) /\
    (forall editor,
        let ui' := Components.handleCreateNote env versionId editor ui in
        notesShown versionId ui' /\ noteKeysOk (UI.session ui')) /\
    (forall noteId editor,
        let ui' := Components.handleUpdateNote env noteId editor ui in
        notesShown versionId ui' /\ noteKeysOk (UI.session ui')) /\
    (forall confirmed noteId,
        let ui' := Components.handleDeleteNote confirmed noteId ui in
        notesShown versionId ui' /\ noteKeysOk (UI.session ui')).
Proof.
  intros env versionId ui Hkeys Hshown. split; [|split; [|split]].
  - split; [|reflexivity]. unfold notesShown in *.
    cbn [Components.render UI.store UI.session AppStore.setNotes AppStore.notes].
    apply Permutation_trans
      with (l' := map noteOutline (AppStore.notes (UI.store ui))); [|exact Hshown].
    apply Permutation_map. apply sortNotes_rearranges.
  - intros [e|]; cbv zeta; [|now split].
    unfold Components.handleCreateNote.
    destruct (Editor.isEmpty e); [now split|].
    destruct (@createNote_appends_note env (UI.session ui) versionId
                (Editor.getHTML e)
                (option_map inject_Z (Components.contentTimestamp (Editor.getHTML e)))
                Hkeys)
      as (note & s' & Hrun & _ & Hnotes & _ & Hkeys' & _).
    rewrite Hrun. split; [|exact Hkeys'].
    unfold notesShown in *. cbn [UI.store UI.session AppStore.setNotes AppStore.notes].
    rewrite Hnotes, !map_app. now apply Permutation_app_tail.
  - intros noteId [e|]; cbv zeta; [|now split].
    unfold Components.handleUpdateNote.
    destruct (Editor.isEmpty e); [now split|].
    destruct (updateNote_then_patch env noteId (Editor.getHTML e)
                (AppStore.notes (UI.store ui)) (UI.session ui))
      as (patched & s' & Hrun & Hdb & Hnext & _ & Hout).
    rewrite Hrun. split.
    + unfold notesShown in *.
      cbn [UI.store UI.session AppStore.setNotes AppStore.notes].
      rewrite Hdb, getNotes_updatedNotes.
      rewrite (Hout EmptyString), !updatedNotes_outline.
      now apply Permutation_map.
    + unfold noteKeysOk in *. cbn [UI.session]. rewrite Hdb, Hnext.
      cbn [DB.notes]. intros n Hn. unfold updatedNotes in Hn.
      apply in_map_iff in Hn. destruct Hn as (n0 & <- & Hn0).
      specialize (Hkeys n0 Hn0).
      now destruct (Note.id n0 =? noteId).
  - intros confirmed noteId. cbv zeta. unfold Components.handleDeleteNote.
    destruct confirmed; [|now split].
    unfold liftWorld, Commands.deleteNote. cbv beta iota zeta. split.
    + unfold notesShown in *.
      cbn [UI.store UI.session AppStore.setNotes AppStore.notes].
      unfold Session.db, Session.with_world, World.with_db.
      cbn [Session.world World.db].
      unfold getNotes at 1. cbn [DB.notes].
      rewrite filter_twice.
      replace (filter (fun n => negb (Note.id n =? noteId) && (Note.versionId n =? versionId))
                      (DB.notes (World.db (Session.world (UI.session ui)))))
        with (filter (fun n => negb (Note.id n =? noteId))
                     (getNotes versionId (Session.db (UI.session ui)))).
      * rewrite !deleted_outline. now apply filter_rearranged.
      * unfold getNotes, Session.db. rewrite filter_twice.
        apply filter_ext. intros n. apply andb_comm.
    + unfold noteKeysOk in *. cbn [UI.session].
      unfold Session.db, Session.with_world, World.with_db.
      cbn [Session.world World.db DB.notes Session.notesNextId].
      intros n Hn. apply filter_In in Hn. apply Hkeys. apply Hn.
Qed.

Lemma note_handlers_keep_notes_shown_witness :
  notesShown 10
    (Components.render env0
       (Components.handleCreateNote env0 10
          (Some (Editor.mk false "<p>late entry @0:12</p>")) uiLibrary)) /\
  notesShown 10
    (Components.handleUpdateNote env0 1
       (Some (Editor.mk false "<p>fixed</p>")) uiLibrary) /\
  notesShown 10 (Components.handleDeleteNote true 2 uiLibrary).
Proof.
  assert (Hkeys : noteKeysOk (UI.session uiLibrary)).
  { intros n Hn. simpl in Hn.
    repeat (destruct Hn as [<-|Hn]; [reflexivity|]). contradiction. }
  assert (Hshown : notesShown 10 uiLibrary) by apply Permutation_refl.
  destruct (@note_handlers_keep_notes_shown env0 10 uiLibrary Hkeys Hshown)
    as (_ & Hc & Hu & Hd).
  split; [|split; [apply Hu|apply Hd]].
  destruct (Hc (Some (Editor.mk false "<p>late entry @0:12</p>"))) as (Hc1 & Hc2).
  exact (proj1 (proj1 (@note_handlers_keep_notes_shown env0 10 _ Hc2 Hc1))).
Defined.

(** Two notes written one after the other, the list being rendered after
    each: the store has the later note first, the table has it last. *)
Example render_puts_newest_first :
  let start := UI.mk (Session.mk world0 [] 1 1 1) AppStore.initial in
  let first := Components.render env0
                 (Components.handleCreateNote env0 1
                    (Some (Editor.mk false "<p>one</p>")) start) in
  let second := Components.render env0
                  (Components.handleCreateNote env0 1
                     (Some (Editor.mk false "<p>two</p>")) first) in
  map Note.id (AppStore.notes (UI.store second)) = [2; 1] /\
  map Note.id (getNotes 1 (Session.db (UI.session second))) = [1; 2].
Proof. split; reflexivity. Qed.

(** X14.  The timestamp of a note is fixed when the note is created and an
    edit never re-reads it.  After [handleCreateNote] with content [c1]
    followed by [handleUpdateNote] of that note with content [c2], the row
    in the tables carries the content [c2] but still the timestamp read off
    [c1], whatever [@m:ss] the new content holds; and so does the store's
    copy of the note. *)
Theorem note_timestamp_fixed_at_creation :
  forall (env : Env.t) (versionId : Z) (c1 c2 : string) (ui : UI.t),
    noteKeysOk (UI.session ui) ->
    let noteId := Session.notesNextId (UI.session ui) in
    let ui1 := Components.handleCreateNote env versionId
                 (Some (Editor.mk false c1)) ui in
    let ui2 := Components.handleUpdateNote env noteId
                 (Some (Editor.mk false c2)) ui1 in
    exists note,
      Commands.notes_get noteId (Session.db (UI.session ui2)) = Some note /\
      Note.versionId note = versionId /\
      Note.content note = c2 /\
      Note.timestamp note
      = option_map inject_Z (Components.contentTimestamp c1) /\
      exists copy,
        In copy (AppStore.notes (UI.store ui2)) /\
        noteOutline copy = noteOutline note.
Proof.
  intros env versionId c1 c2 ui Hkeys. cbv zeta.
  unfold Components.handleCreateNote. cbn [Editor.isEmpty Editor.getHTML].
  set (ts := option_map inject_Z (Components.contentTimestamp c1)).
  rewrite createNote_run. cbv zeta.
  set (note := createdNote env (UI.session ui) versionId c1 ts).
  rewrite (@notes_get_created (UI.session ui) note Hkeys eq_refl).
  unfold Components.handleUpdateNote. cbn [Editor.isEmpty Editor.getHTML UI.session
    UI.store AppStore.setNotes AppStore.notes].
  set (s1 := afterCreateNote (UI.session ui) note).
  destruct (updateNote_then_patch env (Session.notesNextId (UI.session ui)) c2
              (AppStore.notes (UI.store ui) ++ [note]) s1)
    as (patched & s2 & Hrun & Hdb & _ & _ & Hout).
  rewrite Hrun. cbn [UI.session UI.store AppStore.setNotes AppStore.notes].
  set (u := Env.dateNow env (World.datesRead (Session.world s1))) in Hdb.
  exists (Note.mk (Session.notesNextId (UI.session ui)) versionId c2 ts
                  (Note.createdAt note) u).
  split; [|split; [reflexivity|split; [reflexivity|split; [reflexivity|]]]].
  - rewrite Hdb. unfold Commands.notes_get. cbn [DB.notes].
    unfold s1, afterCreateNote. cbn [Session.world World.db DB.notes].
    unfold updatedNotes. rewrite map_app. cbn [map].
    rewrite find_snoc. rewrite find_all_false.
    + unfold note, createdNote. cbn [Note.id Note.versionId Note.timestamp
        Note.createdAt]. now rewrite !Z.eqb_refl.
    + intros n Hn. apply in_map_iff in Hn. destruct Hn as (n0 & <- & Hn0).
      specialize (Hkeys n0 Hn0). unfold Session.db in Hkeys.
      assert (E : (Note.id n0 =? Session.notesNextId (UI.session ui)) = false)
        by (apply Z.eqb_neq; lia).
      now rewrite E, E.
  - specialize (Hout u). unfold updatedNotes in Hout.
    rewrite map_app, !map_app in Hout. cbn [map] in Hout.
    assert (Hlast : exists copy init, patched = init ++ [copy] /\
                                      noteOutline copy
                                      = noteOutline
                                          (if Note.id note =? Session.notesNextId (UI.session ui)
                                           then Note.mk (Note.id note) (Note.versionId note)
                                                        c2 (Note.timestamp note)
                                                        (Note.createdAt note) u
                                           else note)).
    { clear -Hout. destruct (exists_last (l := patched)) as (init & copy & ->).
      - intros ->. apply (f_equal (@List.length _)) in Hout.
        rewrite length_app in Hout. simpl in Hout. lia.
      - exists copy, init. split; [reflexivity|].
        rewrite map_app in Hout. cbn [map] in Hout.
        apply app_inj_tail in Hout. apply Hout. }
    destruct Hlast as (copy & init & -> & Hcopy).
    exists copy. split; [apply in_or_app; right; now left|].
    rewrite Hcopy. unfold note, createdNote. cbn [Note.id].
    now rewrite Z.eqb_refl.
Qed.

Lemma note_timestamp_fixed_at_creation_witness :
  exists note,
    Commands.notes_get 6
      (Session.db
         (UI.session
            (Components.handleUpdateNote env0 6 (Some (Editor.mk false "<p>now @2:00</p>"))
               (Components.handleCreateNote env0 10
                  (Some (Editor.mk false "<p>late entry @0:12</p>")) uiLibrary))))
    = Some note /\
    Note.content note = "<p>now @2:00</p>" /\
    Note.timestamp note = Some (inject_Z 12).
Proof.
  destruct (@note_timestamp_fixed_at_creation env0 10 "<p>late entry @0:12</p>"
              "<p>now @2:00</p>" uiLibrary)
    as (note & Hget & _ & Hcontent & Hts & _).
  - intros n Hn. simpl in Hn.
    repeat (destruct Hn as [<-|Hn]; [reflexivity|]). contradiction.
  - exists note. split; [exact Hget|]. split; [exact Hcontent|exact Hts].
Defined.

(* ================================================================== *)
(** ** Adding a Song folder *)

Section AddSongFolder.

Variable env : Env.t.

Lemma bindS_ok {A B} (m : SM A) (k : A -> SM B) (s s' : Session.t) (a : A) :
  m s = (Ok a, s') -> bindS m k s = k a s'.
Proof. intros H. unfold bindS. now rewrite H. Qed.

Lemma liftWorld_run {A} (m : M A) (s : Session.t) (r : result A) (w' : World.t) :
  m (Session.world s) = (r, w') ->
  liftWorld m s = (r, Session.with_world w' s).
Proof. intros H. unfold liftWorld. now rewrite H. Qed.

(** Song ids, and the Songs that Versions name, are below the key generator
    of [songs]. *)
Definition songKeysOk (s : Session.t) : Prop :=
  (forall song, In song (DB.songs (Session.db s)) ->
                Song.id song < Session.songsNextId s) /\
  (forall v, In v (DB.versions (Session.db s)) ->
             Version.songId v < Session.songsNextId s).

(** The folder handle of every Song is a key of the registry. *)
Definition foldersRegistered (s : Session.t) : Prop :=
  forall song, In song (DB.songs (Session.db s)) ->
               fileHandles_get (Song.folderHandle song) (Session.db s) <> None.

Lemma UuidsFresh_same (w w' : World.t) :
  DB.fileHandles (World.db w') = DB.fileHandles (World.db w) ->
  World.uuidsDrawn w' = World.uuidsDrawn w ->
  UuidsFresh env w -> UuidsFresh env w'.
Proof.
  intros Hh Hu (Hinj & Hfree). unfold UuidsFresh, fileHandles_get in *.
  rewrite Hh, Hu. now split.
Qed.

Lemma fileHandles_get_grown (k : string) (d d' : DB.t)
      (added : list FileHandleRecord.t) :
  DB.fileHandles d' = DB.fileHandles d ++ added ->
  fileHandles_get k d <> None -> fileHandles_get k d' <> None.
Proof.
  unfold fileHandles_get. intros -> H.
  destruct (find _ (DB.fileHandles d)) as [r|] eqn:E; [|congruence].
  apply find_some in E. destruct E as (Hin & Hk).
  destruct (find _ (DB.fileHandles d ++ added)) eqn:E'; [discriminate|].
  assert (Hin' : In r (DB.fileHandles d ++ added)) by (apply in_or_app; now left).
  pose proof (find_none _ _ E' r Hin') as F. cbv beta in F. congruence.
Qed.

(** The Song row that [addSongFolder] writes for a picked folder. *)
Definition addedSong (s : Session.t) (dirHandle : FileSystemDirectoryHandle.t)
  : Song.t :=
  let w := Session.world s in
  Song.mk (Session.songsNextId s)
          (FileSystemDirectoryHandle.name dirHandle)
          (Env.randomUUID env (World.uuidsDrawn w))
          (Env.dateNow env (World.datesRead w))
          None.

Lemma addSongFolder_picked (dirHandle : FileSystemDirectoryHandle.t)
      (s : Session.t) :
  UuidsFresh env (Session.world s) ->
  songKeysOk s ->
  foldersRegistered s ->
  exists s' vs,
    Commands.addSongFolder env (Ok dirHandle) s
    = (Ok (Some (addedSong s dirHandle)), s') /\
    DB.songs (Session.db s') = DB.songs (Session.db s) ++ [addedSong s dirHandle] /\
    DB.versions (Session.db s') = DB.versions (Session.db s) ++ vs /\
    (forall v, In v vs -> Version.songId v = Session.songsNextId s) /\
    Session.songsNextId s' = Session.songsNextId s + 1 /\
    UuidsFresh env (Session.world s') /\
    songKeysOk s' /\
    foldersRegistered s'.
Proof.
  intros Hfresh (Hsongs & Hversions) Hreg.
  set (w := Session.world s).
  set (u0 := Env.randomUUID env (World.uuidsDrawn w)).
  (* the folder handle is registered under a fresh key *)
  destruct (@serializeHandle_fresh env (Commands.asHandle dirHandle) w Hfresh)
    as (w1 & Hser & Hfresh1 & (Hv1 & Hn1) & Hd1).
  pose proof (serializeHandle_registryGrown env _ _ Hser)
    as (Hs1 & Ht1 & Hno1 & Hi1 & (added1 & Hh1)).
  assert (Hkey1 : fileHandles_get u0 (World.db w1) <> None).
  { apply serializeHandle_ok_inv in Hser. destruct Hser as (_ & _ & ->).
    unfold fileHandles_get. cbn [World.db DB.fileHandles DB.with_fileHandles].
    rewrite find_snoc. destruct (find _ _); [discriminate|].
    cbn [FileHandleRecord.id]. now rewrite String.eqb_refl. }
  assert (Hnone : Commands.songs_firstByFolderHandle u0 (World.db w1) = None).
  { unfold Commands.songs_firstByFolderHandle. rewrite Hs1.
    apply find_all_false. intros song Hsong. apply String.eqb_neq. intros E.
    apply (Hreg song Hsong). rewrite E.
    destruct Hfresh as (_ & Hfree). specialize (Hfree 0%nat).
    now rewrite Nat.add_0_r in Hfree. }
  (* the Song row *)
  set (song := addedSong s dirHandle).
  set (d1 := World.db w1).
  set (w2 := World.mk (DB.mk (DB.songs d1 ++ [song]) (DB.versions d1)
                             (DB.versionsNextId d1) (DB.versionTags d1)
                             (DB.notes d1) (DB.images d1) (DB.fileHandles d1))
                      (World.uuidsDrawn w1) (S (World.datesRead w1))).
  assert (Hfresh2 : UuidsFresh env w2)
    by (apply (@UuidsFresh_same w1 w2); [reflexivity|reflexivity|exact Hfresh1]).
  (* the scan *)
  destruct (groupBy_spec (fun h => getBaseFileName (FileSystemHandle.name h))
                         (scanDirectoryForAudioFiles dirHandle)) as (Hnd & _ & _).
  destruct (@processGroups_fresh env (Session.songsNextId s)
              (groupFiles (scanDirectoryForAudioFiles dirHandle)) w2 Hfresh2 Hnd)
    as (w3 & vs & Hscan & Hfresh3 & Hv3 & Hall).
  { intros v Hv Hs. exfalso. unfold w2 in Hv. cbn [World.db DB.versions] in Hv.
    unfold d1 in Hv. rewrite Hv1 in Hv. specialize (Hversions v Hv). lia. }
  pose proof (processGroups_registryGrown env _ _ _ Hscan)
    as (Hs3 & _ & _ & _ & (added3 & Hh3)).
  unfold w2 in Hs3, Hv3, Hh3. cbn [World.db DB.songs DB.versions DB.fileHandles] in Hs3, Hv3, Hh3.
  unfold d1 in Hs3, Hv3, Hh3. rewrite Hs1 in Hs3. rewrite Hv1 in Hv3.
  (* the run *)
  exists (Session.mk w3 (Session.tags s) (Session.tagsNextId s)
                     (Session.songsNextId s + 1) (Session.notesNextId s)), vs.
  assert (Hget : Commands.songs_get (Session.songsNextId s) (World.db w3) = Some song).
  { unfold Commands.songs_get. rewrite Hs3, find_snoc, find_all_false.
    - unfold song, addedSong. cbn [Song.id]. now rewrite Z.eqb_refl.
    - intros x Hx. apply Z.eqb_neq. specialize (Hsongs x Hx). lia. }
  split.
  { unfold Commands.addSongFolder.
    rewrite (@bindS_ok _ _ _ _ s s (Some dirHandle)) by reflexivity.
    cbv beta iota zeta.
    rewrite (@bindS_ok _ _ _ _ s (Session.with_world w1 s) u0)
      by (apply liftWorld_run; exact Hser).
    rewrite (@bindS_ok _ _ _ _ (Session.with_world w1 s) (Session.with_world w1 s) None)
      by (unfold readS, Session.db; cbn [Session.with_world Session.world];
          now rewrite Hnone).
    cbv beta iota.
    rewrite (@bindS_ok _ _ _ _ (Session.with_world w1 s)
               (Session.with_world
                  (World.mk (World.db w1) (World.uuidsDrawn w1) (S (World.datesRead w1)))
                  (Session.with_world w1 s))
               (Env.dateNow env (World.datesRead w1)))
      by reflexivity.
    rewrite (@bindS_ok _ _ _ _ _
               (Session.mk w2 (Session.tags s) (Session.tagsNextId s)
                           (Session.songsNextId s + 1) (Session.notesNextId s))
               (Session.songsNextId s)).
    2:{ unfold Commands.songs_add, w2, d1, song, addedSong, u0, w.
        cbn [Session.with_world Session.db Session.world Session.songsNextId
             Session.tags Session.tagsNextId Session.notesNextId World.with_db
             World.db World.uuidsDrawn World.datesRead].
        now rewrite Hd1. }
    rewrite (@bindS_ok _ _ _ _ _
               (Session.mk w3 (Session.tags s) (Session.tagsNextId s)
                           (Session.songsNextId s + 1) (Session.notesNextId s))
               tt).
    2:{ unfold liftWorld. cbn [Session.world]. unfold scanAndAddAudioFiles.
        now rewrite Hscan. }
    rewrite (@bindS_ok _ _ _ _ _
               (Session.mk w3 (Session.tags s) (Session.tagsNextId s)
                           (Session.songsNextId s + 1) (Session.notesNextId s))
               (Some song)).
    2:{ unfold readS, Session.db. cbn [Session.world]. now rewrite Hget. }
    reflexivity. }
  unfold Session.db. cbn [Session.world Session.songsNextId].
  fold w. split; [exact Hs3|]. split; [exact Hv3|].
  assert (Hnew : forall v, In v vs -> Version.songId v = Session.songsNextId s).
  { intros v Hv. destruct (Forall2_in_r _ Hall Hv) as (g & _ & (Hs & _) & _).
    exact Hs. }
  split; [exact Hnew|]. split; [reflexivity|]. split; [exact Hfresh3|].
  split.
  - unfold songKeysOk, Session.db. cbn [Session.world Session.songsNextId]. split.
    + rewrite Hs3. intros x Hx. apply in_app_or in Hx.
      destruct Hx as [Hx|[<-|[]]].
      * specialize (Hsongs x Hx). lia.
      * unfold song, addedSong. cbn [Song.id]. lia.
    + rewrite Hv3. intros v Hv. apply in_app_or in Hv.
      destruct Hv as [Hv|Hv].
      * specialize (Hversions v Hv). lia.
      * rewrite (Hnew v Hv). lia.
  - unfold foldersRegistered, Session.db. cbn [Session.world].
    rewrite Hs3. intros x Hx.
    apply (@fileHandles_get_grown _ (World.db w1) (World.db w3) added3 Hh3).
    apply in_app_or in Hx. destruct Hx as [Hx|[<-|[]]].
    + apply (@fileHandles_get_grown _ (World.db w) (World.db w1) added1 Hh1).
      now apply Hreg.
    + exact Hkey1.
Qed.

End AddSongFolder.

(** X15.  [addSongFolder] never finds the folder it is given among the
    Songs.  In a session where UUIDs are fresh, song ids are below the key
    generator and every Song's folder handle is a registry key: a cancelled
    dialogue returns [null] and any other picker error is rethrown, both
    without a write; a picked folder always yields a new Song (the
    [existing] branch cannot be taken, because the folder is looked up under
    the key that was minted a moment before), with the next id, the
    folder's name and that new key; the Versions the scan adds all belong to
    the new Song; and the session is again as required, so adding the same
    folder a second time yields a second Song with another id and another
    key. *)
Theorem addSongFolder_always_adds_a_song :
  forall (env : Env.t) (s : Session.t),
    UuidsFresh env (Session.world s) ->
    songKeysOk s ->
    foldersRegistered s ->
    (forall name,
        Commands.addSongFolder env (Err name) s
        = (if String.eqb name "AbortError" then Ok None else Err name, s)) /\
    (forall dirHandle,
        exists song1 s1 vs1,
          Commands.addSongFolder env (Ok dirHandle) s = (Ok (Some song1), s1) /\
          song1 = Song.mk (Session.songsNextId s)
                          (FileSystemDirectoryHandle.name dirHandle)
                          (Env.randomUUID env (World.uuidsDrawn (Session.world s)))
                          (Env.dateNow env (World.datesRead (Session.world s)))
                          None /\
          DB.songs (Session.db s1) = DB.songs (Session.db s) ++ [song1] /\
          DB.versions (Session.db s1) = DB.versions (Session.db s) ++ vs1 /\
          (forall v, In v vs1 -> Version.songId v = Song.id song1) /\
          exists song2 s2,
            Commands.addSongFolder env (Ok dirHandle) s1 = (Ok (Some song2), s2) /\
            Song.id song2 = Song.id song1 + 1 /\
            Song.folderHandle song2 <> Song.folderHandle song1 /\
            DB.songs (Session.db s2) = DB.songs (Session.db s) ++ [song1; song2]).
Proof.
  intros env s Hfresh Hkeys Hreg. split.
  - intros name. unfold Commands.addSongFolder, bindS, Commands.requestFolderAccess.
    now destruct (String.eqb name "AbortError").
  - intros dirHandle.
    destruct (@addSongFolder_picked env dirHandle s Hfresh Hkeys Hreg)
      as (s1 & vs1 & Hrun1 & Hsongs1 & Hvs1 & Hnew1 & Hnext1 & Hfresh1 & Hkeys1 & Hreg1).
    destruct (@addSongFolder_picked env dirHandle s1 Hfresh1 Hkeys1 Hreg1)
      as (s2 & vs2 & Hrun2 & Hsongs2 & _).
    exists (addedSong env s dirHandle), s1, vs1.
    split; [exact Hrun1|]. split; [reflexivity|]. split; [exact Hsongs1|].
    split; [exact Hvs1|]. split; [exact Hnew1|].
    exists (addedSong env s1 dirHandle), s2.
    split; [exact Hrun2|].
    unfold addedSong. cbn [Song.id Song.folderHandle].
    split; [exact Hnext1|]. split.
    + intros E.
      assert (Hreg2 : fileHandles_get
                        (Env.randomUUID env (World.uuidsDrawn (Session.world s)))
                        (Session.db s1) <> None).
      { apply (Hreg1 (addedSong env s dirHandle)).
        rewrite Hsongs1. apply in_or_app. right. now left. }
      apply Hreg2. rewrite <- E.
      destruct Hfresh1 as (_ & Hfree). specialize (Hfree 0%nat).
      now rewrite Nat.add_0_r in Hfree.
    + rewrite Hsongs2, Hsongs1, <- app_assoc. reflexivity.
Qed.

Definition sessionEmpty : Session.t := Session.mk world0 [] 1 1 1.

Lemma addSongFolder_always_adds_a_song_witness :
  exists song1 s1,
    Commands.addSongFolder env1 (Ok folder0) sessionEmpty = (Ok (Some song1), s1) /\
    Song.id song1 = 1 /\
    exists song2 s2,
      Commands.addSongFolder env1 (Ok folder0) s1 = (Ok (Some song2), s2) /\
      Song.id song2 = 2.
Proof.
  destruct (@addSongFolder_always_adds_a_song env1 sessionEmpty) as (_ & Hpicked).
  - exact env0_UuidsFresh.
  - split; intros x [].
  - intros x [].
  - destruct (Hpicked folder0)
      as (song1 & s1 & vs1 & Hrun1 & Hsong1 & _ & _ & _ & song2 & s2 & Hrun2 & Hid2 & _).
    exists song1, s1. split; [exact Hrun1|]. split; [now rewrite Hsong1|].
    exists song2, s2. split; [exact Hrun2|]. rewrite Hid2, Hsong1. reflexivity.
Defined.

Example addSongFolder_twice :
  let s1 := snd (Commands.addSongFolder env1 (Ok folder0) sessionEmpty) in
  let s2 := snd (Commands.addSongFolder env1 (Ok folder0) s1) in
  map (fun song => (Song.id song, Song.name song, Song.folderHandle song))
      (DB.songs (Session.db s2))
  = [(1, "song", "0"); (2, "song", "4")] /\
  map (fun v => (Version.songId v, Version.versionName v))
      (DB.versions (Session.db s2))
  = [(1, "take1"); (1, "take2"); (2, "take1"); (2, "take2")].
Proof. vm_compute. split; reflexivity. Qed.

(* ================================================================== *)
(** ** Tags and tag links *)

Section TagLinks.

Lemma insertByKey_split (row : VersionTag.t) (rows : list VersionTag.t) :
  exists before after,
    rows = before ++ after /\
    Commands.insertByKey row rows = before ++ row :: after.
Proof.
  induction rows as [|r rows IH]; simpl.
  - exists [], []. now split.
  - destruct (Commands.vtBefore row r).
    + exists [], (r :: rows). now split.
    + destruct IH as (before & after & -> & ->).
      exists (r :: before), after. now split.
Qed.

Lemma vtMatches_iff (versionId tagId : Z) (vt : VersionTag.t) :
  vtMatches versionId tagId vt = true <-> vt = VersionTag.mk versionId tagId.
Proof.
  unfold vtMatches. rewrite andb_true_iff, !Z.eqb_eq. destruct vt as [v t]. simpl.
  split; [intros (-> & ->); reflexivity|intros E; injection E; auto].
Qed.

Lemma unlinked_iff (versionId tagId : Z) (rows : list VersionTag.t) :
  existsb (vtMatches versionId tagId) rows = false <->
  ~ In (VersionTag.mk versionId tagId) rows.
Proof.
  split.
  - intros H Hin.
    assert (E : existsb (vtMatches versionId tagId) rows = true).
    { apply existsb_exists. eexists. split; [exact Hin|]. now apply vtMatches_iff. }
    congruence.
  - intros H. destruct (existsb _ rows) eqn:E; [|reflexivity].
    apply existsb_exists in E. destruct E as (vt & Hin & Hm).
    apply vtMatches_iff in Hm. subst vt. contradiction.
Qed.

Lemma unlink_inserted (versionId tagId : Z) (rows : list VersionTag.t) :
  ~ In (VersionTag.mk versionId tagId) rows ->
  filter (fun vt => negb (vtMatches versionId tagId vt))
         (Commands.insertByKey (VersionTag.mk versionId tagId) rows)
  = rows.
Proof.
  intros Hnot.
  destruct (insertByKey_split (VersionTag.mk versionId tagId) rows)
    as (before & after & Hrows & ->).
  assert (Hkeep : forall l, (forall x, In x l -> In x rows) ->
                            filter (fun vt => negb (vtMatches versionId tagId vt)) l = l).
  { intros l Hl. apply filter_all. intros x Hx. apply negb_true_iff.
    destruct (vtMatches versionId tagId x) eqn:E; [|reflexivity].
    apply vtMatches_iff in E. subst x. exfalso. apply Hnot. now apply Hl. }
  rewrite filter_app. cbn [filter].
  replace (vtMatches versionId tagId (VersionTag.mk versionId tagId)) with true
    by (symmetry; now apply vtMatches_iff).
  cbn [negb]. rewrite !Hkeep, <- Hrows; [reflexivity| |];
    intros x Hx; rewrite Hrows; apply in_or_app; [now right|now left].
Qed.

Lemma filterBoolean_app {A} (xs ys : list (option A)) :
  Queries.filterBoolean (xs ++ ys)
  = Queries.filterBoolean xs ++ Queries.filterBoolean ys.
Proof. unfold Queries.filterBoolean. apply flat_map_app. Qed.

(** The tags shown for a version after a link was inserted. *)
Lemma tagsOfVersion_inserted (tagsTable : list Tag.t) (d : DB.t)
      (versionId tagId : Z) (other : Z) :
  let d' := DB.mk (DB.songs d) (DB.versions d) (DB.versionsNextId d)
                  (Commands.insertByKey (VersionTag.mk versionId tagId)
                                        (DB.versionTags d))
                  (DB.notes d) (DB.images d) (DB.fileHandles d) in
  exists before after,
    Queries.tagsOfVersion tagsTable other d = before ++ after /\
    Queries.tagsOfVersion tagsTable other d'
    = before
      ++ (if versionId =? other
          then match Queries.tags_get tagId tagsTable with
               | Some tag => [tag]
               | None => []
               end
          else [])
      ++ after.
Proof.
  cbv zeta. unfold Queries.tagsOfVersion, getVersionTags. cbn [DB.versionTags].
  destruct (insertByKey_split (VersionTag.mk versionId tagId) (DB.versionTags d))
    as (l1 & l2 & -> & ->).
  rewrite !filter_app, !map_app, !filterBoolean_app. cbn [filter VersionTag.versionId].
  eexists. eexists. split; [reflexivity|]. f_equal.
  destruct (versionId =? other).
  - cbn [map]. change (?x :: ?l) with ([x] ++ l).
    rewrite filterBoolean_app. f_equal. cbn [VersionTag.tagId].
    unfold Queries.filterBoolean. cbn [flat_map]. now rewrite app_nil_r.
  - reflexivity.
Qed.

End TagLinks.

(** X16.  Tag links: a pair is linked at most once, and removing undoes
    adding.  [addTagToVersion] throws on a pair that is already linked and
    writes nothing; on a new pair it adds that one link, keeps every other
    link, and keeps a duplicate-free table duplicate-free.  It checks
    neither that the version nor that the tag exists: a link to a tag that
    is in the [tags] table shows that tag among the version's tags (and only
    there), a link to a missing tag shows nothing.  [removeTagFromVersion]
    after a successful [addTagToVersion] of the same pair gives back the
    tables as they were, and on an unlinked pair it changes nothing. *)
Theorem tag_links_add_remove :
  forall (versionId tagId : Z) (w : World.t),
    let rows := DB.versionTags (World.db w) in
    (In (VersionTag.mk versionId tagId) rows ->
     Commands.addTagToVersion versionId tagId w = (Err "ConstraintError", w)) /\
    (~ In (VersionTag.mk versionId tagId) rows ->
     exists w1,
       Commands.addTagToVersion versionId tagId w = (Ok true, w1) /\
       (forall vt, In vt (DB.versionTags (World.db w1)) <->
                   vt = VersionTag.mk versionId tagId \/ In vt rows) /\
       (NoDup rows -> NoDup (DB.versionTags (World.db w1))) /\
       (forall tagsTable other,
           exists before after,
             Queries.tagsOfVersion tagsTable other (World.db w) = before ++ after /\
             Queries.tagsOfVersion tagsTable other (World.db w1)
             = before
               ++ (if versionId =? other
                   then match Queries.tags_get tagId tagsTable with
                        | Some tag => [tag]
                        | None => []
                        end
                   else [])
               ++ after) /\
       snd (Commands.removeTagFromVersion versionId tagId w1) = w) /\
    (~ In (VersionTag.mk versionId tagId) rows ->
     snd (Commands.removeTagFromVersion versionId tagId w) = w).
Proof.
  intros versionId tagId w. cbv zeta. split; [|split].
  - intros Hin. unfold Commands.addTagToVersion, bindM, Commands.versionTags_add.
    cbv zeta. cbn [VersionTag.versionId VersionTag.tagId].
    destruct (existsb _ _) eqn:E; [reflexivity|].
    apply unlinked_iff in E. contradiction.
  - intros Hnot. pose proof (proj2 (unlinked_iff _ _ _) Hnot) as E.
    unfold Commands.addTagToVersion, bindM, Commands.versionTags_add.
    cbv zeta. cbn [VersionTag.versionId VersionTag.tagId]. rewrite E.
    unfold ret. eexists. split; [reflexivity|].
    unfold World.with_db. cbn [World.db DB.versionTags].
    destruct (insertByKey_split (VersionTag.mk versionId tagId)
                                (DB.versionTags (World.db w)))
      as (before & after & Hrows & Hins).
    split; [|split; [|split]].
    + intros vt. rewrite Hins, Hrows, !in_app_iff. simpl.
      split; [intros [H|[H|H]]|intros [H|[H|H]]]; auto.
    + rewrite Hins, Hrows. intros Hnd.
      apply NoDup_Add with (a := VersionTag.mk versionId tagId) (l := before ++ after).
      * apply Add_app.
      * split; [exact Hnd|]. now rewrite <- Hrows.
    + intros tagsTable other.
      exact (tagsOfVersion_inserted tagsTable (World.db w) versionId tagId other).
    + unfold Commands.removeTagFromVersion. cbn [snd World.db DB.versionTags
        DB.songs DB.versions DB.versionsNextId DB.notes DB.images DB.fileHandles].
      rewrite (unlink_inserted _ _ _ Hnot).
      destruct w as [[] ? ?]. reflexivity.
  - intros Hnot. unfold Commands.removeTagFromVersion. cbn [snd].
    rewrite filter_all.
    + destruct w as [[] ? ?]. reflexivity.
    + intros vt Hvt. apply negb_true_iff.
      destruct (vtMatches versionId tagId vt) eqn:E; [|reflexivity].
      apply vtMatches_iff in E. subst vt. contradiction.
Qed.

Example handleAddTag_uiLibrary :
  let tagsOf (ui : UI.t) :=
    map (fun song => map (fun v => map Tag.name (VersionWithTags.tags v))
                         (SongWithVersions.versions song))
        (AppStore.songs (UI.store ui)) in
  tagsOf uiLibrary = [[["live"]; ["live"]]; [[]]] /\
  tagsOf (Components.handleAddTag 12 7 uiLibrary) = [[["live"]; ["live"]]; [["live"]]] /\
  tagsOf (Components.handleAddTag 12 9 uiLibrary) = [[["live"]; ["live"]]; [[]]] /\
  tagsOf (Components.handleRemoveTag 12 7 (Components.handleAddTag 12 7 uiLibrary))
  = tagsOf uiLibrary /\
  UI.store (Components.handleAddTag 10 7 uiLibrary) = UI.store uiLibrary.
Proof. vm_compute. repeat split; reflexivity. Qed.

Section Tags.

(** Tag ids are below the key generator of [tags]. *)
Definition tagKeysOk (s : Session.t) : Prop :=
  forall t, In t (Session.tags s) -> Tag.id t < Session.tagsNextId s.

Lemma name_taken_iff (name : string) (tags : list Tag.t) :
  existsb (fun t => String.eqb (Tag.name t) name) tags = true
  <-> In name (map Tag.name tags).
Proof.
  rewrite existsb_exists, in_map_iff. split.
  - intros (t & Ht & E). apply String.eqb_eq in E. now exists t.
  - intros (t & E & Ht). exists t. split; [exact Ht|]. now apply String.eqb_eq.
Qed.

End Tags.

(** X17.  Tag names stay unique.  [createTag] with a name that a tag
    already carries throws and leaves the session as it was; with a new name
    it returns the new tag, which has the next id, the given name and
    colour, and is appended to the table; no other table changes, distinct
    names stay distinct and ids stay below the key generator. *)
Theorem createTag_keeps_names_unique :
  forall (name color : string) (s : Session.t),
    tagKeysOk s ->
    (In name (map Tag.name (Session.tags s)) ->
     Commands.createTag name color s = (Err "ConstraintError", s)) /\
    (~ In name (map Tag.name (Session.tags s)) ->
     exists s',
       Commands.createTag name color s
       = (Ok (Some (Tag.mk (Session.tagsNextId s) name color)), s') /\
       Session.tags s' = Session.tags s ++ [Tag.mk (Session.tagsNextId s) name color] /\
       Session.world s' = Session.world s /\
       tagKeysOk s' /\
       (NoDup (map Tag.name (Session.tags s)) ->
        NoDup (map Tag.name (Session.tags s')))).
Proof.
  intros name color s Hkeys. split.
  - intros Hin. apply name_taken_iff in Hin.
    unfold Commands.createTag, bindS, Commands.tags_add. cbv zeta.
    cbn [Tag.name]. now rewrite Hin.
  - intros Hnot.
    assert (E : existsb (fun t => String.eqb (Tag.name t) name) (Session.tags s) = false).
    { destruct (existsb _ _) eqn:E; [|reflexivity].
      apply name_taken_iff in E. contradiction. }
    unfold Commands.createTag, bindS, Commands.tags_add. cbv zeta.
    cbn [Tag.name]. rewrite E.
    exists (Session.mk (Session.world s)
                       (Session.tags s ++ [Tag.mk (Session.tagsNextId s) name color])
                       (Session.tagsNextId s + 1) (Session.songsNextId s)
                       (Session.notesNextId s)).
    cbn [Session.tags Session.world].
    split; [|split; [reflexivity|split; [reflexivity|split]]].
    + unfold Queries.tags_get. rewrite find_snoc, find_all_false.
      * cbn [Tag.id]. now rewrite Z.eqb_refl.
      * intros t Ht. apply Z.eqb_neq. specialize (Hkeys t Ht). lia.
    + unfold tagKeysOk. cbn [Session.tags Session.tagsNextId].
      intros t Ht. apply in_app_or in Ht. destruct Ht as [Ht|[<-|[]]].
      * specialize (Hkeys t Ht). lia.
      * cbn [Tag.id]. lia.
    + cbn [Session.tags]. rewrite map_app. cbn [map Tag.name]. intros Hnd.
      apply NoDup_app; [exact Hnd|repeat constructor; intros []|].
      intros x Hx [<-|[]]. contradiction.
Qed.

Lemma createTag_keeps_names_unique_witness :
  Commands.createTag "live" "#00ff00" sessionLibrary
  = (Err "ConstraintError", sessionLibrary) /\
  exists s',
    Commands.createTag "studio" "#00ff00" sessionLibrary
    = (Ok (Some (Tag.mk 8 "studio" "#00ff00")), s').
Proof.
  destruct (@createTag_keeps_names_unique "live" "#00ff00" sessionLibrary)
    as (Htaken & _).
  - intros t [<-|[]]. reflexivity.
  - destruct (@createTag_keeps_names_unique "studio" "#00ff00" sessionLibrary)
      as (_ & Hnew).
    + intros t [<-|[]]. reflexivity.
    + split.
      * apply Htaken. simpl. now left.
      * destruct Hnew as (s' & Hrun & _).
        -- simpl. intros [E|[]]. discriminate.
        -- exists s'. exact Hrun.
Defined.

(* ================================================================== *)
(** ** The size label *)

Section FileSize.

Local Open Scope Q_scope.

Lemma ratio_times_divisor (a b : Q) : ~ b == 0 -> a == b * (a / b).
Proof. intros Hb. symmetry. now apply Qmult_div_r. Qed.

(** The integer nearest to a ratio, as [toFixed] picks it. *)
Lemma nearest_to_ratio (num den : Z) :
  (0 < den)%Z ->
  let n := Qfloor (inject_Z num / inject_Z den + (1 # 2)) in
  (2 * den * n - den <= 2 * num < 2 * den * n + den)%Z.
Proof.
  intros Hden n.
  assert (Hd : 0 < inject_Z den)
    by (change 0 with (inject_Z 0); now rewrite <- Zlt_Qlt).
  assert (Ey : inject_Z num == inject_Z den * (inject_Z num / inject_Z den)).
  { apply ratio_times_divisor. intros E. rewrite E in Hd.
    now apply Qlt_irrefl in Hd. }
  pose proof (Qfloor_le (inject_Z num / inject_Z den + (1 # 2))) as H1.
  pose proof (Qlt_floor (inject_Z num / inject_Z den + (1 # 2))) as H2.
  fold n in H1, H2. rewrite inject_Z_plus in H2. change (inject_Z 1) with 1 in H2.
  revert Ey H1 H2. generalize (inject_Z num / inject_Z den). intros y Ey H1 H2.
  assert (A : inject_Z den * inject_Z n <= inject_Z den * (y + (1 # 2))).
  { apply Qmult_le_l; assumption. }
  assert (B : inject_Z den * (y + (1 # 2)) < inject_Z den * (inject_Z n + 1)).
  { apply Qmult_lt_l; assumption. }
  split.
  - rewrite Zle_Qle. unfold Z.sub.
    rewrite inject_Z_plus, inject_Z_opp, !inject_Z_mult.
    change (inject_Z 2) with 2. lra.
  - rewrite Zlt_Qlt.
    rewrite inject_Z_plus, !inject_Z_mult.
    change (inject_Z 2) with 2. lra.
Qed.

Lemma megabytes_below_one (bytes : Z) :
  Qlt_bool (inject_Z bytes / inject_Z (1024 * 1024)) 1 = (bytes <? 1048576)%Z.
Proof.
  assert (Ey : inject_Z bytes
               == inject_Z (1024 * 1024) * (inject_Z bytes / inject_Z (1024 * 1024)))
    by (apply ratio_times_divisor; discriminate).
  revert Ey. generalize (inject_Z bytes / inject_Z (1024 * 1024)). intros y Ey.
  change (inject_Z (1024 * 1024)) with 1048576 in Ey.
  destruct (Z.ltb_spec bytes 1048576) as [H|H].
  - apply Qlt_bool_iff. rewrite Zlt_Qlt in H.
    change (inject_Z 1048576) with 1048576 in H. lra.
  - apply Qlt_bool_false_iff. rewrite Zle_Qle in H.
    change (inject_Z 1048576) with 1048576 in H. lra.
Qed.

End FileSize.

(** X18.  The size label is the size rounded to the unit shown, and the
    unit changes at one mebibyte exactly.  For a size that is not negative:
    below 1048576 bytes the label is a whole number [n] of KB with
    [1024 n - 512 <= bytes < 1024 n + 512], so [n] ranges up to 1024 (the
    last half kibibyte below one mebibyte reads as 1024 KB, not as 1.0 MB);
    from 1048576 bytes on it is [i.d MB] with one decimal digit [d], [i >= 1],
    and [i.d] within a twentieth of a mebibyte of the size. *)
Theorem formatFileSize_rounds_to_unit :
  forall bytes : Z,
    0 <= bytes ->
    (bytes < 1048576 ->
     exists n,
       Display.formatFileSize bytes = String.append (numberToString n) " KB" /\
       0 <= n <= 1024 /\
       1024 * n - 512 <= bytes < 1024 * n + 512) /\
    (1048576 <= bytes ->
     exists i d,
       Display.formatFileSize bytes
       = String.append (String.append (numberToString i)
                                      (String.append "." (numberToString d)))
                       " MB" /\
       1 <= i /\ 0 <= d <= 9 /\
       1048576 * (10 * i + d) - 524288 <= 10 * bytes
       < 1048576 * (10 * i + d) + 524288).
Proof.
  intros bytes Hpos. unfold Display.formatFileSize. cbv zeta.
  rewrite megabytes_below_one. split.
  - intros Hlt. destruct (Z.ltb_spec bytes 1048576) as [_|H]; [|lia].
    unfold Display.toFixed0.
    assert (Hnn : Qlt_bool (inject_Z bytes / 1024) 0 = false).
    { apply Qlt_bool_false_iff.
      assert (Ey : (inject_Z bytes == 1024 * (inject_Z bytes / 1024))%Q)
        by (apply ratio_times_divisor; discriminate).
      revert Ey. generalize (inject_Z bytes / 1024)%Q. intros y Ey.
      rewrite Zle_Qle in Hpos. change (inject_Z 0) with 0%Q in Hpos. lra. }
    rewrite Hnn.
    pose proof (@nearest_to_ratio bytes 1024 ltac:(lia)) as Hn. cbv zeta in Hn.
    change (inject_Z 1024) with 1024%Q in Hn.
    eexists. split; [reflexivity|]. lia.
  - intros Hge. destruct (Z.ltb_spec bytes 1048576) as [H|_]; [lia|].
    unfold Display.toFixed1.
    assert (Hnn : Qlt_bool (inject_Z bytes / inject_Z (1024 * 1024)) 0 = false).
    { apply Qlt_bool_false_iff.
      assert (Ey : (inject_Z bytes
                    == inject_Z (1024 * 1024)
                       * (inject_Z bytes / inject_Z (1024 * 1024)))%Q)
        by (apply ratio_times_divisor; discriminate).
      revert Ey. generalize (inject_Z bytes / inject_Z (1024 * 1024))%Q.
      intros y Ey. change (inject_Z (1024 * 1024)) with 1048576%Q in Ey.
      rewrite Zle_Qle in Hpos. change (inject_Z 0) with 0%Q in Hpos. lra. }
    rewrite Hnn.
    set (n := Qfloor (inject_Z bytes / inject_Z (1024 * 1024) * 10 + (1 # 2))).
    assert (Hn : 2 * 1048576 * n - 1048576 <= 2 * (10 * bytes)
                 < 2 * 1048576 * n + 1048576).
    { pose proof (@nearest_to_ratio (10 * bytes) 1048576 ltac:(lia)) as Hn.
      cbv zeta in Hn.
      assert (En : Qfloor (inject_Z (10 * bytes) / inject_Z 1048576 + (1 # 2)) = n).
      { unfold n. apply Qfloor_comp. rewrite (inject_Z_mult 10 bytes).
        change (inject_Z (1024 * 1024)) with 1048576%Q.
        change (inject_Z 1048576) with 1048576%Q.
        change (inject_Z 10) with 10%Q. generalize (inject_Z bytes). intros b.
        field. }
      now rewrite En in Hn. }
    exists (n / 10), (n mod 10). split; [reflexivity|].
    pose proof (Z.div_mod n 10 ltac:(lia)) as Hdm.
    pose proof (Z.mod_pos_bound n 10 ltac:(lia)) as Hmod.
    split; [|split]; [|lia|lia].
    assert (10 <= n) by lia.
    apply Z.div_le_lower_bound; lia.
Qed.

Lemma formatFileSize_rounds_to_unit_witness :
  exists n, Display.formatFileSize 1048575 = String.append (numberToString n) " KB"
            /\ 0 <= n <= 1024.
Proof.
  destruct (@formatFileSize_rounds_to_unit 1048575) as (Hkb & _); [lia|].
  destruct Hkb as (n & Hlabel & Hn & _); [lia|].
  exists n. split; [exact Hlabel|exact Hn].
Defined.

Example formatFileSize_examples :
  Display.formatFileSize 1048575 = "1024 KB" /\
  Display.formatFileSize 1048576 = "1.0 MB" /\
  Display.formatFileSize 25690112 = "24.5 MB" /\
  Display.formatFileSize 512 = "1 KB" /\
  Display.formatFileSize 511 = "0 KB".
Proof. vm_compute. repeat split; reflexivity. Qed.

(* ================================================================== *)
(** ** The upgrade and the rows that name a version *)


(* ================================================================== *)
(** ** One Version per name *)

Section NamesUnique.

Variable env : Env.t.

(** What [where({ songId, versionName })] looks a Version up by. *)
Definition nameKey (v : Version.t) : Z * string :=
  (Version.songId v, Version.versionName v).

Definition namesUnique (w : World.t) : Prop :=
  NoDup (map nameKey (DB.versions (World.db w))).

Lemma namesUnique_same (w w' : World.t) :
  sameVersions w w' -> namesUnique w -> namesUnique w'.
Proof. intros (Hv & _). unfold namesUnique. now rewrite Hv. Qed.

Lemma versions_first_absent (songId : Z) (versionName : string) (w : World.t) :
  versions_first songId versionName w = None ->
  ~ In (songId, versionName) (map nameKey (DB.versions (World.db w))).
Proof.
  unfold versions_first. intros Hnone Hin. apply in_map_iff in Hin.
  destruct Hin as (v & Hkey & Hv). pose proof (find_none _ _ Hnone v Hv) as F.
  cbv beta in F. unfold nameKey in Hkey. injection Hkey as Hs Hn.
  rewrite Hs, Hn, Z.eqb_refl, String.eqb_refl in F. discriminate.
Qed.

Lemma createVersionWithFormats_namesUnique songId versionName handles w r w' :
  versions_first songId versionName w = None ->
  createVersionWithFormats env songId versionName handles w = (r, w') ->
  namesUnique w -> namesUnique w'.
Proof.
  intros Hnone H Hnd. apply createVersionWithFormats_step in H.
  destruct H as [Hs|(v & fs & Hv & (Hsong & Hname & _))].
  - now apply (namesUnique_same Hs).
  - unfold namesUnique. rewrite Hv, map_app. cbn [map].
    apply NoDup_app; [exact Hnd|repeat constructor; intros []|].
    intros k Hk [<-|[]]. unfold nameKey in Hk. rewrite Hsong, Hname in Hk.
    now apply (versions_first_absent _ _ _ Hnone).
Qed.

Lemma addNewFormatsToVersion_namesUnique version handles w r w' :
  addNewFormatsToVersion env version handles w = (r, w') ->
  namesUnique w -> namesUnique w'.
Proof.
  intros H Hnd. apply addNewFormatsToVersion_step in H.
  destruct H as [Hs|(fs & m & _ & _ & Hv)].
  - now apply (namesUnique_same Hs).
  - unfold namesUnique. rewrite Hv, map_map.
    erewrite map_ext; [exact Hnd|].
    intros v. now destruct (Version.id v =? Version.id version).
Qed.

Lemma processGroups_namesUnique songId groups :
  forall w r w',
    processGroups env songId groups w = (r, w') ->
    namesUnique w -> namesUnique w'.
Proof.
  induction groups as [|[b hs] groups IH]; intros w r w' H Hnd; simpl in H.
  - unfold ret in H. now injection H as <- <-.
  - unfold bindM in H.
    destruct (versions_first songId b w) as [existing|] eqn:Efirst.
    + destruct (addNewFormatsToVersion env existing hs w) as [r1 w1] eqn:E1.
      apply addNewFormatsToVersion_namesUnique in E1; [|exact Hnd].
      destruct r1 as [[]|e].
      * now apply (IH _ _ _ H).
      * now injection H as <- <-.
    + destruct (createVersionWithFormats env songId b hs w) as [r1 w1] eqn:E1.
      apply (@createVersionWithFormats_namesUnique songId b hs w r1 w1 Efirst) in E1;
        [|exact Hnd].
      destruct r1 as [[]|e].
      * now apply (IH _ _ _ H).
      * now injection H as <- <-.
Qed.

End NamesUnique.

(** X20.  A scan never gives a Song a second Version of a name.  When no
    two Versions share both Song and name before a scan, none do after it,
    whatever the folder holds, whatever the file system and the UUID source
    answer, and however the scan ends: a base name that already has a
    Version of the Song is merged into that Version, and any other base name
    gets one new Version. *)
Theorem scanAndAddAudioFiles_keeps_names_unique :
  forall (env : Env.t) (dirHandle : FileSystemDirectoryHandle.t) (songId : Z)
         (w : World.t),
    NoDup (map (fun v => (Version.songId v, Version.versionName v))
               (DB.versions (World.db w))) ->
    NoDup (map (fun v => (Version.songId v, Version.versionName v))
               (DB.versions
                  (World.db (snd (scanAndAddAudioFiles env dirHandle songId w))))).
Proof.
  intros env dirHandle songId w Hnd.
  destruct (scanAndAddAudioFiles env dirHandle songId w) as [r w'] eqn:E.
  unfold scanAndAddAudioFiles in E.
  exact (@processGroups_namesUnique env songId _ w r w' E Hnd).
Qed.

Lemma scanAndAddAudioFiles_keeps_names_unique_witness :
  NoDup (map (fun v => (Version.songId v, Version.versionName v))
             (DB.versions
                (World.db (snd (scanAndAddAudioFiles env1 folder0 1 worldV))))).
Proof.
  apply (@scanAndAddAudioFiles_keeps_names_unique env1 folder0 1 worldV).
  simpl. repeat constructor. intros [].
Defined.

(* ================================================================== *)
(** ** The policy when formats are appended *)

Section PolicyGrowth.

Lemma sizeAt_app_r (pre rest : list VersionFormat.t) (j : nat) :
  (List.length pre <= j < List.length (pre ++ rest))%nat ->
  exists f, In f rest /\ sizeAt (pre ++ rest) j = VersionFormat.fileSize f.
Proof.
  intros (Hge & Hlt). rewrite length_app in Hlt.
  unfold sizeAt, sizes. rewrite map_app, app_nth2; rewrite length_map; [|lia].
  assert (Hin : In (nth (j - List.length pre) (map VersionFormat.fileSize rest) 0)
                   (map VersionFormat.fileSize rest))
    by (apply nth_In; rewrite length_map; lia).
  apply in_map_iff in Hin. destruct Hin as (f & Hf & Hin).
  exists f. split; [exact Hin|now symmetry].
Qed.

Lemma leftmostMin_app (pre rest : list VersionFormat.t) (r r' : nat) :
  leftmostMin pre r ->
  leftmostMin (pre ++ rest) r' ->
  r' = r \/
  ((List.length pre <= r')%nat /\ sizeAt (pre ++ rest) r' < sizeAt pre r).
Proof.
  intros (Hr & Hmin & Hlt) (Hr' & Hmin' & Hlt').
  destruct (Nat.lt_ge_cases r' (List.length pre)) as [Hin|Hout].
  - left.
    assert (Hr2 : (r < List.length (pre ++ rest))%nat)
      by (rewrite length_app; lia).
    pose proof (Hmin' r Hr2) as H1. pose proof (Hmin r' Hin) as H2.
    rewrite !sizeAt_app_l in H1 by assumption.
    destruct (Nat.lt_trichotomy r' r) as [Hc|[Hc|Hc]]; [|exact Hc|].
    + specialize (Hlt r' Hc). lia.
    + specialize (Hlt' r Hc). rewrite !sizeAt_app_l in Hlt' by assumption. lia.
  - right. split; [exact Hout|].
    assert (Hc : (r < r')%nat) by lia.
    specialize (Hlt' r Hc). now rewrite (sizeAt_app_l pre rest Hr) in Hlt'.
Qed.

End PolicyGrowth.

(** X21.  Appending formats to a non-empty list moves the selected index
    only to an appended file, and only to one strictly smaller than the file
    selected before; when every appended file is at least as large as the
    selected one, the selected index stays.  This is what a rescan that
    merges new formats into a Version does to its recomputed
    [selectedFormatIndex]. *)
Theorem findSmallestFormat_after_append :
  forall formats more : list VersionFormat.t,
    formats <> [] ->
    (findSmallestFormat (formats ++ more) = findSmallestFormat formats \/
     ((List.length formats <= findSmallestFormat (formats ++ more))%nat /\
      sizeAt (formats ++ more) (findSmallestFormat (formats ++ more))
      < sizeAt formats (findSmallestFormat formats))) /\
    ((forall f, In f more ->
                sizeAt formats (findSmallestFormat formats)
                <= VersionFormat.fileSize f) ->
     findSmallestFormat (formats ++ more) = findSmallestFormat formats).
Proof.
  intros formats more Hne.
  assert (Hne' : formats ++ more <> []) by (destruct formats; [congruence|discriminate]).
  pose proof (findSmallestFormat_leftmostMin Hne) as Hold.
  pose proof (findSmallestFormat_leftmostMin Hne') as Hnew.
  pose proof (@leftmostMin_app formats more _ _ Hold Hnew) as Hcases.
  split; [exact Hcases|].
  intros Hlarge. destruct Hcases as [Heq|(Hout & Hlt)]; [exact Heq|].
  destruct Hnew as (Hr' & _).
  destruct (@sizeAt_app_r formats more _ (conj Hout Hr')) as (f & Hin & Hsz).
  specialize (Hlarge f Hin). lia.
Qed.

Lemma findSmallestFormat_after_append_witness :
  findSmallestFormat ([fmt 500000 None; fmt 300000 None]
                      ++ [fmt 300000 None; fmt 400000 None]) = 1%nat.
Proof.
  destruct (@findSmallestFormat_after_append
              [fmt 500000 None; fmt 300000 None]
              [fmt 300000 None; fmt 400000 None]) as (_ & Hstay);
    [discriminate|].
  apply Hstay. intros f [<-|[<-|[]]]; vm_compute; intros H; discriminate H.
Defined.

(* ================================================================== *)
(** ** The note counts of the Song browser *)

Section NoteCounts.

(** One more note on the versions of id [versionId]. *)
Definition bumpNoteCount (versionId : Z) (v : VersionWithTags.t)
  : VersionWithTags.t :=
  if Version.id (VersionWithTags.version v) =? versionId
  then VersionWithTags.mk (VersionWithTags.version v) (VersionWithTags.tags v)
                          (option_map S (VersionWithTags.noteCount v))
  else v.

Definition bumpSongs (versionId : Z) (songs : list SongWithVersions.t)
  : list SongWithVersions.t :=
  map (fun s => SongWithVersions.mk
                  (SongWithVersions.song s)
                  (map (bumpNoteCount versionId) (SongWithVersions.versions s)))
      songs.

(** The tables with another [notes] table. *)
Definition withNotes (notes : list Note.t) (d : DB.t) : DB.t :=
  DB.mk (DB.songs d) (DB.versions d) (DB.versionsNextId d) (DB.versionTags d)
        notes (DB.images d) (DB.fileHandles d).

Lemma view_bumped (tagsTable : list Tag.t) (d : DB.t) (notes : list Note.t)
      (versionId : Z) :
  (forall v, List.length (getNotes v (withNotes notes d))
             = (List.length (getNotes v d)
                + (if (v =? versionId)%Z then 1 else 0))%nat) ->
  Queries.getSongsWithVersions tagsTable (withNotes notes d)
  = bumpSongs versionId (Queries.getSongsWithVersions tagsTable d).
Proof.
  intros Hcount. unfold Queries.getSongsWithVersions, bumpSongs.
  rewrite map_map. cbn [withNotes DB.songs]. apply map_ext. intros song.
  cbn [SongWithVersions.song SongWithVersions.versions]. f_equal.
  rewrite map_map. unfold getVersions. cbn [withNotes DB.versions].
  apply map_ext. intros v. unfold bumpNoteCount.
  cbn [VersionWithTags.version VersionWithTags.tags VersionWithTags.noteCount].
  rewrite (Hcount (Version.id v)).
  assert (Etags : Queries.tagsOfVersion tagsTable (Version.id v) (withNotes notes d)
                  = Queries.tagsOfVersion tagsTable (Version.id v) d)
    by reflexivity.
  rewrite Etags.
  destruct (Version.id v =? versionId); cbn [option_map].
  - now rewrite Nat.add_1_r.
  - now rewrite Nat.add_0_r.
Qed.

Lemma filter_all_kept {A} (f : A -> bool) (l : list A) :
  (forall x, In x l -> f x = true) -> filter f l = l.
Proof.
  induction l as [|a l IH]; intros H; simpl; [reflexivity|].
  rewrite (H a (or_introl eq_refl)). f_equal. apply IH.
  intros x Hx. apply H. now right.
Qed.

(** Deleting by a key that one row has takes one note from the version of
    that row. *)
Lemma count_after_delete (notes : list Note.t) (n : Note.t) (v : Z) :
  NoDup (map Note.id notes) ->
  In n notes ->
  List.length (filter (fun m => Note.versionId m =? v) notes)
  = (List.length
       (filter (fun m => (Note.versionId m =? v)%Z)
               (filter (fun m => negb (Note.id m =? Note.id n)%Z) notes))
     + (if (v =? Note.versionId n)%Z then 1 else 0))%nat.
Proof.
  induction notes as [|m notes IH]; intros Hnd Hin; [destruct Hin|].
  cbn [map] in Hnd. apply NoDup_cons_iff in Hnd. destruct Hnd as (Hfresh & Hnd).
  cbn [filter]. destruct (Z.eqb_spec (Note.id m) (Note.id n)) as [E|E].
  - assert (Hm : n = m).
    { destruct Hin as [Hm|Hm]; [now symmetry|]. exfalso. apply Hfresh.
      rewrite E. now apply in_map. }
    subst n. cbn [negb].
    rewrite (@filter_all_kept _ (fun x => negb (Note.id x =? Note.id m)) notes).
    + rewrite (Z.eqb_sym v). destruct (Note.versionId m =? v); cbn [List.length]; lia.
    + intros x Hx. apply negb_true_iff. apply Z.eqb_neq. intros Ex.
      apply Hfresh. rewrite <- Ex. now apply in_map.
  - cbn [negb filter].
    assert (Hin' : In n notes).
    { destruct Hin as [Hm|Hm]; [|exact Hm]. subst m. now contradiction E. }
    specialize (IH Hnd Hin').
    destruct (Note.versionId m =? v); cbn [List.length]; lia.
Qed.

End NoteCounts.

(** X23.  The note handlers leave the note counts of the Song browser
    behind.  Starting from a store whose Songs are the joined view of the
    tables: after [handleCreateNote] with content, the store's Songs are
    what they were, while the joined view now counts one more note on the
    versions of that id; after a confirmed [handleDeleteNote] of a stored
    note (note ids being unique), the store's Songs are what they were and
    count one more note on the note's version than the joined view does.
    The counts agree again only when [loadData] runs. *)
Theorem note_handlers_leave_counts_stale :
  forall (env : Env.t) (ui : UI.t),
    songsMirror ui ->
    (forall (versionId : Z) (e : Editor.t),
        Editor.isEmpty e = false ->
        noteKeysOk (UI.session ui) ->
        let ui' := Components.handleCreateNote env versionId (Some e) ui in
        AppStore.songs (UI.store ui') = AppStore.songs (UI.store ui) /\
        Queries.getSongsWithVersions (Session.tags (UI.session ui'))
                                     (Session.db (UI.session ui'))
        = bumpSongs versionId (AppStore.songs (UI.store ui'))) /\
    (forall n : Note.t,
        NoDup (map Note.id (DB.notes (Session.db (UI.session ui)))) ->
        In n (DB.notes (Session.db (UI.session ui))) ->
        let ui' := Components.handleDeleteNote true (Note.id n) ui in
        AppStore.songs (UI.store ui')
        = bumpSongs (Note.versionId n)
            (Queries.getSongsWithVersions (Session.tags (UI.session ui'))
                                          (Session.db (UI.session ui')))).
Proof.
  intros env ui Hmirror. unfold songsMirror in Hmirror. split.
  - intros versionId e Hempty _. cbv zeta. unfold Components.handleCreateNote.
    rewrite Hempty.
    set (content := Editor.getHTML e).
    set (timestamp := option_map inject_Z (Components.contentTimestamp content)).
    pose proof (@createNote_run env (UI.session ui) versionId content timestamp)
      as Hrun.
    cbv zeta in Hrun. rewrite Hrun.
    set (note := createdNote env (UI.session ui) versionId content timestamp).
    assert (Hview :
              Queries.getSongsWithVersions
                (Session.tags (afterCreateNote (UI.session ui) note))
                (Session.db (afterCreateNote (UI.session ui) note))
              = bumpSongs versionId (AppStore.songs (UI.store ui))).
    { rewrite Hmirror.
      apply (@view_bumped (Session.tags (UI.session ui))
                          (Session.db (UI.session ui))
                          (DB.notes (Session.db (UI.session ui)) ++ [note])
                          versionId).
      intros v. unfold withNotes. rewrite getNotes_snoc, length_app.
      f_equal. unfold note, createdNote. cbn [Note.versionId].
      rewrite (Z.eqb_sym versionId). now destruct (v =? versionId). }
    destruct (Commands.notes_get _ _); cbn [UI.store UI.session AppStore.songs
                                             AppStore.setNotes];
      (split; [reflexivity|exact Hview]).
  - intros n Hnd Hin. cbv zeta. unfold Components.handleDeleteNote, liftWorld,
      Commands.deleteNote.
    cbn [UI.store UI.session AppStore.songs AppStore.setNotes fst snd].
    rewrite Hmirror.
    set (d := Session.db (UI.session ui)).
    assert (Hview :
              Queries.getSongsWithVersions (Session.tags (UI.session ui)) d
              = bumpSongs (Note.versionId n)
                  (Queries.getSongsWithVersions
                     (Session.tags (UI.session ui))
                     (withNotes (filter (fun m => negb (Note.id m =? Note.id n))
                                        (DB.notes d)) d))).
    { assert (Ed : d = withNotes (DB.notes d)
                               (withNotes (filter (fun m => negb (Note.id m =? Note.id n))
                                                  (DB.notes d)) d))
        by (now destruct d).
      rewrite Ed at 1. apply view_bumped. intros v.
      unfold getNotes, withNotes. cbn [DB.notes].
      now apply count_after_delete. }
    exact Hview.
Qed.

Lemma note_handlers_leave_counts_stale_witness :
  let ui' := Components.handleCreateNote
               env1 10 (Some (Editor.mk false "<p>again @0:30</p>")) uiLibrary in
  map (fun v => (Version.id (VersionWithTags.version v), VersionWithTags.noteCount v))
      (flat_map SongWithVersions.versions (AppStore.songs (UI.store ui')))
  = [(10, Some 2%nat); (11, Some 2%nat); (12, Some 1%nat)] /\
  Queries.getSongsWithVersions (Session.tags (UI.session ui'))
                               (Session.db (UI.session ui'))
  = bumpSongs 10 (AppStore.songs (UI.store ui')).
Proof.
  destruct (@note_handlers_leave_counts_stale env1 uiLibrary) as (Hcreate & _);
    [reflexivity|].
  destruct (Hcreate 10 (Editor.mk false "<p>again @0:30</p>")) as (_ & Hview).
  - reflexivity.
  - intros n Hn. simpl in Hn. unfold note in Hn.
    repeat (destruct Hn as [<-|Hn]; [simpl; lia|]). destruct Hn.
  - split; [reflexivity|exact Hview].
Defined.
